(** * ppopgi-worker-cache: the caching GraphQL proxy of [src/index.ts]

    A shallow embedding of the worker: the pure helpers (pagination clamp,
    TTL routing, canonical key derivation, meta-block parsing), the
    effects on the cache and on the upstream as explicit state passing with
    exceptions, and the single-flight map as a transition system over the
    events of one isolate.

    Conventions.
    - A JavaScript string is a [string]: a sequence of code units, of which
      the embedding has the 256 of [ascii].
    - A JavaScript number is a [number]: a rational (which covers every finite
      double; comparison, [Math.trunc], [Math.min] and [Math.max] are exact on
      doubles) or one of [NaN], [Infinity], [-Infinity].
    - What the runtime provides and the repository does not define
      ([JSON.parse], [JSON.stringify], [Number], [String], SHA-256, the
      message of the [RangeError] of [new Response]) is a field of the class
      [Platform]; every theorem holds for every platform.
    - What lies outside the isolate is the cache, a map from addresses to
      responses, and the list of the requests sent to the upstream so far;
      the world, an oracle, says how a call to the upstream settles and
      which operations of the cache fail.
    - A write to the cache takes effect where the code calls [cache.put].
      The runtime completes it some time later, and the cache may drop an
      entry at any time: a lookup that misses an entry written before is
      the lookup after the event [Evict].
    - A header keeps the value it is given. The values this program sets
      are literals and values read from other [Headers] objects, which hold
      them without leading or trailing white space. *)

From Stdlib Require Import ZArith QArith String Ascii List Bool Lia.
From Stdlib Require Import HexadecimalString DecimalString.
From stdpp Require Import gmap strings sorting.

Local Open Scope string_scope.
Local Open Scope list_scope.

(* ================================================================== *)
(** ** Strings *)
(* ================================================================== *)

Module Str.

(** [c] as ASCII lower case: [String.prototype.toLowerCase] on one code unit. *)
Definition lower_ascii (c : ascii) : ascii :=
  let n := nat_of_ascii c in
  if (65 <=? n)%nat && (n <=? 90)%nat then ascii_of_nat (n + 32) else c.

(** [s.toLowerCase()] *)
Fixpoint toLowerCase (s : string) : string :=
  match s with
  | EmptyString => EmptyString
  | String c s' => String (lower_ascii c) (toLowerCase s')
  end.

(** [s.startsWith(p)] *)
Fixpoint startsWith (s p : string) {struct p} : bool :=
  match p, s with
  | EmptyString, _ => true
  | String _ _, EmptyString => false
  | String a p', String b s' => Ascii.eqb a b && startsWith s' p'
  end.

(** [s.includes(p)]: [p] occurs in [s] as a contiguous run. *)
Fixpoint includes (s p : string) : bool :=
  startsWith s p ||
  match s with
  | EmptyString => false
  | String _ s' => includes s' p
  end.

(** [s.endsWith(p)] *)
Definition endsWith (s p : string) : bool :=
  let n := String.length s in
  let m := String.length p in
  (m <=? n)%nat && String.eqb (substring (n - m) m s) p.

(** White space of [String.prototype.trim] among the first 256 code units:
    TAB, LF, VT, FF, CR, SPACE and NBSP. *)
Definition is_space (c : ascii) : bool :=
  let n := nat_of_ascii c in
  ((9 <=? n)%nat && (n <=? 13)%nat) || (n =? 32)%nat || (n =? 160)%nat.

Fixpoint trimStart (s : string) : string :=
  match s with
  | EmptyString => EmptyString
  | String c s' => if is_space c then trimStart s' else s
  end.

(** Drops trailing white space: a suffix is dropped when all of it is white. *)
Fixpoint trimEnd (s : string) : string :=
  match s with
  | EmptyString => EmptyString
  | String c s' =>
      match trimEnd s' with
      | EmptyString => if is_space c then EmptyString else String c EmptyString
      | t => String c t
      end
  end.

(** [s.trim()] *)
Definition trim (s : string) : string := trimEnd (trimStart s).

(** [s.split(",")] *)
Fixpoint split_comma (s : string) : list string :=
  match s with
  | EmptyString => [EmptyString]
  | String c s' =>
      if Ascii.eqb c ","%char then EmptyString :: split_comma s'
      else match split_comma s' with
           | [] => [String c EmptyString]
           | w :: ws => String c w :: ws
           end
  end.

(** [parts.join(sep)] *)
Definition join (sep : string) (parts : list string) : string :=
  String.concat sep parts.

End Str.

(* ================================================================== *)
(** ** Numbers and values *)
(* ================================================================== *)

(** A JavaScript number. *)
Inductive number : Type :=
| Fin (q : Q)
| PInf
| NInf
| NaN.

(** A number written as an integer literal in the source. *)
Definition int (z : Z) : number := Fin (inject_Z z).

(** [Number.isFinite(n)] for a value [n] that is a number. *)
Definition isFinite (n : number) : bool :=
  match n with Fin _ => true | _ => false end.

(** [Math.trunc] of a finite number: rounding toward zero. *)
Definition trunc (q : Q) : Z := Z.quot (Qnum q) (Z.pos (Qden q)).

(** The relational operator [a < b] on numbers (false when either is NaN). *)
Definition num_lt (a b : number) : bool :=
  match a, b with
  | NaN, _ | _, NaN => false
  | PInf, _ => false
  | _, NInf => false
  | NInf, _ => true
  | Fin _, PInf => true
  | Fin x, Fin y => negb (Qle_bool y x)
  end.

(** A JavaScript value as [JSON.parse] builds it, and [undefined]. An object
    lists its own enumerable properties in the order [Object.keys] gives
    them; its keys are pairwise distinct (see [wf_value]). *)
#[warnings="-register-all"]
Inductive value : Type :=
| VUndefined
| VNull
| VBool (b : bool)
| VNum (n : number)
| VStr (s : string)
| VArr (xs : list value)
| VObj (kvs : list (string * value)).

(** [Object.keys(o)] for the property list of an object. *)
Definition keys (kvs : list (string * value)) : list string := map fst kvs.

(** [o[k]]: the own property, [undefined] when there is none. (No name the
    source reads lives on [Object.prototype].) *)
Fixpoint obj_get (kvs : list (string * value)) (k : string) : value :=
  match kvs with
  | [] => VUndefined
  | (k', x) :: rest => if String.eqb k' k then x else obj_get rest k
  end.

(** [k in o] for an own property. *)
Definition obj_has (kvs : list (string * value)) (k : string) : bool :=
  existsb (String.eqb k) (keys kvs).

(** [v?.k]: property access that yields [undefined] on [null], [undefined]
    and on values without that property. *)
Definition get (v : value) (k : string) : value :=
  match v with
  | VObj kvs => obj_get kvs k
  | _ => VUndefined
  end.

(** The platform: what the runtime provides. *)
Class Platform : Type := {
  (** [JSON.parse(text)]; [None] when it throws a SyntaxError *)
  JSON_parse : string -> option value;
  (** [JSON.stringify(v)] *)
  JSON_stringify : value -> string;
  (** [Number(s)] for a string [s] *)
  Number_of_string : string -> number;
  (** [String(n)], also a number inside a template literal *)
  String_of_number : number -> string;
  (** the bytes of the SHA-256 digest of the UTF-8 encoding of a string *)
  SHA256 : string -> list N;
  (** the message of the [RangeError] that [new Response(body, { status })]
      throws for a status outside 200-599 *)
  Response_status_error : Z -> string;
}.

(* ================================================================== *)
(** ** Limits: [clampPagination], [clampNumberish], [clampInt] *)
(* ================================================================== *)

Section Limits.
Context `{Platform}.

(** [clampInt(n, min, max)] *)
Definition clampInt (n : number) (min max : Z) : number :=
  match n with
  | Fin q => int (Z.min (Z.max (trunc q) min) max)
  | _ => int min
  end.

(** [clampNumberish(v, min, max)] *)
Definition clampNumberish (v : value) (min max : Z) : number :=
  match v with
  | VNum n => clampInt n min max
  | VStr s =>
      if negb (String.eqb (Str.trim s) "") then
        let n := Number_of_string s in
        if isFinite n then clampInt n min max else int min
      else int min
  | _ => int min
  end.

(** The key test of the truncation branch: [k === "ids" || k.endsWith("Ids")]. *)
Definition is_ids_key (k : string) : bool :=
  String.eqb k "ids" || Str.endsWith k "Ids".

(** [Array.isArray(v)] *)
Definition isArray (v : value) : bool :=
  match v with VArr _ => true | _ => false end.

(** [v.slice(0, n)] for an array [v] (other values are left alone: the
    source slices arrays only). *)
Definition slice0 (n : nat) (v : value) : value :=
  match v with VArr xs => VArr (firstn n xs) | _ => v end.

(** [walk(obj)] of [clampPagination], as the value [obj] holds afterwards.

    The source mutates in place: for each key [k] of [obj] with value [v] it
    may assign [obj[k]] and then calls [walk(v)] on the old value. In the
    tree the effect on the property [k] is:
    - [first], [skip]: the clamped number (the old value is detached, the
      walk over it is not observable);
    - an [ids] key holding an array: [v.slice(0, 200)]; the copy shares its
      elements with [v], so they are the walked ones;
    - any other property still holds [v], walked.
    An array is walked through its index keys, none of which is special. *)
Fixpoint walk (v : value) : value :=
  match v with
  | VArr xs => VArr (map walk xs)
  | VObj kvs =>
      VObj (map (fun kx : string * value =>
                   let (k, x) := kx in
                   (k,
                    if String.eqb k "first" then VNum (clampNumberish x 1 200)
                    else if String.eqb k "skip" then VNum (clampNumberish x 0 100000)
                    else if is_ids_key k && isArray x then slice0 200 (walk x)
                    else walk x)) kvs)
  | _ => v
  end.

(** What one iteration of the loop of [walk] leaves in property [k], whose
    value was [x]. *)
Definition walk_prop (k : string) (x : value) : value :=
  if String.eqb k "first" then VNum (clampNumberish x 1 200)
  else if String.eqb k "skip" then VNum (clampNumberish x 0 100000)
  else if is_ids_key k && isArray x then slice0 200 (walk x)
  else walk x.

(** [clampPagination(variables)]: the state of [variables] after the call. *)
Definition clampPagination (variables : value) : value := walk variables.

End Limits.

(* ================================================================== *)
(** ** TTL routing: [pickTtlSeconds] *)
(* ================================================================== *)

Definition DEFAULT_TTL_SECONDS : Z := 8.

(** [pickTtlSeconds(query)] *)
Definition pickTtlSeconds (query : string) : Z :=
  let q := Str.toLowerCase query in
  (* hot / meta *)
  if Str.includes q "query globalfeed" then 3
  else if Str.includes q "_meta" || Str.includes q "query __meta" then 3
  (* homepage / billboard *)
  else if Str.includes q "query globalstats" || Str.includes q "query globalstatsbillboard" then 8
  else if Str.includes q "query homelotteries" then 8
  (* detail / user pages *)
  else if Str.includes q "query lotterybyid" then 15
  else if Str.includes q "query userlotteriesbyuser" then 15
  else if Str.includes q "query userlotteriesbylottery" then 15
  (* filtered lists *)
  else if Str.includes q "query lotteriesbycreator" then 20
  else if Str.includes q "query lotteriesbyfeerecipient" then 20
  else DEFAULT_TTL_SECONDS.

(* ================================================================== *)
(** ** Stable hashing: [canonicalStringify], [sha256Hex] *)
(* ================================================================== *)

(** [keys.sort()]: the order of [Array.prototype.sort()] without a
    comparator on strings is code unit by code unit, [String.le]. *)
Definition sort_keys (ks : list string) : list string := merge_sort String.le ks.

(** The value of a run of decimal digits, [None] when a character is none. *)
Fixpoint digits_value (s : string) (acc : N) : option N :=
  match s with
  | EmptyString => Some acc
  | String c s' =>
      let n := N_of_ascii c in
      if (48 <=? n)%N && (n <=? 57)%N then digits_value s' (acc * 10 + (n - 48))%N
      else None
  end.

(** The array index a property name denotes: a canonical decimal numeral
    below 2^32 - 1. The engine enumerates such names first, in numeric
    order, whatever the order of insertion. *)
Definition array_index (k : string) : option N :=
  match k with
  | EmptyString => None
  | String c s' =>
      if Ascii.eqb c "0"%char && negb (String.eqb s' "") then None
      else match digits_value k 0 with
           | Some n => if (n <? 4294967295)%N then Some n else None
           | None => None
           end
  end.

Fixpoint obj_replace (kvs : list (string * value)) (k : string) (x : value)
  : list (string * value) :=
  match kvs with
  | [] => []
  | (k', y) :: rest =>
      if String.eqb k' k then (k, x) :: rest else (k', y) :: obj_replace rest k x
  end.

Fixpoint obj_insert_index (kvs : list (string * value)) (i : N) (k : string) (x : value)
  : list (string * value) :=
  match kvs with
  | [] => [(k, x)]
  | (k', y) :: rest =>
      match array_index k' with
      | Some j =>
          if (j <? i)%N then (k', y) :: obj_insert_index rest i k x
          else (k, x) :: (k', y) :: rest
      | None => (k, x) :: (k', y) :: rest
      end
  end.

(** The assignment [o[k] = x] on an object made by an object literal:
    - [__proto__] reaches the setter of [Object.prototype] and adds no own
      property;
    - an existing property keeps its place;
    - a new array index goes among the indices, in numeric order;
    - any other new name goes last. *)
Definition obj_set (kvs : list (string * value)) (k : string) (x : value)
  : list (string * value) :=
  if String.eqb k "__proto__" then kvs
  else if obj_has kvs k then obj_replace kvs k x
  else match array_index k with
       | Some i => obj_insert_index kvs i k x
       | None => kvs ++ [(k, x)]
       end.

(** [helper(v)] of [canonicalStringify].

    For an object the source runs
    [for (const k of Object.keys(v).sort()) out[k] = helper(v[k])];
    here [helper] is first applied to every property value and [v[k]] is
    read from the result, which is the same value ([helper_obj] below).

    The [seen] set of the source holds the objects already visited. A
    [value] is a tree, as [JSON.parse] and [clampPagination] build it: no
    object occurs twice in it, so the test [seen.has(v)] is never true and
    is left out. *)
Fixpoint helper (v : value) : value :=
  match v with
  | VArr xs => VArr (map helper xs)
  | VObj kvs =>
      let done := map (fun kx : string * value => (fst kx, helper (snd kx))) kvs in
      VObj (fold_left (fun out k => obj_set out k (obj_get done k))
                      (sort_keys (keys kvs)) [])
  | _ => v
  end.

(** One or two lower-case hexadecimal digits and so on: [b.toString(16)]. *)
Definition toString16 (b : N) : string :=
  HexadecimalString.NilZero.string_of_uint (N.to_hex_uint b).

(** [s.padStart(2, "0")] *)
Definition padStart2 (s : string) : string :=
  match String.length s with
  | 0%nat => "00"
  | 1%nat => "0" +:+ s
  | _ => s
  end.

Section Hashing.
Context `{Platform}.

(** [canonicalStringify(value)] *)
Definition canonicalStringify (v : value) : string :=
  JSON_stringify (helper v).

(** [sha256Hex(input)] *)
Definition sha256Hex (input : string) : string :=
  Str.join "" (map (fun b => padStart2 (toString16 b)) (SHA256 input)).

(** The cache key of a request: lines 124-130 of [fetch]. *)
Definition hashKeyOf (query : string) (variables : value) : string :=
  sha256Hex
    (canonicalStringify
       (VObj [("v", VNum (int 7)); ("query", VStr query); ("variables", variables)])).

End Hashing.

(* ================================================================== *)
(** ** HTTP data: headers, responses, requests *)
(* ================================================================== *)

(** A [Headers] object: header names are case-insensitive and kept in lower
    case. *)
Definition headers_set (k v : string) (h : gmap string string) : gmap string string :=
  <[Str.toLowerCase k := v]> h.

Definition headers_get (k : string) (h : gmap string string) : option string :=
  h !! Str.toLowerCase k.

Definition headers_delete (k : string) (h : gmap string string) : gmap string string :=
  delete (Str.toLowerCase k) h.

(** [new Headers(init)] and the [headers] of a [ResponseInit], from a record
    literal or from [Object.entries]. *)
Definition headers_from (h : gmap string string) (init : list (string * string))
  : gmap string string :=
  fold_left (fun acc kv => headers_set (fst kv) (snd kv) acc) init h.

(** A [Response] the worker builds or the cache holds: the body is [None]
    for [new Response(null, ...)]. *)
Record Response : Type := {
  res_status : Z;
  res_headers : gmap string string;
  res_body : option string;
}.

(** [await res.text()] on a response whose body is in memory. *)
Definition res_text (r : Response) : string :=
  match res_body r with Some s => s | None => "" end.

(** A parsed URL; the URL of an incoming request has no fragment. *)
Record URL : Type := {
  origin : string;
  pathname : string;
  search : string;
}.

(** [u.toString()] *)
Definition url_toString (u : URL) : string :=
  origin u +:+ pathname u +:+ search u.

(** A thrown value: an [Error] (a [TypeError], a [RangeError], a
    [DOMException], ...) with its [name] and its [message], or anything else
    with its string form. *)
Inductive exn : Type :=
| JsError (name message : string)
| JsThrown (str : string).

(** The outcome of an operation that may throw (or of a promise that may
    reject). *)
Inductive result (A : Type) : Type :=
| Ok (a : A)
| Throw (e : exn).
Arguments Ok {A} a.
Arguments Throw {A} e.

(** An incoming [Request]: [req_text] is what [await req.text()] gives. *)
Record Request : Type := {
  method : string;
  url : URL;
  req_headers : gmap string string;
  req_text : result string;
}.

(** [Env] *)
Record Env : Type := {
  SUBGRAPH_URL : string;   (* the empty string when the binding is missing *)
}.

(** The response of the upstream to a [fetch]. *)
Record Upstream : Type := {
  up_status : Z;
  up_content_type : option string;      (* [headers.get("content-type")] *)
  up_text : result string;              (* [await upstream.text()] *)
}.

(** [upstream.ok]: the status is in the range 200-299. *)
Definition up_ok (u : Upstream) : bool :=
  (200 <=? up_status u)%Z && (up_status u <=? 299)%Z.

(** What [fetchWithTimeout] settles to: a rejection (the abort of the timer
    rejects with [Error("timeout")], a network failure with another error)
    or a response. *)
Inductive FetchOutcome : Type :=
| Rejected (e : exn)
| Fetched (u : Upstream).

(** The surroundings of one run: the answer of the network to a POST of a
    body to a URL, and the faults of the Cache API by cache address. *)
Record World : Type := {
  net : string -> string -> FetchOutcome;
  match_fault : string -> option exn;
  put_fault : string -> option exn;
}.

(* ================================================================== *)
(** ** Effects: the cache and the upstream as state, exceptions *)
(* ================================================================== *)

(** A request sent to the upstream: a POST of [call_body] to [call_url]. *)
Record Call : Type := {
  call_url : string;
  call_body : string;
}.

(** What the worker acts on outside its isolate: [caches.default], a map
    from cache address (the URL of the synthetic GET request) to the stored
    response, and the upstream, of which the requests sent to it so far are
    kept, oldest first. *)
Record Outside : Type := {
  entries : gmap string Response;
  sent : list Call;
}.

(** The cache after [cache.put], and the upstream after one more request. *)
Definition stores (addr : string) (r : Response) (o : Outside) : Outside :=
  {| entries := <[addr := r]> (entries o); sent := sent o |}.

Definition sends (call : Call) (o : Outside) : Outside :=
  {| entries := entries o; sent := sent o ++ [call] |}.

(** A computation that acts on the cache and on the upstream and may
    throw. *)
Definition M (A : Type) : Type :=
  Outside -> result A * Outside.

Definition ret {A} (a : A) : M A := fun c => (Ok a, c).

Definition throw {A} (e : exn) : M A := fun c => (Throw e, c).

Definition bind {A B} (m : M A) (k : A -> M B) : M B :=
  fun c => match m c with
           | (Ok a, c') => k a c'
           | (Throw e, c') => (Throw e, c')
           end.

(** [try { m } catch (e) { h e }] *)
Definition try_catch {A} (m : M A) (h : exn -> M A) : M A :=
  fun c => match m c with
           | (Ok a, c') => (Ok a, c')
           | (Throw e, c') => h e c'
           end.

(** A settled promise or a throwing call, awaited. *)
Definition lift {A} (r : result A) : M A := fun c => (r, c).

Notation "'await' x <~ m ;; k" := (bind m (fun x => k))
  (at level 10, x name, m at level 99, k at level 200, only parsing).
Notation "'run' m ;; k" := (bind m (fun _ => k))
  (at level 10, m at level 99, k at level 200, only parsing).

(** [await cache.match(req)] *)
Definition cache_match (w : World) (addr : string) : M (option Response) :=
  fun c => match match_fault w addr with
           | Some e => (Throw e, c)
           | None => (Ok (entries c !! addr), c)
           end.

(** [await cache.put(req, res)] *)
Definition cache_put (w : World) (addr : string) (r : Response) : M unit :=
  fun c => match put_fault w addr with
           | Some e => (Throw e, c)
           | None => (Ok tt, stores addr r c)
           end.

(** [fetchWithTimeout(input, { method: "POST", ..., body }, ms)] is called:
    it runs up to its [await fetch(...)], so the request leaves for the
    upstream. *)
Definition fetch_sends (input body : string) (c : Outside) : Outside :=
  sends {| call_url := input; call_body := body |} c.

(** The promise of that call settles, and the world decides how. The timer
    is part of the world: its firing is a rejection. *)
Definition fetch_settles (w : World) (input body : string) : M Upstream :=
  fun c =>
    match net w input body with
    | Rejected e => (Throw e, c)
    | Fetched u => (Ok u, c)
    end.

(** [await fetchWithTimeout(input, { method: "POST", ..., body }, ms)] *)
Definition fetchWithTimeout (w : World) (input body : string) : M Upstream :=
  fun c => fetch_settles w input body (fetch_sends input body c).

(** [isAbortTimeout(e)]: the text tested is [e.message] of an error and
    the string form of another thrown value. *)
Definition isAbortTimeout (e : exn) : bool :=
  let msg := match e with JsError _ m => m | JsThrown s => s end in
  Str.includes (Str.toLowerCase msg) "timeout".

(** [e instanceof Error ? e.message : String(e)] *)
Definition error_message (e : exn) : string :=
  match e with JsError _ m => m | JsThrown s => s end.

(** [String(e)]: for an error, [Error.prototype.toString]. *)
Definition String_of_exn (e : exn) : string :=
  match e with
  | JsError name m =>
      if String.eqb name "" then m
      else if String.eqb m "" then name
      else name +:+ ": " +:+ m
  | JsThrown s => s
  end.

(* ================================================================== *)
(** ** Response builders, CORS *)
(* ================================================================== *)

Inductive XCache : Type :=
| HIT | MISS | COALESCED | BYPASS | COALESCED_BYPASS | BYPASS_WRITE.

Definition XCache_string (x : XCache) : string :=
  match x with
  | HIT => "HIT"
  | MISS => "MISS"
  | COALESCED => "COALESCED"
  | BYPASS => "BYPASS"
  | COALESCED_BYPASS => "COALESCED_BYPASS"
  | BYPASS_WRITE => "BYPASS_WRITE"
  end.

(** [InflightValue]: the plain data an in-flight promise resolves to. *)
Record InflightValue : Type := {
  status : Z;
  contentType : string;
  text : string;
  ok : bool;
}.

(** [o || d] for a string that may be [null]. *)
Definition or_default (o : option string) (d : string) : string :=
  match o with
  | Some s => if String.eqb s "" then d else s
  | None => d
  end.

(** [o ?? d] *)
Definition nullish (o : option string) (d : string) : string :=
  match o with Some s => s | None => d end.

(** [withCors(res)] *)
Definition withCors (res : Response) : Response :=
  let h0 := res_headers res in
  let h1 := headers_set "Access-Control-Allow-Origin" "*" h0 in
  let h2 := headers_set "Access-Control-Allow-Methods" "POST, OPTIONS, GET" h1 in
  let h3 := headers_set "Access-Control-Allow-Headers" "Content-Type, X-Force-Fresh" h2 in
  let h4 :=
    match headers_get "Vary" h3 with
    | Some vary =>
        if negb (String.eqb vary "") && Str.includes (Str.toLowerCase vary) "origin" then
          let cleaned :=
            Str.join ", "
              (List.filter (fun t => negb (String.eqb (Str.toLowerCase t) "origin"))
                           (map Str.trim (Str.split_comma vary))) in
          if negb (String.eqb cleaned "") then headers_set "Vary" cleaned h3
          else headers_delete "Vary" h3
        else h3
    | None => h3
    end in
  {| res_status := res_status res; res_headers := h4; res_body := res_body res |}.

(** [addHeaders(res, extra)] *)
Definition addHeaders (res : Response) (extra : list (string * string)) : Response :=
  {| res_status := res_status res;
     res_headers := headers_from (res_headers res) extra;
     res_body := res_body res |}.

(** [handleOptions(req)] *)
Definition handleOptions (req : Request) : Response :=
  let reqHeaders :=
    or_default (headers_get "Access-Control-Request-Headers" (req_headers req)) "content-type" in
  let reqMethod :=
    or_default (headers_get "Access-Control-Request-Method" (req_headers req)) "POST" in
  {| res_status := 204;
     res_headers :=
       headers_from ∅
         [("Access-Control-Allow-Origin", "*");
          ("Access-Control-Allow-Methods", "POST, OPTIONS, GET, " +:+ reqMethod);
          ("Access-Control-Allow-Headers", reqHeaders);
          ("Access-Control-Max-Age", "86400")];
     res_body := None |}.

(** [new Response(text, { status })] with no headers given and a status
    literal of the source (all of them within 200-599): the constructor adds
    the content type of a string body. *)
Definition plain (body : string) (st : Z) : Response :=
  {| res_status := st;
     res_headers := headers_from ∅ [("content-type", "text/plain;charset=UTF-8")];
     res_body := Some body |}.

Section Worker.
Context `{Platform}.

(** [cacheControlEdgeOnly(ttl)] *)
Definition cacheControlEdgeOnly (ttl : Z) : string :=
  "public, max-age=0, s-maxage=" +:+ String_of_number (int ttl)
  +:+ ", stale-while-revalidate=" +:+ String_of_number (int ttl).

(** [cacheControlMeta(ttl)] *)
Definition cacheControlMeta (ttl : Z) : string :=
  "public, max-age=0, s-maxage=" +:+ String_of_number (int ttl)
  +:+ ", stale-while-revalidate=" +:+ String_of_number (int (Z.min 30 ttl)).

(** [new Response(body, { status, headers })] with a status that is not a
    literal of the source: the constructor throws a [RangeError] unless the
    status lies within 200-599. (A status 204, 205 or 304 comes with an empty
    body, which the runtime of the worker accepts for it.) *)
Definition new_Response (body : string) (st : Z) (headers : list (string * string))
  : result Response :=
  if (200 <=? st)%Z && (st <=? 599)%Z then
    Ok {| res_status := st;
          res_headers := headers_from ∅ headers;
          res_body := Some body |}
  else Throw (JsError "RangeError" (Response_status_error st)).

(** [makeTextResponse(v, ttl, xCache)] *)
Definition makeTextResponse (v : InflightValue) (ttl : Z) (xCache : XCache)
  : result Response :=
  let cc := cacheControlEdgeOnly ttl in
  new_Response (text v) (status v)
    [("content-type", contentType v);
     ("Cache-Control", cc);
     ("CDN-Cache-Control", cc);
     ("X-Cache", XCache_string xCache)].

(** A response with a JSON body [{ error, message }]. *)
Definition error_response (st : Z) (error message : string) : Response :=
  {| res_status := st;
     res_headers := headers_from ∅ [("content-type", "application/json")];
     res_body :=
       Some (JSON_stringify (VObj [("error", VStr error); ("message", VStr message)])) |}.

(** The response of the outermost [catch] of [fetch] (lines 240-250). *)
Definition internal_error (e : exn) : Response :=
  withCors (error_response 500 "WORKER_INTERNAL_ERROR" (error_message e)).

(* ------------------------------------------------------------------ *)
(** *** Meta-guard *)
(* ------------------------------------------------------------------ *)

Definition FORCE_FRESH_HEADER : string := "x-force-fresh".
Definition META_CACHE_TTL_SECONDS : Z := 30 * 60.

(** [metaKeyUrlFrom("https://example.invalid/graphql", hashKey)]: the cache
    address of the progress record of a key. *)
Definition metaKeyUrlFrom (hashKey : string) : string :=
  url_toString
    {| origin := "https://example.invalid";
       pathname := "/__meta/" +:+ hashKey;
       search := "" |}.

(** The body of the [__Meta] probe. *)
Definition META_BODY : value :=
  VObj [("query", VStr "query __Meta { _meta { block { number } } }");
        ("variables", VObj []);
        ("operationName", VStr "__Meta")].

(** [parseMetaBlockFromJsonText(text)] *)
Definition parseMetaBlockFromJsonText (text : string) : option number :=
  match JSON_parse text with
  | None => None
  | Some j =>
      match get (get (get (get j "data") "_meta") "block") "number" with
      | VNum n => Some n
      | VStr n =>
          if negb (String.eqb (Str.trim n) "") then
            let k := Number_of_string n in
            if isFinite k then Some k else None
          else None
      | _ => None
      end
  end.

(** [fetchSubgraphMetaBlock(env)] *)
Definition fetchSubgraphMetaBlock (env : Env) (w : World) : M (option number) :=
  try_catch
    (await res <~ fetchWithTimeout w (SUBGRAPH_URL env) (JSON_stringify META_BODY);;
     await text <~ lift (up_text res);;
     if negb (up_ok res) then ret None
     else ret (parseMetaBlockFromJsonText text))
    (fun _ => ret None).

(** [shouldWriteThroughCacheMetaGuard(env, cache, hashKey)] *)
Definition shouldWriteThroughCacheMetaGuard (env : Env) (w : World) (hashKey : string)
  : M bool :=
  await newMeta <~ fetchSubgraphMetaBlock env w;;
  match newMeta with
  | None => ret false
  | Some newMeta =>
      let metaReq := metaKeyUrlFrom hashKey in
      await oldMeta <~
        try_catch
          (await cached <~ cache_match w metaReq;;
           match cached with
           | Some cached =>
               let n := Number_of_string (res_text cached) in
               if isFinite n then ret (Some n) else ret None
           | None => ret None
           end)
          (fun _ => ret None);;
      let regressed :=
        match oldMeta with
        | Some oldMeta => num_lt newMeta oldMeta
        | None => false
        end in
      if regressed then ret false
      else
        run try_catch
              (let cc := cacheControlMeta META_CACHE_TTL_SECONDS in
               let toStore :=
                 {| res_status := 200;
                    res_headers :=
                      headers_from ∅
                        [("content-type", "text/plain; charset=utf-8");
                         ("Cache-Control", cc);
                         ("CDN-Cache-Control", cc)];
                    res_body := Some (String_of_number newMeta) |} in
               cache_put w metaReq toStore)
              (fun _ => ret tt);;
        ret true
  end.


(* ------------------------------------------------------------------ *)
(** *** The request pipeline *)
(* ------------------------------------------------------------------ *)

(** What the handler has computed when it reaches the in-flight map: the
    constants [query], [variables] (clamped), [ttl], [hashKey], the address
    of [cacheReq] and [forceFresh] of [fetch]. *)
Record Prepared : Type := {
  query : string;
  variables : value;
  ttl : Z;
  hashKey : string;
  cacheReq : string;
  forceFresh : bool;
}.

(** [parsed && typeof parsed === "object" && "errors" in parsed]: objects
    and arrays pass the first two tests, and an array has no property
    [errors]. *)
Definition has_errors (parsed : value) : bool :=
  match parsed with
  | VObj kvs => obj_has kvs "errors"
  | _ => false
  end.

(** The flag [okToCache] after lines 189-197. *)
Definition okToCache (v : InflightValue) : bool :=
  if ok v && Str.includes (contentType v) "application/json" then
    match JSON_parse (text v) with
    | Some parsed => if has_errors parsed then false else true
    | None => false
    end
  else ok v.

(** [ctx.waitUntil(cache.put(cacheReq, toCache.clone()).catch(...))]: the
    write is applied where [cache.put] is called; a rejection is logged and
    dropped. *)
Definition waitUntil_put (w : World) (addr : string) (toCache : Response) : M unit :=
  try_catch (cache_put w addr toCache) (fun _ => ret tt).

(** The value of the outer [catch] of the in-flight promise (lines 220-230). *)
Definition failure_value (e : exn) : InflightValue :=
  {| status := if isAbortTimeout e then 504 else 502;
     contentType := "application/json";
     text :=
       JSON_stringify
         (VObj [("error",
                 VStr (if isAbortTimeout e then "UPSTREAM_TIMEOUT"
                       else "UPSTREAM_FETCH_FAILED"));
                ("message", VStr (error_message e))]);
     ok := false |}.

(** The body of the request to the upstream, [JSON.stringify({ query,
    variables })] (line 172). *)
Definition query_body (p : Prepared) : string :=
  JSON_stringify (VObj [("query", VStr (query p)); ("variables", variables p)]).

(** The body of the async function behind the in-flight promise [p]
    (lines 166-230), without its [finally], around [fetched], which stands
    for its call of [fetchWithTimeout]. *)
Definition work_on (fetched : M Upstream) (env : Env) (w : World) (p : Prepared)
  : M InflightValue :=
  try_catch
    (await upstream <~ fetched;;
     await text <~ lift (up_text upstream);;
     let ct := nullish (up_content_type upstream) "application/json" in
     let v := {| status := up_status upstream;
                 contentType := ct;
                 text := text;
                 ok := up_ok upstream |} in
     run (if okToCache v then
            if forceFresh p then
              await shouldWrite <~ shouldWriteThroughCacheMetaGuard env w (hashKey p);;
              if shouldWrite
              then
                await toCache <~ lift (makeTextResponse v (ttl p) BYPASS_WRITE);;
                waitUntil_put w (cacheReq p) toCache
              else ret tt
            else
              await toCache <~ lift (makeTextResponse v (ttl p) MISS);;
              waitUntil_put w (cacheReq p) toCache
          else ret tt);;
     ret v)
    (fun e => ret (failure_value e)).

(** The async function in one run, from its first line to its value. *)
Definition work (env : Env) (w : World) (p : Prepared) : M InflightValue :=
  work_on (fetchWithTimeout w (SUBGRAPH_URL env) (query_body p)) env w p.

(** The async function from the settling of its call of [fetchWithTimeout]
    on: the request left when the function started (line 167). *)
Definition work_answered (env : Env) (w : World) (p : Prepared) : M InflightValue :=
  work_on (fetch_settles w (SUBGRAPH_URL env) (query_body p)) env w p.

(** The [/meta] endpoint (lines 41-87). *)
Definition meta_endpoint (env : Env) (w : World) : M Response :=
  if String.eqb (SUBGRAPH_URL env) "" then
    ret (withCors (plain "Missing SUBGRAPH_URL" 500))
  else
    let ttl := 3%Z in
    let cc := cacheControlEdgeOnly ttl in
    try_catch
      (await upstream <~
         fetchWithTimeout w (SUBGRAPH_URL env) (JSON_stringify META_BODY);;
       await text <~ lift (up_text upstream);;
       let ct := nullish (up_content_type upstream) "application/json" in
       await res <~
         lift (new_Response text (up_status upstream)
                 [("content-type", ct);
                  ("Cache-Control", cc);
                  ("CDN-Cache-Control", cc);
                  ("X-Cache", "MISS")]);;
       ret (withCors res))
      (fun e =>
         ret (withCors
                (error_response (if isAbortTimeout e then 504 else 502)
                   "UPSTREAM_FETCH_FAILED" (String_of_exn e)))).

(** Where the handler stands when it reaches the in-flight map. *)
Inductive Step : Type :=
| Reply (r : Response)
| Proceed (p : Prepared).

(** [fetch] from its first line to the cache lookup (lines 31-156). *)
Definition to_inflight (env : Env) (w : World) (req : Request) : M Step :=
  if String.eqb (method req) "OPTIONS" then ret (Reply (handleOptions req))
  else
    let url := url req in
    if String.eqb (pathname url) "/health" then ret (Reply (withCors (plain "ok" 200)))
    else if String.eqb (pathname url) "/meta" then
      (await r <~ meta_endpoint env w;; ret (Reply r))
    else if negb (String.eqb (pathname url) "/graphql") then
      ret (Reply (withCors (plain "Not found" 404)))
    else if negb (String.eqb (method req) "POST") then
      ret (Reply (withCors (plain "Method not allowed" 405)))
    else if String.eqb (SUBGRAPH_URL env) "" then
      ret (Reply (withCors (plain "Missing SUBGRAPH_URL" 500)))
    else
      let forceFresh :=
        String.eqb
          (Str.trim (or_default (headers_get FORCE_FRESH_HEADER (req_headers req)) ""))
          "1" in
      await raw <~ lift (req_text req);;
      match (if String.eqb raw "" then Some (VObj []) else JSON_parse raw) with
      | None => ret (Reply (withCors (plain "Bad JSON" 400)))
      | Some body =>
          let query := match get body "query" with VStr q => q | _ => "" end in
          let variables :=
            match get body "variables" with
            | VObj kvs => VObj kvs
            | VArr xs => VArr xs
            | _ => VObj []
            end in
          if String.eqb query "" then ret (Reply (withCors (plain "Missing query" 400)))
          else if (60000 <? N.of_nat (String.length query))%N then
            ret (Reply (withCors (plain "Query too large" 413)))
          else
            let variables := clampPagination variables in
            let ttl := pickTtlSeconds query in
            let cc := cacheControlEdgeOnly ttl in
            let hashKey := hashKeyOf query variables in
            let cacheReq :=
              url_toString
                {| origin := origin url;
                   pathname := "/__cache/" +:+ hashKey;
                   search := "" |} in
            await hit <~
              (if negb forceFresh then
                 try_catch
                   (await cached <~ cache_match w cacheReq;;
                    match cached with
                    | Some cached =>
                        ret (Some (withCors
                                     (addHeaders cached
                                        [("Cache-Control", cc);
                                         ("CDN-Cache-Control", cc);
                                         ("X-Cache", "HIT")])))
                    | None => ret None
                    end)
                   (fun _ => ret None)
               else ret None);;
            match hit with
            | Some r => ret (Reply r)
            | None =>
                ret (Proceed {| query := query;
                                variables := variables;
                                ttl := ttl;
                                hashKey := hashKey;
                                cacheReq := cacheReq;
                                forceFresh := forceFresh |})
            end
      end.

(** [fetch] after the promise it awaits has settled (lines 161-163 and
    237-239, under the outer [catch]): the response built from the value,
    or the internal-error response when the promise rejected or the
    constructor of the response threw. *)
Definition fetch_resume (ttl : Z) (xCache : XCache) (settled : result InflightValue)
  : Response :=
  match settled with
  | Ok v =>
      match makeTextResponse v ttl xCache with
      | Ok res => withCors res
      | Throw e => internal_error e
      end
  | Throw e => internal_error e
  end.

End Worker.

(* ================================================================== *)
(** ** The isolate: the in-flight map and the handlers that share it *)
(* ================================================================== *)

(** What an invocation of [fetch] closed over when it got past the cache
    lookup, and with it the async function of the in-flight promise it may
    start. *)
Record Job : Type := {
  job_env : Env;
  job_prepared : Prepared;
}.

(** A handler suspended at [await existing] or [await p]. *)
Record Waiter : Type := {
  task : nat;          (* which invocation of [fetch] *)
  promise : nat;       (* the promise it awaits *)
  w_ttl : Z;
  w_xCache : XCache;   (* the tag of the response it will build *)
}.

(** One isolate and what lies outside it. [inflight] is the module-level
    [Map]; a promise is named by a number, and so is an invocation of
    [fetch]. [parked] holds the invocations that have done their cache
    lookup and have not yet resumed, [waiters] those suspended on an
    in-flight promise, and [replies] the response of every invocation that
    has returned. *)
Record Isolate : Type := {
  outside : Outside;
  inflight : gmap string nat;
  pending : gmap nat Job;
  parked : gmap nat Job;
  waiters : list Waiter;
  next_promise : nat;
  next_task : nat;
  replies : list (nat * Response);
}.

(** [caches.default], and the requests sent to the upstream so far. *)
Definition cache (s : Isolate) : gmap string Response := entries (outside s).
Definition calls (s : Isolate) : list Call := sent (outside s).

Definition boot : Isolate :=
  {| outside := {| entries := ∅; sent := [] |};
     inflight := ∅; pending := ∅; parked := ∅; waiters := [];
     next_promise := 0; next_task := 0; replies := [] |}.

(** What happens in an isolate. JavaScript runs a handler without
    interruption between two [await]s. Up to the cache lookup of line 144 a
    handler shares nothing with the others but the cache, which it reads
    once, there; after that [await] (for a forced-fresh request: after the
    [await] of the digest) it reads and writes the in-flight map in one run
    (lines 159-235, where the async function starts), and other handlers and
    promises may have run in between.
    - [Arrive]: an invocation of [fetch] runs up to its response or through
      its cache lookup, after which it is suspended;
    - [Reach]: the invocation, suspended after its cache lookup, resumes and
      runs up to its [await] on an in-flight promise; when it starts that
      promise, the async function runs up to its first [await], so its
      request leaves for the upstream;
    - [Settle]: the upstream call of a pending promise settles in the given
      world, the async function runs to its end, its [finally] runs and the
      handlers awaiting it resume;
    - [Evict]: the cache drops the entry at an address (its time is over,
      or the engine needs the room). *)
Inductive Event : Type :=
| Arrive (env : Env) (w : World) (req : Request)
| Reach (t : nat)
| Settle (pid : nat) (w : World)
| Evict (addr : string).

Section Isolate.
Context `{Platform}.

(** Lines 159-164 and 231-237 for the invocation [tid] that reached the
    map. *)
Definition single_flight (tid : nat) (env : Env) (p : Prepared) (s : Isolate) : Isolate :=
  match inflight s !! hashKey p with
  | Some existing =>
      {| outside := outside s;
         inflight := inflight s;
         pending := pending s;
         parked := parked s;
         waiters :=
           waiters s ++
           [{| task := tid; promise := existing; w_ttl := ttl p;
               w_xCache := if forceFresh p then COALESCED_BYPASS else COALESCED |}];
         next_promise := next_promise s;
         next_task := next_task s;
         replies := replies s |}
  | None =>
      let pid := next_promise s in
      {| outside := fetch_sends (SUBGRAPH_URL env) (query_body p) (outside s);
         inflight := <[hashKey p := pid]> (inflight s);
         pending := <[pid := {| job_env := env; job_prepared := p |}]> (pending s);
         parked := parked s;
         waiters :=
           waiters s ++
           [{| task := tid; promise := pid; w_ttl := ttl p;
               w_xCache := if forceFresh p then BYPASS else MISS |}];
         next_promise := S pid;
         next_task := next_task s;
         replies := replies s |}
  end.

(** An invocation that returns without awaiting an in-flight promise. *)
Definition returns (r : Response) (o : Outside) (s : Isolate) : Isolate :=
  {| outside := o;
     inflight := inflight s;
     pending := pending s;
     parked := parked s;
     waiters := waiters s;
     next_promise := next_promise s;
     next_task := S (next_task s);
     replies := replies s ++ [(next_task s, r)] |}.

(** An invocation that got past the cache lookup and is suspended there. *)
Definition parks (env : Env) (p : Prepared) (o : Outside) (s : Isolate) : Isolate :=
  {| outside := o;
     inflight := inflight s;
     pending := pending s;
     parked := <[next_task s := {| job_env := env; job_prepared := p |}]> (parked s);
     waiters := waiters s;
     next_promise := next_promise s;
     next_task := S (next_task s);
     replies := replies s |}.

(** The isolate without the suspended invocation [t]. *)
Definition unparks (t : nat) (s : Isolate) : Isolate :=
  {| outside := outside s;
     inflight := inflight s;
     pending := pending s;
     parked := delete t (parked s);
     waiters := waiters s;
     next_promise := next_promise s;
     next_task := next_task s;
     replies := replies s |}.

(** The isolate with what lies outside it as a computation left it. *)
Definition with_outside (o : Outside) (s : Isolate) : Isolate :=
  {| outside := o;
     inflight := inflight s;
     pending := pending s;
     parked := parked s;
     waiters := waiters s;
     next_promise := next_promise s;
     next_task := next_task s;
     replies := replies s |}.

(** The isolate with the given entries in its cache. *)
Definition with_cache (c : gmap string Response) (s : Isolate) : Isolate :=
  with_outside {| entries := c; sent := calls s |} s.

(** [fetch(req, env, ctx)] up to its response or to its suspension after
    the cache lookup, with the outer [try]/[catch]. *)
Definition fetch_start (env : Env) (w : World) (req : Request) (s : Isolate) : Isolate :=
  match to_inflight env w req (outside s) with
  | (Throw e, o) => returns (internal_error e) o s
  | (Ok (Reply r), o) => returns r o s
  | (Ok (Proceed p), o) => parks env p o s
  end.

(** The invocation [t] resumes after its cache lookup and reaches the
    in-flight map. Nothing happens when [t] is not suspended there. *)
Definition reach (t : nat) (s : Isolate) : Isolate :=
  match parked s !! t with
  | None => s
  | Some job => single_flight t (job_env job) (job_prepared job) (unparks t s)
  end.

(** The responses of the handlers that awaited promise [pid]. *)
Definition resumed (pid : nat) (settled : result InflightValue) (ws : list Waiter)
  : list (nat * Response) :=
  map (fun x => (task x, fetch_resume (w_ttl x) (w_xCache x) settled))
      (List.filter (fun x => Nat.eqb (promise x) pid) ws).

(** The call to the upstream of promise [pid] settles as the world has it,
    and the async function runs to its end; [.finally] deletes the slot of
    its key whether it resolved or rejected; the awaiting handlers resume.
    Nothing happens when [pid] is not pending. *)
Definition settle (pid : nat) (w : World) (s : Isolate) : Isolate :=
  match pending s !! pid with
  | None => s
  | Some job =>
      let (settled, o) := work_answered (job_env job) w (job_prepared job) (outside s) in
      {| outside := o;
         inflight := delete (hashKey (job_prepared job)) (inflight s);
         pending := delete pid (pending s);
         parked := parked s;
         waiters := List.filter (fun x => negb (Nat.eqb (promise x) pid)) (waiters s);
         next_promise := next_promise s;
         next_task := next_task s;
         replies := replies s ++ resumed pid settled (waiters s) |}
  end.

(** The cache without the entry at [addr]. *)
Definition evict (addr : string) (s : Isolate) : Isolate :=
  with_outside {| entries := delete addr (cache s); sent := calls s |} s.

Definition step (s : Isolate) (ev : Event) : Isolate :=
  match ev with
  | Arrive env w req => fetch_start env w req s
  | Reach t => reach t s
  | Settle pid w => settle pid w s
  | Evict addr => evict addr s
  end.

(** The isolate after a sequence of events, oldest first. *)
Definition run_events (s : Isolate) (evs : list Event) : Isolate :=
  fold_left step evs s.

End Isolate.

(* ================================================================== *)
(** ** Vocabulary of the statements *)
(* ================================================================== *)

(** A step into a value: a property of an object or an element of an
    array. *)
Inductive sel : Type :=
| Key (k : string)
| Idx (i : nat).

(** The value found by following a path from the root, at any depth. *)
Fixpoint at_path (p : list sel) (v : value) : option value :=
  match p with
  | [] => Some v
  | Key k :: p' =>
      match v with
      | VObj kvs => if obj_has kvs k then at_path p' (obj_get kvs k) else None
      | _ => None
      end
  | Idx i :: p' =>
      match v with
      | VArr xs =>
          match nth_error xs i with
          | Some x => at_path p' x
          | None => None
          end
      | _ => None
      end
  end.

(** [v] is an integer number within [lo, hi]. *)
Definition in_range (lo hi : Z) (v : value) : Prop :=
  exists z : Z, v = VNum (int z) /\ (lo <= z <= hi)%Z.

Section Vocabulary.
Context `{Platform}.

(** A [first] or [skip] value that is no usable number: a non-finite
    number, a string that is blank or that [Number] maps to no finite
    number, or a value that is neither (boolean, object, array, null). *)
Definition unusable (v : value) : Prop :=
  match v with
  | VNum n => isFinite n = false
  | VStr s => Str.trim s = "" \/ isFinite (Number_of_string s) = false
  | _ => True
  end.

(** How a node of the clamped tree relates to the node of the input at the
    same place: it is the walked node, or the number put in place of a
    [first] or [skip], or the truncated copy of a walked array. *)
Definition image (x y : value) : Prop :=
  y = walk x \/
  (exists n, y = VNum n) \/
  (exists xs, x = VArr xs /\ y = VArr (firstn 200 (map walk xs))).

(** The value found where the probe's answer should hold the block number
    is no usable counter: it is neither a number nor a string that reads as
    a finite number. *)
Definition no_counter (x : value) : Prop :=
  match x with
  | VNum _ => False
  | VStr s => Str.trim s = "" \/ isFinite (Number_of_string s) = false
  | _ => True
  end.

(** The progress probe fails (the call rejects, the body cannot be read,
    the status is not a success) or yields no usable counter (the body is
    no JSON, or [data._meta.block.number] is [no_counter]). *)
Definition probe_unusable (env : Env) (w : World) : Prop :=
  match net w (SUBGRAPH_URL env) (JSON_stringify META_BODY) with
  | Rejected _ => True
  | Fetched m =>
      up_ok m = false \/
      match up_text m with
      | Throw _ => True
      | Ok t =>
          match JSON_parse t with
          | None => True
          | Some j =>
              no_counter (get (get (get (get j "data") "_meta") "block") "number")
          end
      end
  end.

End Vocabulary.

(** [text] occurs in [q], letter case apart. *)
Definition mentions (q text : string) : Prop :=
  exists pre post : string,
    Str.toLowerCase q = pre +:+ Str.toLowerCase text +:+ post.

(** The rules of the TTL policy by what their patterns spell, in the order
    of the source. *)
Definition hot (q : string) : Prop :=
  mentions q "query GlobalFeed" \/ mentions q "_meta" \/ mentions q "query __Meta".

Definition homepage (q : string) : Prop :=
  mentions q "query GlobalStats" \/ mentions q "query HomeLotteries".

Definition detail (q : string) : Prop :=
  mentions q "query LotteryById" \/ mentions q "query UserLotteriesByUser" \/
  mentions q "query UserLotteriesByLottery".

Definition filtered (q : string) : Prop :=
  mentions q "query LotteriesByCreator" \/ mentions q "query LotteriesByFeeRecipient".

(** Every object of the value has pairwise distinct keys: what an object
    is. *)
Fixpoint wf_value (v : value) : Prop :=
  match v with
  | VArr xs => fold_right (fun x acc => wf_value x /\ acc) True xs
  | VObj kvs =>
      NoDup (keys kvs) /\
      fold_right (fun kx acc => wf_value (snd kx) /\ acc) True kvs
  | _ => True
  end.

(** [key_perm v v']: [v'] is [v] with the properties of some of its objects,
    at any depth, listed in another order. *)
Inductive key_perm : value -> value -> Prop :=
| kp_undefined : key_perm VUndefined VUndefined
| kp_null : key_perm VNull VNull
| kp_bool b : key_perm (VBool b) (VBool b)
| kp_num n : key_perm (VNum n) (VNum n)
| kp_str s : key_perm (VStr s) (VStr s)
| kp_arr xs ys : key_perm_elems xs ys -> key_perm (VArr xs) (VArr ys)
| kp_obj kvs mid kvs' :
    key_perm_props kvs mid -> Permutation mid kvs' ->
    key_perm (VObj kvs) (VObj kvs')
with key_perm_elems : list value -> list value -> Prop :=
| kpe_nil : key_perm_elems [] []
| kpe_cons x y xs ys :
    key_perm x y -> key_perm_elems xs ys -> key_perm_elems (x :: xs) (y :: ys)
with key_perm_props : list (string * value) -> list (string * value) -> Prop :=
| kpp_nil : key_perm_props [] []
| kpp_cons k x y kvs kvs' :
    key_perm x y -> key_perm_props kvs kvs' ->
    key_perm_props ((k, x) :: kvs) ((k, y) :: kvs').

Scheme key_perm_mind := Induction for key_perm Sort Prop
  with key_perm_elems_mind := Induction for key_perm_elems Sort Prop
  with key_perm_props_mind := Induction for key_perm_props Sort Prop.

Combined Scheme key_perm_mutind
  from key_perm_mind, key_perm_elems_mind, key_perm_props_mind.

Section IsolateVocabulary.
Context `{Platform}.


(** The event is an invocation that reaches the in-flight map with key [k]:
    its request was valid, and it was forced fresh or missed the cache. *)
Definition requests_key (k : string) (s : Isolate) (ev : Event) : bool :=
  match ev with
  | Reach t =>
      match parked s !! t with
      | Some job => String.eqb (hashKey (job_prepared job)) k
      | None => false
      end
  | _ => false
  end.



(** The state of an isolate some events after its start. *)
Definition reachable (s : Isolate) : Prop :=
  exists evs, s = run_events boot evs.

(** The upstream query call of a prepared request. *)
Definition query_call (env : Env) (p : Prepared) : Call :=
  {| call_url := SUBGRAPH_URL env; call_body := query_body p |}.

(** The [__Meta] call of the guard and of the [/meta] endpoint. *)
Definition meta_call (env : Env) : Call :=
  {| call_url := SUBGRAPH_URL env; call_body := JSON_stringify META_BODY |}.

(** The in-flight value made from an upstream response whose body reads as
    [t] (lines 178-186). *)
Definition value_of (u : Upstream) (t : string) : InflightValue :=
  {| status := up_status u;
     contentType := nullish (up_content_type u) "application/json";
     text := t;
     ok := up_ok u |}.

(** The async function of a forced-fresh request consults the guard: the
    upstream answered, its body was read, and the outcome passed the
    cacheability test. *)
Definition consults_guard (env : Env) (w : World) (p : Prepared) : bool :=
  forceFresh p &&
  match net w (SUBGRAPH_URL env) (query_body p) with
  | Fetched u =>
      match up_text u with
      | Ok t => okToCache (value_of u t)
      | Throw _ => false
      end
  | Rejected _ => false
  end.

(** The requests that the async function of a promise sends to the
    upstream: the query call when it starts, and the [__Meta] call of the
    guard when it is consulted. *)
Definition probe_calls (env : Env) (w : World) (p : Prepared) : list Call :=
  if consults_guard env w p then [meta_call env] else [].

Definition work_calls (env : Env) (w : World) (p : Prepared) : list Call :=
  query_call env p :: probe_calls env w p.

(** What every reachable state satisfies: a slot of the in-flight map names
    a pending promise of that key, a pending promise holds the slot of its
    key, promise numbers are fresh, and a suspended handler awaits a
    pending promise. *)
Record consistent (s : Isolate) : Prop := {
  slot_pending :
    forall k pid, inflight s !! k = Some pid ->
      exists job, pending s !! pid = Some job /\ hashKey (job_prepared job) = k;
  pending_slot :
    forall pid job, pending s !! pid = Some job ->
      inflight s !! hashKey (job_prepared job) = Some pid;
  pending_fresh :
    forall pid, is_Some (pending s !! pid) -> (pid < next_promise s)%nat;
  waiters_pending :
    forall x, x ∈ waiters s -> is_Some (pending s !! promise x);
}.

(** No invocation is lost: each one has returned a response, is suspended
    after its cache lookup, or is suspended on a promise. *)
Definition accounted (s : Isolate) : Prop :=
  forall t, (t < next_task s)%nat ->
    (exists r, (t, r) ∈ replies s) \/
    is_Some (parked s !! t) \/
    (exists x, x ∈ waiters s /\ task x = t).

End IsolateVocabulary.

(* ================================================================== *)
(** ** A platform to run the definitions on

    Enough of a runtime to evaluate the worker on the documents of the
    examples below: numbers print and parse as decimal integers, the
    serializer covers the values of the examples, the parser inverts it on
    a finite set of documents, and the digest is the identity on bytes. *)
(* ================================================================== *)

Module Demo.

Definition quote : string := String (ascii_of_nat 34) EmptyString.

Definition dec (z : Z) : string :=
  DecimalString.NilZero.string_of_int (Z.to_int z).

Definition print_number (n : number) : string :=
  match n with
  | Fin q =>
      if Pos.eqb (Qden q) 1 then dec (Qnum q)
      else dec (Qnum q) +:+ "/" +:+ dec (Z.pos (Qden q))
  | PInf => "Infinity"
  | NInf => "-Infinity"
  | NaN => "NaN"
  end.

Definition read_number (s : string) : number :=
  let t := Str.trim s in
  if String.eqb t "" then int 0
  else if String.eqb t "Infinity" then PInf
  else if String.eqb t "-Infinity" then NInf
  else if String.eqb t "-" then NaN
  else match DecimalString.NilZero.int_of_string t with
       | Some d => int (Z.of_int d)
       | None => NaN
       end.

Fixpoint escape (s : string) : string :=
  match s with
  | EmptyString => EmptyString
  | String c s' =>
      if Ascii.eqb c (ascii_of_nat 34) || Ascii.eqb c (ascii_of_nat 92)
      then String (ascii_of_nat 92) (String c (escape s'))
      else String c (escape s')
  end.

Definition quoted (s : string) : string := quote +:+ escape s +:+ quote.

Fixpoint stringify (v : value) : string :=
  match v with
  | VUndefined | VNull => "null"
  | VBool true => "true"
  | VBool false => "false"
  | VNum (Fin q) => print_number (Fin q)
  | VNum _ => "null"
  | VStr s => quoted s
  | VArr xs => "[" +:+ Str.join "," (map stringify xs) +:+ "]"
  | VObj kvs =>
      "{" +:+
      Str.join ","
        (flat_map (fun kx : string * value =>
                     match snd kx with
                     | VUndefined => []
                     | _ => [quoted (fst kx) +:+ ":" +:+ stringify (snd kx)]
                     end) kvs)
      +:+ "}"
  end.

(** The answer of the upstream to the [__Meta] probe at a block. *)
Definition meta_doc (block : Z) : value :=
  VObj [("data",
         VObj [("_meta", VObj [("block", VObj [("number", VNum (int block))])])])].

(** A GraphQL result, and one that carries [errors]. *)
Definition data_doc : value :=
  VObj [("data", VObj [("lottery", VObj [("id", VStr "42")])])].

Definition errors_doc : value :=
  VObj [("errors", VArr [VObj [("message", VStr "indexing_error")]])].

(** Request bodies. *)
Definition body_doc (variables : value) : value :=
  VObj [("query", VStr "query LotteryById($id: ID!){ lottery(id: $id) { id } }");
        ("variables", variables)].

Definition vars_a : value :=
  VObj [("id", VStr "42"); ("first", VStr "9999")].

Definition vars_b : value :=
  VObj [("first", VStr "9999"); ("id", VStr "42")].

Definition docs : list value :=
  [meta_doc 100; meta_doc 105; meta_doc 90; data_doc; errors_doc;
   body_doc vars_a; body_doc vars_b].

Definition parse (s : string) : option value :=
  List.find (fun v => String.eqb (stringify v) s) docs.

Definition digest (s : string) : list N :=
  map N_of_ascii (list_ascii_of_string s).

#[export] Instance platform : Platform :=
  {| JSON_parse := parse;
     JSON_stringify := stringify;
     Number_of_string := read_number;
     String_of_number := print_number;
     SHA256 := digest;
     Response_status_error := fun _ =>
       "Responses may only be constructed with status codes in the range 200 to 599, inclusive." |}.

Definition env : Env := {| SUBGRAPH_URL := "https://indexer.example/subgraph" |}.

(** A world without cache faults, in which the upstream answers the
    [__Meta] probe with [probe] and any other body with [answer]. *)
Definition world (answer probe : FetchOutcome) : World :=
  {| net := fun _ body =>
              if String.eqb body (stringify META_BODY) then probe else answer;
     match_fault := fun _ => None;
     put_fault := fun _ => None |}.

(** A 200 response with a JSON document. *)
Definition json_ok (doc : value) : FetchOutcome :=
  Fetched {| up_status := 200;
             up_content_type := Some "application/json";
             up_text := Ok (stringify doc) |}.

(** A progress record as the guard stores it. *)
Definition record (block : Z) : Response :=
  {| res_status := 200;
     res_headers := headers_from ∅ [("content-type", "text/plain; charset=utf-8")];
     res_body := Some (print_number (int block)) |}.

(** A forced-fresh request for the document [body_doc vars_a]. *)
Definition prepared (force : bool) : Prepared :=
  let vars := clampPagination vars_a in
  let q := "query LotteryById($id: ID!){ lottery(id: $id) { id } }" in
  {| query := q;
     variables := vars;
     ttl := pickTtlSeconds q;
     hashKey := hashKeyOf q vars;
     cacheReq := "https://edge.example/__cache/" +:+ hashKeyOf q vars;
     forceFresh := force |}.

Definition request (force : bool) (search : string) : Request :=
  {| method := "POST";
     url := {| origin := "https://edge.example"; pathname := "/graphql"; search := search |};
     req_headers := if force then headers_from ∅ [("X-Force-Fresh", "1")] else ∅;
     req_text := Ok (stringify (body_doc vars_a)) |}.

(** Worlds in which the upstream is at block 100, at block 90, and answers
    with a GraphQL error. *)
Definition w100 : World := world (json_ok data_doc) (json_ok (meta_doc 100)).
Definition w90 : World := world (json_ok data_doc) (json_ok (meta_doc 90)).
Definition werr : World := world (json_ok errors_doc) (json_ok (meta_doc 100)).

(** A world in which the call to the upstream times out. *)
Definition wtimeout : World :=
  world (Rejected (JsError "Error" "timeout")) (Rejected (JsError "Error" "timeout")).

(** A world in which the upstream answers a query with the given status,
    content type and document. *)
Definition wgives (st : Z) (ct : string) (doc : value) : World :=
  world (Fetched {| up_status := st;
                    up_content_type := Some ct;
                    up_text := Ok (stringify doc) |})
        (json_ok (meta_doc 100)).

(** An isolate whose cache holds the given entries. *)
Definition holding (c : gmap string Response) : Isolate := with_cache c boot.

(** What lies outside a fresh isolate whose cache holds the given
    entries. *)
Definition around (c : gmap string Response) : Outside :=
  {| entries := c; sent := [] |}.

(** The [X-Cache] tags of the responses returned so far, by task. *)
Definition tags (s : Isolate) : list (nat * option string) :=
  map (fun tr => (fst tr, headers_get "X-Cache" (res_headers (snd tr)))) (replies s).

End Demo.

(** * Vocabulary of the further properties

    Predicates over requests, caches and isolate states in which the
    properties beyond the specification's sentences are stated. *)

(** [forceFresh] as [fetch] computes it (line 100): the header
    [x-force-fresh], trimmed, is "1". *)
Definition wants_fresh (req : Request) : bool :=
  String.eqb
    (Str.trim (or_default (headers_get FORCE_FRESH_HEADER (req_headers req)) ""))
    "1".

Section RequestVocabulary.
Context `{Platform}.

(** The request passes the checks of lines 90-115: it is a POST to
    [/graphql], the upstream is configured, and its body parses to a value
    whose [query] is a string of 1 to 60000 code units; [vars] is what the
    handler takes for its variables (line 112). *)
Definition accepted (env : Env) (req : Request) (q : string) (vars : value) : Prop :=
  method req = "POST" /\
  pathname (url req) = "/graphql" /\
  SUBGRAPH_URL env <> "" /\
  exists raw body,
    req_text req = Ok raw /\ raw <> "" /\ JSON_parse raw = Some body /\
    get body "query" = VStr q /\ q <> "" /\ (N.of_nat (String.length q) <= 60000)%N /\
    vars = match get body "variables" with
           | VObj kvs => VObj kvs
           | VArr xs => VArr xs
           | _ => VObj []
           end.

(** What the handler of such a request has computed when it reaches the
    cache lookup (lines 118-137). *)
Definition prepare (req : Request) (q : string) (vars : value) : Prepared :=
  let variables := clampPagination vars in
  let hashKey := hashKeyOf q variables in
  {| query := q;
     variables := variables;
     ttl := pickTtlSeconds q;
     hashKey := hashKey;
     cacheReq :=
       url_toString
         {| origin := origin (url req);
            pathname := "/__cache/" +:+ hashKey;
            search := "" |};
     forceFresh := wants_fresh req |}.

(** The response of a cache hit (lines 146-151). *)
Definition hit_response (q : string) (cached : Response) : Response :=
  let cc := cacheControlEdgeOnly (pickTtlSeconds q) in
  withCors
    (addHeaders cached
       [("Cache-Control", cc); ("CDN-Cache-Control", cc); ("X-Cache", "HIT")]).

End RequestVocabulary.

Section WorkVocabulary.
Context `{Platform}.

(** The progress record the guard stores for the counter [n]
    (lines 484-492). *)
Definition meta_record (n : number) : Response :=
  let cc := cacheControlMeta META_CACHE_TTL_SECONDS in
  {| res_status := 200;
     res_headers :=
       headers_from ∅
         [("content-type", "text/plain; charset=utf-8");
          ("Cache-Control", cc);
          ("CDN-Cache-Control", cc)];
     res_body := Some (String_of_number n) |}.

(** The counter the guard reads from the cache for a key (lines 469-479):
    none when the lookup throws, finds nothing, or finds a text that is no
    finite number. *)
Definition recorded (w : World) (key : string) (c : gmap string Response) : option number :=
  match match_fault w (metaKeyUrlFrom key) with
  | Some _ => None
  | None =>
      match c !! metaKeyUrlFrom key with
      | Some cached =>
          let n := Number_of_string (res_text cached) in
          if isFinite n then Some n else None
      | None => None
      end
  end.

(** What the [__Meta] probe of the guard yields in a world (lines
    439-461): the block number, or nothing. *)
Definition probed (env : Env) (w : World) : option number :=
  match net w (SUBGRAPH_URL env) (JSON_stringify META_BODY) with
  | Rejected _ => None
  | Fetched res =>
      match up_text res with
      | Throw _ => None
      | Ok text => if up_ok res then parseMetaBlockFromJsonText text else None
      end
  end.

End WorkVocabulary.

(** The response has a success status. *)
Definition success (r : Response) : Prop := (200 <= res_status r <= 299)%Z.

(** The response has a status that the constructor of [Response]
    accepts. *)
Definition constructible (r : Response) : Prop := (200 <= res_status r <= 599)%Z.

(** The event resumes a suspended handler or settles a promise in the world
    [w]. *)
Definition resumes_in (w : World) (ev : Event) : Prop :=
  (exists t, ev = Reach t) \/ (exists pid, ev = Settle pid w).

(** What holds of the cache and of the responses in every reachable state:
    the cache holds success responses only, a response tagged HIT has a
    success status, every response has a status the constructor accepts,
    and no suspended handler will tag its response HIT. *)
Definition cache_sound (s : Isolate) : Prop :=
  (forall addr r, cache s !! addr = Some r -> success r) /\
  (forall t r, (t, r) ∈ replies s ->
     headers_get "X-Cache" (res_headers r) = Some "HIT" -> success r) /\
  (forall t r, (t, r) ∈ replies s -> constructible r) /\
  (forall x, x ∈ waiters s -> w_xCache x <> HIT).

(** The property [k] of an object holds a value that [clampPagination]
    accepts as it is: an integer from 1 to 200 under [first], an integer
    from 0 to 100000 under [skip], and under an [ids] key no array of more
    than 200 elements. *)
Definition within_prop (k : string) (x : value) : Prop :=
  if String.eqb k "first" then in_range 1 200 x
  else if String.eqb k "skip" then in_range 0 100000 x
  else if is_ids_key k
       then match x with VArr xs => (length xs <= 200)%nat | _ => True end
       else True.

(** [v] needs no clamping, at any depth. A value under [first] or [skip] is
    replaced as a whole, so nothing is asked of what lies below it. *)
Fixpoint within_limits (v : value) : Prop :=
  match v with
  | VArr xs => fold_right (fun x acc => within_limits x /\ acc) True xs
  | VObj kvs =>
      fold_right
        (fun kx acc =>
           (within_prop (fst kx) (snd kx) /\
            (String.eqb (fst kx) "first" || String.eqb (fst kx) "skip" = false ->
             within_limits (snd kx))) /\ acc)
        True kvs
  | _ => True
  end.

(** The code unit [c] does not occur in the string. *)
Fixpoint lacks (c : ascii) (s : string) : Prop :=
  match s with
  | EmptyString => True
  | String d s' => d <> c /\ lacks c s'
  end.

(** The field names a [Vary] value lists: its comma-separated parts,
    trimmed, in lower case. *)
Definition vary_tokens (v : string) : list string :=
  map (fun t => Str.toLowerCase (Str.trim t)) (Str.split_comma v).

(** The value of a lower-case hexadecimal digit. *)
Definition hex_digit (c : ascii) : option N :=
  let n := N_of_ascii c in
  if (48 <=? n)%N && (n <=? 57)%N then Some (n - 48)%N
  else if (97 <=? n)%N && (n <=? 102)%N then Some (n - 87)%N
  else None.

(** The bytes a string of lower-case hexadecimal digit pairs spells. *)
Fixpoint bytes_of_hex (s : string) : option (list N) :=
  match s with
  | EmptyString => Some []
  | String a (String b rest) =>
      match hex_digit a, hex_digit b, bytes_of_hex rest with
      | Some x, Some y, Some bs => Some ((16 * x + y)%N :: bs)
      | _, _, _ => None
      end
  | String _ EmptyString => None
  end.

(** Every byte of the list is below 256. *)
Definition octets (bs : list N) : Prop := Forall (fun b => (b < 256)%N) bs.


(** The string up to its last slash and the string after it. *)
Fixpoint split_last_slash (s : string) : option (string * string) :=
  match s with
  | EmptyString => None
  | String c s' =>
      match split_last_slash s' with
      | Some (d, b) => Some (String c d, b)
      | None => if Ascii.eqb c "/" then Some (EmptyString, s') else None
      end
  end.

(** The two digits of a byte, as [sha256Hex] writes them. *)
Definition hex2 (b : N) : string := padStart2 (toString16 b).

Definition all_bytes : list N := map N.of_nat (seq 0 256).

Section ProvenanceVocabulary.
Context `{Platform}.

(** The request is the [__Meta] request of the [/meta] endpoint: any method
    but OPTIONS, with the upstream configured. *)
Definition meta_request (env : Env) (req : Request) : bool :=
  negb (String.eqb (method req) "OPTIONS") &&
  String.eqb (pathname (url req)) "/meta" &&
  negb (String.eqb (SUBGRAPH_URL env) "").

(** The requests an event sends to the upstream. *)
Definition calls_of (s : Isolate) (ev : Event) : list Call :=
  match ev with
  | Arrive env w req => if meta_request env req then [meta_call env] else []
  | Reach t =>
      match parked s !! t with
      | Some job =>
          match inflight s !! hashKey (job_prepared job) with
          | Some _ => []
          | None => [query_call (job_env job) (job_prepared job)]
          end
      | None => []
      end
  | Settle pid w =>
      match pending s !! pid with
      | Some job => probe_calls (job_env job) w (job_prepared job)
      | None => []
      end
  | Evict _ => []
  end.

(** During the events [evs] an invocation of [fetch], the one numbered [t],
    got a request that was accepted and got past the cache lookup as [p]: it
    was forced fresh, or the lookup failed, or the cache held no entry at
    its address then. *)
Definition admitted (evs : list Event) (env : Env) (p : Prepared) (t : nat) : Prop :=
  exists before w req after q vars,
    evs = before ++ Arrive env w req :: after /\
    next_task (run_events boot before) = t /\
    accepted env req q vars /\
    p = prepare req q vars /\
    (wants_fresh req = true \/
     is_Some (match_fault w (cacheReq p)) \/
     cache (run_events boot before) !! cacheReq p = None).

(** During the events [evs] the suspended invocation of an admitted request
    resumed while the in-flight map had no slot for its key, and started
    the promise [pid]. *)
Definition launched (evs : list Event) (env : Env) (p : Prepared) (pid : nat) : Prop :=
  exists before t after,
    evs = before ++ Reach t :: after /\
    admitted before env p t /\
    parked (run_events boot before) !! t = Some {| job_env := env; job_prepared := p |} /\
    inflight (run_events boot before) !! hashKey p = None /\
    next_promise (run_events boot before) = pid.

(** During the events [evs] the promise [pid], launched for the request
    [p], settled in the world [w]. *)
Definition settled_in (evs : list Event) (env : Env) (p : Prepared) (pid : nat) (w : World)
  : Prop :=
  exists before after,
    evs = before ++ Settle pid w :: after /\
    launched before env p pid /\
    pending (run_events boot before) !! pid = Some {| job_env := env; job_prepared := p |}.

(** The response was built, during the events [evs], for the cache address
    [addr]: a promise launched for a request with that address settled in a
    world in which the upstream answered the query call of that request with
    a response that passed the cacheability test, and [r] is the response
    built from that answer. *)
Definition fetched_for (evs : list Event) (addr : string) (r : Response) : Prop :=
  exists env p pid w u body tag,
    settled_in evs env p pid w /\
    cacheReq p = addr /\
    net w (SUBGRAPH_URL env) (query_body p) = Fetched u /\
    up_text u = Ok body /\
    okToCache (value_of u body) = true /\
    makeTextResponse (value_of u body) (ttl p) tag = Ok r.

(** Where a request sent to the upstream comes from: the [/meta] endpoint,
    the probe of the guard in a promise that settled, or the query of a
    promise that was launched. *)
Definition explained (evs : list Event) (call : Call) : Prop :=
  (exists env w req,
      In (Arrive env w req) evs /\ meta_request env req = true /\ call = meta_call env) \/
  (exists env p pid w,
      settled_in evs env p pid w /\ consults_guard env w p = true /\ call = meta_call env) \/
  (exists env p pid,
      launched evs env p pid /\ call = query_call env p).

(** What holds after the events [evs] from the start of an isolate: a
    suspended invocation is that of an admitted request, a pending promise
    was launched for its request, and every request sent to the upstream is
    explained. *)
Definition traced (evs : list Event) : Prop :=
  let s := run_events boot evs in
  (forall t job, parked s !! t = Some job -> admitted evs (job_env job) (job_prepared job) t) /\
  (forall pid job,
      pending s !! pid = Some job -> launched evs (job_env job) (job_prepared job) pid) /\
  (forall call, In call (calls s) -> explained evs call).

(** A cache entry was fetched for its address, unless it lies at the record
    address of a key. *)
Definition stored_traced (evs : list Event) : Prop :=
  forall addr r,
    cache (run_events boot evs) !! addr = Some r ->
    (exists q vars, addr = metaKeyUrlFrom (hashKeyOf q vars)) \/ fetched_for evs addr r.

(** A response tagged HIT is the hit response of the entry that the cache
    held at the address of its request when the request arrived. *)
Definition hits_traced (evs : list Event) : Prop :=
  forall t r,
    (t, r) ∈ replies (run_events boot evs) ->
    headers_get "X-Cache" (res_headers r) = Some "HIT" ->
    exists before env w req after q vars stored,
      evs = before ++ Arrive env w req :: after /\
      next_task (run_events boot before) = t /\
      accepted env req q vars /\
      wants_fresh req = false /\
      match_fault w (cacheReq (prepare req q vars)) = None /\
      cache (run_events boot before) !! cacheReq (prepare req q vars) = Some stored /\
      r = hit_response q stored.

End ProvenanceVocabulary.

(** The properties of an object other than [__proto__]. *)
Definition without_proto (kvs : list (string * value)) : list (string * value) :=
  List.filter (fun kx => negb (String.eqb (fst kx) "__proto__")) kvs.

(** No object of the value, at any depth, has a property named
    [__proto__]. *)
Fixpoint proto_free (v : value) : Prop :=
  match v with
  | VArr xs => fold_right (fun x acc => proto_free x /\ acc) True xs
  | VObj kvs =>
      ~ In "__proto__" (keys kvs) /\
      fold_right (fun kx acc => proto_free (snd kx) /\ acc) True kvs
  | _ => True
  end.

(* ================================================================== *)
(** ** Tactics *)
(* ================================================================== *)

(** Evaluates [toLowerCase] on the string literals of the goal. *)
Ltac lower_literals :=
  repeat match goal with
         | |- context [Str.toLowerCase (String ?c ?s)] =>
             let r := eval vm_compute in (Str.toLowerCase (String c s)) in
             change (Str.toLowerCase (String c s)) with r
         end.

(** Unfolds the monad of the effects. *)
Ltac unfold_monad :=
  unfold bind, try_catch, ret, throw, lift, cache_match, cache_put,
         fetchWithTimeout, fetch_settles, fetch_sends, waitUntil_put in *.

Ltac mred := repeat progress (unfold_monad; cbv beta iota zeta).

(** Evaluates the comparisons of string literals in the goal. *)
Ltac eqb_literals :=
  repeat match goal with
         | |- context [String.eqb ?a ?b] =>
             let r := eval vm_compute in (String.eqb a b) in
             match r with true => idtac | false => idtac end;
             change (String.eqb a b) with r
         end.

(* ================================================================== *)
(** * Properties *)
(* ================================================================== *)

(** ** Strings *)

Lemma str_app_cons (c : ascii) (s t : string) :
  String c s +:+ t = String c (s +:+ t).
Proof. reflexivity. Qed.

Lemma str_app_nil (t : string) : EmptyString +:+ t = t.
Proof. reflexivity. Qed.

Lemma str_app_assoc (a b c : string) : (a +:+ b) +:+ c = a +:+ (b +:+ c).
Proof.
  induction a as [|x a IH]; [reflexivity|].
  rewrite !str_app_cons, IH. reflexivity.
Qed.

Lemma startsWith_spec (s p : string) :
  Str.startsWith s p = true <-> exists post, s = p +:+ post.
Proof.
  revert s. induction p as [|a p IH]; intros s.
  - simpl. split; [intros _; exists s; reflexivity | reflexivity].
  - destruct s as [|b s]; simpl.
    + split; [discriminate | intros [post Hp]; discriminate].
    + rewrite andb_true_iff, IH. split.
      * intros [Hab [post ->]]. apply Ascii.eqb_eq in Hab. subst b.
        exists post. reflexivity.
      * intros [post Hp]. rewrite str_app_cons in Hp. injection Hp as -> ->.
        split; [apply Ascii.eqb_refl | exists post; reflexivity].
Qed.

Lemma includes_startsWith (s p : string) :
  Str.startsWith s p = true -> Str.includes s p = true.
Proof. intros Hs. destruct s; simpl; rewrite Hs; reflexivity. Qed.

Lemma includes_spec (s p : string) :
  Str.includes s p = true <-> exists pre post, s = pre +:+ p +:+ post.
Proof.
  split.
  - induction s as [|c s IH]; simpl; rewrite orb_true_iff.
    + intros [Hs | Hf]; [|discriminate].
      apply startsWith_spec in Hs as [post Hs]. exists EmptyString, post. exact Hs.
    + intros [Hs | Hi].
      * apply startsWith_spec in Hs as [post Hs]. exists EmptyString, post. exact Hs.
      * destruct (IH Hi) as (pre & post & ->).
        exists (String c pre), post. reflexivity.
  - intros (pre & post & ->). induction pre as [|c pre IH].
    + rewrite str_app_nil.
      apply includes_startsWith, startsWith_spec. exists post. reflexivity.
    + rewrite str_app_cons. simpl. rewrite IH. apply orb_true_r.
Qed.

Lemma includes_false (s p : string) :
  Str.includes s p = false <-> ~ exists pre post, s = pre +:+ p +:+ post.
Proof.
  rewrite <- includes_spec. destruct (Str.includes s p); split; congruence.
Qed.

(** ** TTL routing *)

Lemma mentions_includes (q text : string) :
  mentions q text <-> Str.includes (Str.toLowerCase q) (Str.toLowerCase text) = true.
Proof. unfold mentions. symmetry. apply includes_spec. Qed.

Lemma not_mentions_includes (q text : string) :
  ~ mentions q text <-> Str.includes (Str.toLowerCase q) (Str.toLowerCase text) = false.
Proof. unfold mentions. symmetry. apply includes_false. Qed.

(** The longer billboard pattern never decides: it contains the shorter. *)
Lemma includes_trans (s p r : string) :
  Str.includes p r = true -> Str.includes s p = true -> Str.includes s r = true.
Proof.
  rewrite !includes_spec. intros (a & b & ->) (pre & post & ->).
  exists (pre +:+ a), (b +:+ post).
  rewrite !str_app_assoc. reflexivity.
Qed.

(** The rules as tests on the lower-cased text. *)
Lemma hot_spec (q : string) :
  hot q <->
  Str.includes (Str.toLowerCase q) "query globalfeed"
  || (Str.includes (Str.toLowerCase q) "_meta"
      || Str.includes (Str.toLowerCase q) "query __meta") = true.
Proof.
  unfold hot. rewrite !mentions_includes. lower_literals.
  rewrite !orb_true_iff. reflexivity.
Qed.

Lemma homepage_spec (q : string) :
  homepage q <->
  (Str.includes (Str.toLowerCase q) "query globalstats"
   || Str.includes (Str.toLowerCase q) "query globalstatsbillboard")
  || Str.includes (Str.toLowerCase q) "query homelotteries" = true.
Proof.
  unfold homepage. rewrite !mentions_includes. lower_literals.
  rewrite !orb_true_iff.
  pose proof (includes_trans (Str.toLowerCase q)
                "query globalstatsbillboard" "query globalstats" eq_refl).
  tauto.
Qed.

Lemma detail_spec (q : string) :
  detail q <->
  Str.includes (Str.toLowerCase q) "query lotterybyid"
  || (Str.includes (Str.toLowerCase q) "query userlotteriesbyuser"
      || Str.includes (Str.toLowerCase q) "query userlotteriesbylottery") = true.
Proof.
  unfold detail. rewrite !mentions_includes. lower_literals.
  rewrite !orb_true_iff. reflexivity.
Qed.

Lemma filtered_spec (q : string) :
  filtered q <->
  Str.includes (Str.toLowerCase q) "query lotteriesbycreator"
  || Str.includes (Str.toLowerCase q) "query lotteriesbyfeerecipient" = true.
Proof.
  unfold filtered. rewrite !mentions_includes. lower_literals.
  rewrite !orb_true_iff. reflexivity.
Qed.

(** The cascade of [pickTtlSeconds], rule by rule. *)
Lemma pickTtlSeconds_cascade (q : string) :
  pickTtlSeconds q =
  if Str.includes (Str.toLowerCase q) "query globalfeed"
     || (Str.includes (Str.toLowerCase q) "_meta"
         || Str.includes (Str.toLowerCase q) "query __meta")
  then 3%Z
  else if (Str.includes (Str.toLowerCase q) "query globalstats"
           || Str.includes (Str.toLowerCase q) "query globalstatsbillboard")
          || Str.includes (Str.toLowerCase q) "query homelotteries"
  then 8%Z
  else if Str.includes (Str.toLowerCase q) "query lotterybyid"
          || (Str.includes (Str.toLowerCase q) "query userlotteriesbyuser"
              || Str.includes (Str.toLowerCase q) "query userlotteriesbylottery")
  then 15%Z
  else if Str.includes (Str.toLowerCase q) "query lotteriesbycreator"
          || Str.includes (Str.toLowerCase q) "query lotteriesbyfeerecipient"
  then 20%Z
  else DEFAULT_TTL_SECONDS.
Proof.
  unfold pickTtlSeconds.
  destruct (Str.includes _ "query globalfeed"); [reflexivity|].
  destruct (Str.includes _ "_meta" || Str.includes _ "query __meta"); [reflexivity|].
  simpl orb.
  destruct (Str.includes _ "query globalstats" || Str.includes _ "query globalstatsbillboard");
    [reflexivity|].
  simpl orb.
  destruct (Str.includes _ "query homelotteries"); [reflexivity|].
  destruct (Str.includes _ "query lotterybyid"); [reflexivity|].
  destruct (Str.includes _ "query userlotteriesbyuser"); [reflexivity|].
  destruct (Str.includes _ "query userlotteriesbylottery"); [reflexivity|].
  destruct (Str.includes _ "query lotteriesbycreator"); [reflexivity|].
  destruct (Str.includes _ "query lotteriesbyfeerecipient"); reflexivity.
Qed.

(** C9, as the code has it: the TTL is decided by the first rule whose
    pattern occurs in the query text, letter case apart, in this order:
    hot ("query GlobalFeed", "_meta", "query __Meta") gives 3 seconds;
    homepage ("query GlobalStats", "query HomeLotteries") gives 8; detail
    ("query LotteryById", "query UserLotteriesByUser",
    "query UserLotteriesByLottery") gives 15; filtered
    ("query LotteriesByCreator", "query LotteriesByFeeRecipient") gives 20;
    a query that matches no rule gets the default of 8. *)
Theorem pickTtlSeconds_first_match (q : string) :
  (hot q -> pickTtlSeconds q = 3%Z) /\
  (~ hot q -> homepage q -> pickTtlSeconds q = 8%Z) /\
  (~ hot q -> ~ homepage q -> detail q -> pickTtlSeconds q = 15%Z) /\
  (~ hot q -> ~ homepage q -> ~ detail q -> filtered q -> pickTtlSeconds q = 20%Z) /\
  (~ hot q -> ~ homepage q -> ~ detail q -> ~ filtered q ->
   pickTtlSeconds q = DEFAULT_TTL_SECONDS /\ DEFAULT_TTL_SECONDS = 8%Z).
Proof.
  rewrite hot_spec, homepage_spec, detail_spec, filtered_spec, pickTtlSeconds_cascade.
  destruct (Str.includes _ "query globalfeed" || _);
  destruct ((Str.includes _ "query globalstats" || _) || _);
  destruct (Str.includes _ "query lotterybyid" || _);
  destruct (Str.includes _ "query lotteriesbycreator" || _);
  unfold DEFAULT_TTL_SECONDS; intuition congruence.
Qed.

(** C9, witness: the detail rule decides a query that matches no earlier
    rule. *)
Lemma pickTtlSeconds_first_match_witness :
  pickTtlSeconds "query LotteryById($id: ID!){ lottery(id: $id) { id } }" = 15%Z.
Proof.
  destruct (pickTtlSeconds_first_match
              "query LotteryById($id: ID!){ lottery(id: $id) { id } }")
    as (_ & _ & Hdetail & _).
  apply Hdetail.
  - unfold hot. rewrite !mentions_includes. vm_compute. intuition discriminate.
  - unfold homepage. rewrite !mentions_includes. vm_compute. intuition discriminate.
  - unfold detail. rewrite !mentions_includes. vm_compute. left. reflexivity.
Defined.

(** C9, counterexample to the claim as stated: a query that contains
    "query LotteryById" does not always get 15 seconds. One that also reads
    [_meta] is decided by the hot rule and gets 3. *)
Lemma pickTtlSeconds_detail_overridden :
  ~ (forall q : string, mentions q "query LotteryById" -> pickTtlSeconds q = 15%Z).
Proof.
  intros Hall.
  specialize (Hall "query LotteryById($id: ID!){ lottery(id: $id) { id } _meta { block { number } } }").
  assert (Hm : mentions
                 "query LotteryById($id: ID!){ lottery(id: $id) { id } _meta { block { number } } }"
                 "query LotteryById").
  { apply mentions_includes. vm_compute. reflexivity. }
  specialize (Hall Hm). vm_compute in Hall. discriminate Hall.
Qed.

(** ** Pagination clamp *)

Section LimitsFacts.
Context `{Platform}.

Lemma clampInt_range (n : number) (lo hi : Z) :
  (lo <= hi)%Z ->
  exists z : Z, clampInt n lo hi = int z /\ (lo <= z <= hi)%Z.
Proof.
  intros Hle. destruct n as [q| | |]; simpl.
  - eexists; split; [reflexivity | lia].
  - exists lo; split; [reflexivity | lia].
  - exists lo; split; [reflexivity | lia].
  - exists lo; split; [reflexivity | lia].
Qed.

Lemma clampNumberish_range (v : value) (lo hi : Z) :
  (lo <= hi)%Z ->
  exists z : Z, clampNumberish v lo hi = int z /\ (lo <= z <= hi)%Z.
Proof.
  intros Hle. destruct v; simpl;
    try (exists lo; split; [reflexivity | lia]).
  - apply clampInt_range, Hle.
  - destruct (negb _); [|exists lo; split; [reflexivity | lia]].
    destruct (isFinite _); [apply clampInt_range, Hle|].
    exists lo; split; [reflexivity | lia].
Qed.

Lemma clampNumberish_unusable (v : value) (lo hi : Z) :
  unusable v -> clampNumberish v lo hi = int lo.
Proof.
  destruct v; simpl; try reflexivity.
  - destruct n; simpl; [discriminate | reflexivity..].
  - intros [Hblank | Hnan].
    + rewrite Hblank. reflexivity.
    + destruct (negb _); [|reflexivity]. rewrite Hnan. reflexivity.
Qed.

(** The loop of [walk] over an object, property by property. *)
Lemma walk_obj (kvs : list (string * value)) :
  walk (VObj kvs) = VObj (map (fun kx => (fst kx, walk_prop (fst kx) (snd kx))) kvs).
Proof.
  simpl. f_equal. apply map_ext. intros [k x]. reflexivity.
Qed.

Lemma obj_has_map (g : string -> value -> value) (kvs : list (string * value)) (k : string) :
  obj_has (map (fun kx => (fst kx, g (fst kx) (snd kx))) kvs) k = obj_has kvs k.
Proof.
  unfold obj_has, keys. rewrite map_map. reflexivity.
Qed.

Lemma obj_get_map (g : string -> value -> value) (kvs : list (string * value)) (k : string) :
  obj_has kvs k = true ->
  obj_get (map (fun kx => (fst kx, g (fst kx) (snd kx))) kvs) k = g k (obj_get kvs k).
Proof.
  unfold obj_has, keys. induction kvs as [|[k' x] kvs IH]; simpl; [discriminate|].
  rewrite (String.eqb_sym k k').
  destruct (String.eqb_spec k' k) as [->|Hne]; simpl; [reflexivity | exact IH].
Qed.

Lemma image_walk_prop (k : string) (x : value) : image x (walk_prop k x).
Proof.
  unfold walk_prop, image.
  destruct (String.eqb k "first"); [right; left; eauto|].
  destruct (String.eqb k "skip"); [right; left; eauto|].
  destruct (is_ids_key k); simpl; [|left; reflexivity].
  destruct x; simpl; try (left; reflexivity).
  right; right. eauto.
Qed.

Lemma nth_error_firstn_map_walk (xs : list value) (n i : nat) (y : value) :
  nth_error (firstn n (map walk xs)) i = Some y ->
  exists x, nth_error xs i = Some x /\ y = walk x.
Proof.
  revert n i. induction xs as [|x xs IH]; intros [|n] [|i]; simpl; try discriminate.
  - intros [= <-]. eauto.
  - apply IH.
Qed.

Lemma nth_error_map_walk (xs : list value) (i : nat) (y : value) :
  nth_error (map walk xs) i = Some y ->
  exists x, nth_error xs i = Some x /\ y = walk x.
Proof.
  rewrite <- (firstn_all (map walk xs)). apply nth_error_firstn_map_walk.
Qed.

(** One step down from related nodes leads to related nodes. *)
Lemma image_step (s : sel) (x y y' : value) :
  image x y -> at_path [s] y = Some y' ->
  exists x', at_path [s] x = Some x' /\ image x' y' /\
             match s with
             | Key k => y' = walk_prop k x'
             | Idx _ => y' = walk x'
             end.
Proof.
  intros [-> | [[n ->] | (xs & -> & ->)]].
  - destruct x as [| | | | |xs|kvs]; destruct s as [k|i]; simpl; try discriminate.
    + destruct (nth_error (map walk xs) i) as [z|] eqn:E; [|discriminate].
      intros [= <-]. apply nth_error_map_walk in E as (x & -> & ->).
      exists x. split; [reflexivity|]. split; [left|]; reflexivity.
    + change (match walk (VObj kvs) with
              | VObj kvs0 => if obj_has kvs0 k then Some (obj_get kvs0 k) else None
              | _ => None
              end = Some y' ->
              exists x', (if obj_has kvs k then Some (obj_get kvs k) else None) = Some x' /\
                         image x' y' /\ y' = walk_prop k x').
      rewrite walk_obj, obj_has_map.
      destruct (obj_has kvs k) eqn:Hk; [|discriminate].
      rewrite obj_get_map by exact Hk. intros [= <-].
      exists (obj_get kvs k). split; [reflexivity|].
      split; [apply image_walk_prop | reflexivity].
  - destruct s; simpl; discriminate.
  - destruct s as [k|i]; simpl; [discriminate|].
    destruct (nth_error (firstn 200 (map walk xs)) i) as [z|] eqn:E; [|discriminate].
    intros [= <-]. apply nth_error_firstn_map_walk in E as (x & -> & ->).
    exists x. split; [reflexivity|]. split; [left|]; reflexivity.
Qed.

Lemma at_path_cons (s : sel) (p : list sel) (v : value) :
  at_path (s :: p) v =
  match at_path [s] v with
  | Some x => at_path p x
  | None => None
  end.
Proof.
  destruct s as [k|i]; destruct v as [| | | | |xs|kvs]; simpl; try reflexivity.
  - destruct (obj_has kvs k); reflexivity.
  - destruct (nth_error xs i); reflexivity.
Qed.

(** Whatever is found in the clamped tree at a path lies at the same path
    in the input, and its last step was one iteration of the walk. *)
Lemma image_at_path (p : list sel) (s : sel) (x y y' : value) :
  image x y -> at_path (p ++ [s]) y = Some y' ->
  exists x', at_path (p ++ [s]) x = Some x' /\
             match s with
             | Key k => y' = walk_prop k x'
             | Idx _ => y' = walk x'
             end.
Proof.
  revert x y. induction p as [|t p IH]; intros x y Himg Hy.
  - destruct (image_step s x y y' Himg Hy) as (x' & Hx & _ & Hlast). eauto.
  - change ((t :: p) ++ [s]) with (t :: (p ++ [s])) in *.
    rewrite at_path_cons in Hy. rewrite at_path_cons.
    destruct (at_path [t] y) as [y1|] eqn:Hy1; [|discriminate].
    destruct (image_step t x y y1 Himg Hy1) as (x1 & -> & Himg1 & _).
    apply (IH x1 y1 Himg1 Hy).
Qed.

Lemma walk_not_array (x : value) (ys : list value) :
  isArray x = false -> walk x <> VArr ys.
Proof. destruct x; simpl; congruence. Qed.

End LimitsFacts.

Lemma substring_suffix (pre suf : string) :
  substring (String.length pre) (String.length suf) (pre +:+ suf) = suf.
Proof.
  induction pre as [|c pre IH].
  - rewrite str_app_nil. simpl. induction suf as [|d suf IHs]; simpl; [reflexivity|].
    rewrite IHs. reflexivity.
  - rewrite str_app_cons. simpl. exact IH.
Qed.

Lemma length_str_app (a b : string) :
  String.length (a +:+ b) = (String.length a + String.length b)%nat.
Proof.
  induction a as [|c a IH]; [reflexivity|].
  rewrite str_app_cons. simpl. rewrite IH. reflexivity.
Qed.

Lemma endsWith_suffix (pre suf : string) : Str.endsWith (pre +:+ suf) suf = true.
Proof.
  unfold Str.endsWith. rewrite length_str_app.
  replace (String.length pre + String.length suf - String.length suf)%nat
    with (String.length pre) by lia.
  rewrite substring_suffix, String.eqb_refl, andb_true_r.
  apply Nat.leb_le. lia.
Qed.

(** The keys the claim calls [ids] or [*Ids] pass the key test of the
    source. *)
Lemma is_ids_key_spelled (k : string) :
  k = "ids" \/ (exists pre, k = pre +:+ "Ids") -> is_ids_key k = true.
Proof.
  unfold is_ids_key. intros [-> | [pre ->]]; [reflexivity|].
  rewrite endsWith_suffix. apply orb_true_r.
Qed.

(** C6: in the output of [clampPagination], at any depth (at the end of any
    path from the root), a [first] is an integer in [1, 200], a [skip] is an
    integer in [0, 100000], and an array held by a key [ids] or [*Ids] has
    at most 200 elements; and where the input held a [first] or [skip] that
    is no usable number (non-finite, a string that does not parse to a
    finite number, a boolean, an object, null), the output holds the
    minimum of the range, 1 or 0. *)
Theorem clampPagination_bounds `{Platform} (variables : value) :
  (forall p x,
      at_path (p ++ [Key "first"]) (clampPagination variables) = Some x ->
      in_range 1 200 x) /\
  (forall p x,
      at_path (p ++ [Key "skip"]) (clampPagination variables) = Some x ->
      in_range 0 100000 x) /\
  (forall p k xs,
      k = "ids" \/ (exists pre, k = pre +:+ "Ids") ->
      at_path (p ++ [Key k]) (clampPagination variables) = Some (VArr xs) ->
      (length xs <= 200)%nat) /\
  (forall p x x',
      at_path (p ++ [Key "first"]) variables = Some x ->
      at_path (p ++ [Key "first"]) (clampPagination variables) = Some x' ->
      unusable x -> x' = VNum (int 1)) /\
  (forall p x x',
      at_path (p ++ [Key "skip"]) variables = Some x ->
      at_path (p ++ [Key "skip"]) (clampPagination variables) = Some x' ->
      unusable x -> x' = VNum (int 0)).
Proof.
  unfold clampPagination.
  assert (Himg : image variables (walk variables)) by (left; reflexivity).
  repeat split.
  - intros p x Hx.
    destruct (image_at_path p (Key "first") _ _ _ Himg Hx) as (x0 & _ & ->).
    destruct (clampNumberish_range x0 1 200 ltac:(lia)) as (z & Hz & Hr).
    exists z. unfold walk_prop. simpl. rewrite Hz. auto.
  - intros p x Hx.
    destruct (image_at_path p (Key "skip") _ _ _ Himg Hx) as (x0 & _ & ->).
    destruct (clampNumberish_range x0 0 100000 ltac:(lia)) as (z & Hz & Hr).
    exists z. unfold walk_prop. simpl. rewrite Hz. auto.
  - intros p k xs Hk Hx. apply is_ids_key_spelled in Hk.
    destruct (image_at_path p (Key k) _ _ _ Himg Hx) as (x0 & _ & Hlast).
    unfold walk_prop in Hlast.
    destruct (String.eqb_spec k "first") as [->|_]; [discriminate Hk|].
    destruct (String.eqb_spec k "skip") as [->|_]; [discriminate Hk|].
    rewrite Hk in Hlast. simpl in Hlast.
    destruct (isArray x0) eqn:Harr.
    + destruct x0; try discriminate Harr. simpl in Hlast.
      injection Hlast as ->. rewrite length_firstn. lia.
    + symmetry in Hlast. apply walk_not_array in Hlast; [contradiction | exact Harr].
  - intros p x x' Hin Hout Hbad.
    destruct (image_at_path p (Key "first") _ _ _ Himg Hout) as (x0 & Hx0 & ->).
    rewrite Hin in Hx0. injection Hx0 as <-.
    unfold walk_prop. simpl. rewrite (clampNumberish_unusable x 1 200 Hbad). reflexivity.
  - intros p x x' Hin Hout Hbad.
    destruct (image_at_path p (Key "skip") _ _ _ Himg Hout) as (x0 & Hx0 & ->).
    rewrite Hin in Hx0. injection Hx0 as <-.
    unfold walk_prop. simpl. rewrite (clampNumberish_unusable x 0 100000 Hbad). reflexivity.
Qed.

(** C6, witness: on the demo platform, a [first] two levels down that is a
    string too large is in range afterwards, and one that is an object has
    become 1. *)
Lemma clampPagination_bounds_witness :
  let vars := VObj [("where", VArr [VObj [("first", VStr "9999")];
                                    VObj [("first", VObj [])]])] in
  (exists x,
      at_path [Key "where"; Idx 0%nat; Key "first"]
        (clampPagination (H := Demo.platform) vars) = Some x /\
      in_range 1 200 x) /\
  (exists x',
      at_path [Key "where"; Idx 1%nat; Key "first"]
        (clampPagination (H := Demo.platform) vars) = Some x' /\
      x' = VNum (int 1)).
Proof.
  intros vars.
  destruct (clampPagination_bounds (H := Demo.platform) vars) as (Hfirst & _ & _ & Hmin & _).
  split.
  - eexists. split; [reflexivity|].
    apply (Hfirst [Key "where"; Idx 0%nat]). reflexivity.
  - eexists. split; [reflexivity|].
    apply (Hmin [Key "where"; Idx 1%nat] (VObj []));
      [reflexivity | reflexivity | exact I].
Defined.

(** ** Canonical serialization *)

Lemma sort_keys_perm (ks ks' : list string) :
  Permutation ks ks' -> sort_keys ks = sort_keys ks'.
Proof.
  intros Hp. unfold sort_keys.
  apply (Sorted_unique String.le).
  - apply Sorted_merge_sort. apply _.
  - apply Sorted_merge_sort. apply _.
  - rewrite !merge_sort_Permutation. exact Hp.
Qed.

Lemma obj_get_not_key (kvs : list (string * value)) (k : string) :
  ~ In k (keys kvs) -> obj_get kvs k = VUndefined.
Proof.
  induction kvs as [|[k' x] kvs IH]; simpl; [reflexivity|].
  intros Hn. destruct (String.eqb_spec k' k) as [->|Hne].
  - exfalso. apply Hn. left. reflexivity.
  - apply IH. intros Hin. apply Hn. right. exact Hin.
Qed.

(** Reading a property does not depend on the order the properties are
    listed in. *)
Lemma obj_get_perm (l1 l2 : list (string * value)) (k : string) :
  Permutation l1 l2 -> NoDup (keys l1) -> obj_get l1 k = obj_get l2 k.
Proof.
  induction 1 as [|[k' x] l1 l2 Hp IH|[k1 x1] [k2 x2] l|l1 l2 l3 Hp1 IH1 Hp2 IH2];
    intros Hnd.
  - reflexivity.
  - simpl. destruct (String.eqb k' k); [reflexivity|].
    apply IH. simpl in Hnd. apply NoDup_cons in Hnd as [_ Hnd]. exact Hnd.
  - simpl. destruct (String.eqb_spec k1 k) as [->|H1];
      destruct (String.eqb_spec k2 k) as [->|H2]; try reflexivity.
    exfalso. simpl in Hnd. apply NoDup_cons in Hnd as [Hnotin _].
    apply Hnotin. left.
  - rewrite IH1 by exact Hnd. apply IH2.
    assert (Hk : keys l1 ≡ₚ keys l2) by (unfold keys; apply Permutation_map; exact Hp1).
    rewrite <- Hk. exact Hnd.
Qed.

Lemma obj_get_helper (kvs : list (string * value)) (k : string) :
  obj_get (map (fun kx : string * value => (fst kx, helper (snd kx))) kvs) k =
  helper (obj_get kvs k).
Proof.
  induction kvs as [|[k' x] kvs IH]; simpl; [reflexivity|].
  destruct (String.eqb k' k); [reflexivity | exact IH].
Qed.

Lemma fold_left_ext_in {A B : Type} (f g : A -> B -> A) (l : list B) (a : A) :
  (forall a b, f a b = g a b) -> fold_left f l a = fold_left g l a.
Proof.
  intros Hfg. revert a. induction l as [|b l IH]; intros a; simpl; [reflexivity|].
  rewrite Hfg. apply IH.
Qed.

(** The loop of [helper] over an object, as the source has it. *)
Lemma helper_obj (kvs : list (string * value)) :
  helper (VObj kvs) =
  VObj (fold_left (fun out k => obj_set out k (helper (obj_get kvs k)))
                  (sort_keys (keys kvs)) []).
Proof.
  simpl. f_equal. apply fold_left_ext_in. intros out k.
  rewrite obj_get_helper. reflexivity.
Qed.

Lemma key_perm_props_keys (kvs kvs' : list (string * value)) :
  key_perm_props kvs kvs' -> keys kvs = keys kvs'.
Proof. induction 1; simpl; congruence. Qed.

Lemma keys_map_values (g : value -> value) (kvs : list (string * value)) :
  keys (map (fun kx : string * value => (fst kx, g (snd kx))) kvs) = keys kvs.
Proof. unfold keys. rewrite map_map. apply map_ext. reflexivity. Qed.

(** [helper] forgets the order of the properties, at every depth. *)
Lemma helper_key_perm :
  (forall v v', key_perm v v' -> wf_value v -> helper v = helper v') /\
  (forall xs ys, key_perm_elems xs ys ->
                 fold_right (fun x acc => wf_value x /\ acc) True xs ->
                 map helper xs = map helper ys) /\
  (forall kvs kvs', key_perm_props kvs kvs' ->
                    fold_right (fun kx acc => wf_value (snd kx) /\ acc) True kvs ->
                    map (fun kx : string * value => (fst kx, helper (snd kx))) kvs =
                    map (fun kx : string * value => (fst kx, helper (snd kx))) kvs').
Proof.
  apply key_perm_mutind; try reflexivity.
  - intros xs ys _ IH Hwf. simpl. f_equal. apply IH. exact Hwf.
  - intros kvs mid kvs' Hprops IH Hperm [Hnd Hwf].
    specialize (IH Hwf).
    rewrite !helper_obj.
    rewrite (sort_keys_perm (keys kvs) (keys kvs')).
    2:{ rewrite (key_perm_props_keys _ _ Hprops). unfold keys.
        apply Permutation_map. exact Hperm. }
    f_equal. apply fold_left_ext_in. intros out k. f_equal.
    rewrite <- !obj_get_helper. rewrite IH.
    apply obj_get_perm.
    + apply Permutation_map. exact Hperm.
    + rewrite keys_map_values, <- (key_perm_props_keys _ _ Hprops). exact Hnd.
  - intros x y xs ys _ IHx _ IHxs [Hx Hxs]. simpl.
    rewrite (IHx Hx), (IHxs Hxs). reflexivity.
  - intros k x y kvs kvs' _ IHx _ IHkvs [Hx Hkvs]. simpl.
    rewrite (IHx Hx), (IHkvs Hkvs). reflexivity.
Qed.

Lemma keys_map_prop (g : string -> value -> value) (kvs : list (string * value)) :
  keys (map (fun kx : string * value => (fst kx, g (fst kx) (snd kx))) kvs) = keys kvs.
Proof. unfold keys. rewrite map_map. apply map_ext. reflexivity. Qed.

Lemma value_ind' (P : value -> Prop) :
  P VUndefined -> P VNull -> (forall b, P (VBool b)) -> (forall n, P (VNum n)) ->
  (forall s, P (VStr s)) ->
  (forall xs, Forall P xs -> P (VArr xs)) ->
  (forall kvs, Forall (fun kx => P (snd kx)) kvs -> P (VObj kvs)) ->
  forall v, P v.
Proof.
  intros Hu Hn Hb Hnum Hs Harr Hobj.
  fix IH 1. intros [| |b|n|s|xs|kvs].
  - exact Hu.
  - exact Hn.
  - apply Hb.
  - apply Hnum.
  - apply Hs.
  - apply Harr. induction xs as [|x xs IHxs]; constructor; [apply IH | exact IHxs].
  - apply Hobj. induction kvs as [|[k x] kvs IHkvs]; constructor; [apply IH | exact IHkvs].
Qed.

Lemma wf_elems_Forall (xs : list value) :
  fold_right (fun x acc => wf_value x /\ acc) True xs <-> Forall wf_value xs.
Proof.
  induction xs as [|x xs IH]; simpl.
  - split; [constructor | trivial].
  - rewrite IH, Forall_cons. reflexivity.
Qed.

Lemma wf_props_Forall (kvs : list (string * value)) :
  fold_right (fun kx acc => wf_value (snd kx) /\ acc) True kvs <->
  Forall (fun kx => wf_value (snd kx)) kvs.
Proof.
  induction kvs as [|x xs IH]; simpl.
  - split; [constructor | trivial].
  - rewrite IH, Forall_cons. reflexivity.
Qed.

Lemma Forall_mp {A : Type} (P Q : A -> Prop) (l : list A) :
  Forall (fun x => P x -> Q x) l -> Forall P l -> Forall Q l.
Proof.
  induction 1 as [|x l Hx _ IH]; intros Hp; constructor;
    apply Forall_cons in Hp as [Hpx Hpl]; auto.
Qed.

Section ClampOrder.
Context `{Platform}.

Lemma clampNumberish_key_perm (x y : value) (lo hi : Z) :
  key_perm x y -> clampNumberish x lo hi = clampNumberish y lo hi.
Proof. destruct 1; reflexivity. Qed.

Lemma isArray_key_perm (x y : value) : key_perm x y -> isArray x = isArray y.
Proof. destruct 1; reflexivity. Qed.

Lemma key_perm_elems_firstn (n : nat) (xs ys : list value) :
  key_perm_elems xs ys -> key_perm_elems (firstn n xs) (firstn n ys).
Proof.
  intros Hxy. revert n. induction Hxy; intros [|n]; simpl; constructor; auto.
Qed.

Lemma slice0_key_perm (n : nat) (x y : value) :
  key_perm x y -> key_perm (slice0 n x) (slice0 n y).
Proof.
  intros Hxy. destruct Hxy; simpl; try constructor.
  - apply key_perm_elems_firstn. assumption.
  - econstructor; eassumption.
Qed.

Lemma walk_prop_key_perm (k : string) (x y : value) :
  key_perm x y -> key_perm (walk x) (walk y) ->
  key_perm (walk_prop k x) (walk_prop k y).
Proof.
  intros Hxy Hw. unfold walk_prop.
  rewrite (clampNumberish_key_perm x y 1 200 Hxy).
  rewrite (clampNumberish_key_perm x y 0 100000 Hxy).
  rewrite (isArray_key_perm x y Hxy).
  destruct (String.eqb k "first"); [constructor|].
  destruct (String.eqb k "skip"); [constructor|].
  destruct (is_ids_key k && isArray y); [apply slice0_key_perm|]; exact Hw.
Qed.

(** The clamp keeps two trees equal up to the order of their properties. *)
Lemma walk_key_perm :
  (forall v v', key_perm v v' -> key_perm (walk v) (walk v')) /\
  (forall xs ys, key_perm_elems xs ys -> key_perm_elems (map walk xs) (map walk ys)) /\
  (forall kvs kvs', key_perm_props kvs kvs' ->
     key_perm_props (map (fun kx => (fst kx, walk_prop (fst kx) (snd kx))) kvs)
                    (map (fun kx => (fst kx, walk_prop (fst kx) (snd kx))) kvs')).
Proof.
  apply key_perm_mutind; try (simpl; constructor; fail).
  - intros xs ys _ IH. simpl. constructor. exact IH.
  - intros kvs mid kvs' _ IH Hperm. rewrite !walk_obj.
    econstructor; [exact IH|]. apply Permutation_map. exact Hperm.
  - intros x y xs ys _ IHx _ IHxs. simpl. constructor; assumption.
  - intros k x y kvs kvs' Hxy IHx _ IHkvs. simpl. constructor; [|exact IHkvs].
    apply walk_prop_key_perm; assumption.
Qed.

Lemma wf_slice0 (n : nat) (v : value) : wf_value v -> wf_value (slice0 n v).
Proof.
  destruct v as [| | | | |xs|kvs]; simpl; auto.
  rewrite !wf_elems_Forall. apply Forall_take.
Qed.

(** The clamp keeps the keys of every object pairwise distinct. *)
Lemma wf_walk (v : value) : wf_value v -> wf_value (walk v).
Proof.
  induction v as [| | | | |xs IH|kvs IH] using value_ind'; try (simpl; auto; fail).
  - simpl. rewrite !wf_elems_Forall. intros Hall.
    apply Forall_map. revert Hall. apply Forall_mp. exact IH.
  - rewrite walk_obj. simpl. rewrite !wf_props_Forall.
    intros [Hnd Hall]. split.
    + rewrite keys_map_prop. exact Hnd.
    + apply Forall_map. simpl. revert Hall. apply Forall_mp.
      eapply Forall_impl; [exact IH|]. intros [k x] IHx Hx. simpl in *.
      unfold walk_prop.
      destruct (String.eqb k "first"); [exact I|].
      destruct (String.eqb k "skip"); [exact I|].
      destruct (is_ids_key k && isArray x); [apply wf_slice0|]; auto.
Qed.

End ClampOrder.

Lemma key_perm_props_refl (kvs : list (string * value)) :
  Forall (fun kx => key_perm (snd kx) (snd kx)) kvs -> key_perm_props kvs kvs.
Proof.
  induction 1 as [|[k x] kvs Hx _ IH]; constructor; assumption.
Qed.

(** The object hashed for a request, [{ v: 7, query, variables }], for two
    variables trees equal up to the order of their properties. *)
Lemma payload_key_perm (query : string) (variables variables' : value) :
  key_perm variables variables' ->
  key_perm
    (VObj [("v", VNum (int 7)); ("query", VStr query); ("variables", variables)])
    (VObj [("v", VNum (int 7)); ("query", VStr query); ("variables", variables')]).
Proof.
  intros Hv. eapply kp_obj; [|reflexivity].
  repeat constructor. exact Hv.
Qed.

Lemma payload_wf (query : string) (variables : value) :
  wf_value variables ->
  wf_value (VObj [("v", VNum (int 7)); ("query", VStr query); ("variables", variables)]).
Proof.
  intros Hv. simpl. split; [|auto].
  apply NoDup_cons. split; [|apply NoDup_cons; split; [|apply NoDup_singleton]];
    rewrite ?elem_of_cons, ?elem_of_nil; intuition discriminate.
Qed.

(** C5: for every query and every two variables trees that differ only in
    the order in which their objects list their properties, at any depth,
    [canonicalStringify] yields the same string and the derived cache key is
    the same, also after the pagination clamp that precedes key derivation
    in the handler. (The objects are objects: their keys are pairwise
    distinct.) *)
Theorem canonical_key_order_independent `{Platform}
    (query : string) (variables variables' : value) :
  key_perm variables variables' ->
  wf_value variables ->
  canonicalStringify variables = canonicalStringify variables' /\
  hashKeyOf query variables = hashKeyOf query variables' /\
  hashKeyOf query (clampPagination variables) =
  hashKeyOf query (clampPagination variables').
Proof.
  intros Hperm Hwf.
  destruct helper_key_perm as (Hhelper & _ & _).
  assert (Hkey : forall a b, key_perm a b -> wf_value a ->
                             hashKeyOf query a = hashKeyOf query b).
  { intros a b Hab Ha. unfold hashKeyOf, canonicalStringify.
    rewrite (Hhelper _ _ (payload_key_perm query a b Hab) (payload_wf query a Ha)).
    reflexivity. }
  split; [|split].
  - unfold canonicalStringify. rewrite (Hhelper _ _ Hperm Hwf). reflexivity.
  - apply Hkey; assumption.
  - unfold clampPagination. apply Hkey.
    + apply (proj1 walk_key_perm). exact Hperm.
    + apply wf_walk. exact Hwf.
Qed.

Lemma demo_vars_key_perm : key_perm Demo.vars_a Demo.vars_b.
Proof.
  unfold Demo.vars_a, Demo.vars_b.
  eapply kp_obj; [|apply perm_swap].
  repeat constructor.
Qed.

Lemma demo_vars_wf : wf_value Demo.vars_a.
Proof.
  simpl. split; [|auto].
  apply NoDup_cons. split; [|apply NoDup_singleton].
  rewrite elem_of_cons, elem_of_nil. intuition discriminate.
Qed.

(** C5, witness: [{ id: "42", first: "9999" }] and
    [{ first: "9999", id: "42" }] on the demo platform. *)
Lemma canonical_key_order_independent_witness :
  key_perm Demo.vars_a Demo.vars_b /\
  wf_value Demo.vars_a /\
  canonicalStringify (H := Demo.platform) Demo.vars_a =
  canonicalStringify (H := Demo.platform) Demo.vars_b.
Proof.
  split; [exact demo_vars_key_perm|]. split; [exact demo_vars_wf|].
  apply (canonical_key_order_independent (H := Demo.platform) "query Q { x }"
           Demo.vars_a Demo.vars_b demo_vars_key_perm demo_vars_wf).
Defined.

(** ** What a computation leaves outside *)

Lemma entries_sends (call : Call) (o : Outside) : entries (sends call o) = entries o.
Proof. reflexivity. Qed.

Lemma sent_sends (call : Call) (o : Outside) : sent (sends call o) = sent o ++ [call].
Proof. reflexivity. Qed.

Lemma entries_stores (addr : string) (r : Response) (o : Outside) :
  entries (stores addr r o) = <[addr := r]> (entries o).
Proof. reflexivity. Qed.

Lemma sent_stores (addr : string) (r : Response) (o : Outside) :
  sent (stores addr r o) = sent o.
Proof. reflexivity. Qed.

(** ** Headers *)

Lemma headers_get_set_ne (k k' v : string) (h : gmap string string) :
  Str.toLowerCase k <> Str.toLowerCase k' ->
  headers_get k (headers_set k' v h) = headers_get k h.
Proof.
  intros Hne. unfold headers_get, headers_set. apply lookup_insert_ne. congruence.
Qed.

Lemma headers_get_set_eq (k k' v : string) (h : gmap string string) :
  Str.toLowerCase k = Str.toLowerCase k' ->
  headers_get k (headers_set k' v h) = Some v.
Proof.
  intros He. unfold headers_get, headers_set. rewrite He. apply lookup_insert_eq.
Qed.

Lemma headers_get_delete_ne (k k' : string) (h : gmap string string) :
  Str.toLowerCase k <> Str.toLowerCase k' ->
  headers_get k (headers_delete k' h) = headers_get k h.
Proof.
  intros Hne. unfold headers_get, headers_delete. apply lookup_delete_ne. congruence.
Qed.

(** [withCors] keeps the status, the body and every header other than the
    three it sets and [Vary]. *)
Lemma withCors_keeps (r : Response) :
  res_status (withCors r) = res_status r /\
  res_body (withCors r) = res_body r /\
  forall k,
    Str.toLowerCase k <> "access-control-allow-origin" ->
    Str.toLowerCase k <> "access-control-allow-methods" ->
    Str.toLowerCase k <> "access-control-allow-headers" ->
    Str.toLowerCase k <> "vary" ->
    headers_get k (res_headers (withCors r)) = headers_get k (res_headers r).
Proof.
  split; [reflexivity|]. split; [reflexivity|].
  intros k H1 H2 H3 H4. unfold withCors. simpl res_headers.
  assert (Hbase :
    headers_get k
      (headers_set "Access-Control-Allow-Headers" "Content-Type, X-Force-Fresh"
         (headers_set "Access-Control-Allow-Methods" "POST, OPTIONS, GET"
            (headers_set "Access-Control-Allow-Origin" "*" (res_headers r)))) =
    headers_get k (res_headers r)).
  { rewrite !headers_get_set_ne; [reflexivity|exact H1|exact H2|exact H3]. }
  destruct (headers_get "Vary" _) as [vary|]; [|exact Hbase].
  destruct (negb (String.eqb vary "") && _); [|exact Hbase].
  destruct (negb (String.eqb _ "")).
  - rewrite headers_get_set_ne; [exact Hbase | exact H4].
  - rewrite headers_get_delete_ne; [exact Hbase | exact H4].
Qed.

Section ResponseFacts.
Context `{Platform}.

(** The constructor of [Response] accepts the statuses from 200 to 599 and
    no other. *)
Lemma new_Response_cases (body : string) (st : Z) (headers : list (string * string)) :
  ((200 <= st <= 599)%Z /\
   new_Response body st headers =
   Ok {| res_status := st; res_headers := headers_from ∅ headers; res_body := Some body |}) \/
  (~ (200 <= st <= 599)%Z /\
   new_Response body st headers = Throw (JsError "RangeError" (Response_status_error st))).
Proof.
  unfold new_Response.
  destruct (Z.leb_spec 200 st), (Z.leb_spec st 599); simpl; [left | right ..];
    (split; [lia | reflexivity]).
Qed.

(** What [makeTextResponse] builds from an in-flight value whose status the
    constructor accepts, as the client reads it after [withCors]. *)
Lemma makeTextResponse_ok (v : InflightValue) (ttl : Z) (x : XCache) :
  (200 <= status v <= 599)%Z ->
  exists res,
    makeTextResponse v ttl x = Ok res /\
    res_status res = status v /\
    res_body res = Some (text v) /\
    headers_get "content-type" (res_headers res) = Some (contentType v) /\
    headers_get "X-Cache" (res_headers res) = Some (XCache_string x) /\
    headers_get "Cache-Control" (res_headers res) = Some (cacheControlEdgeOnly ttl) /\
    headers_get "CDN-Cache-Control" (res_headers res) = Some (cacheControlEdgeOnly ttl).
Proof.
  intros Hst. unfold makeTextResponse. cbv zeta.
  destruct (new_Response_cases (text v) (status v)
              [("content-type", contentType v);
               ("Cache-Control", cacheControlEdgeOnly ttl);
               ("CDN-Cache-Control", cacheControlEdgeOnly ttl);
               ("X-Cache", XCache_string x)]) as [[_ ->] | [Hno _]]; [|contradiction].
  eexists. split; [reflexivity|]. split; [reflexivity|]. split; [reflexivity|].
  unfold headers_from. cbn [fold_left fst snd res_headers].
  split; [rewrite !headers_get_set_ne by (vm_compute; discriminate);
          apply headers_get_set_eq; reflexivity|].
  split; [apply headers_get_set_eq; reflexivity|].
  split; [rewrite !headers_get_set_ne by (vm_compute; discriminate);
          apply headers_get_set_eq; reflexivity|].
  rewrite !headers_get_set_ne by (vm_compute; discriminate).
  apply headers_get_set_eq. reflexivity.
Qed.

(** Outside 200-599 [makeTextResponse] throws. *)
Lemma makeTextResponse_throws (v : InflightValue) (ttl : Z) (x : XCache) :
  ~ (200 <= status v <= 599)%Z ->
  makeTextResponse v ttl x = Throw (JsError "RangeError" (Response_status_error (status v))).
Proof.
  intros Hst. unfold makeTextResponse. cbv zeta.
  match goal with
  | |- new_Response ?b ?st ?h = _ =>
      destruct (new_Response_cases b st h) as [[Hin _] | [_ ->]]; [contradiction | reflexivity]
  end.
Qed.

(** Whether [makeTextResponse] throws depends on the status alone. *)
Lemma makeTextResponse_cases (v : InflightValue) (ttl : Z) (x : XCache) :
  ((200 <= status v <= 599)%Z /\ exists res, makeTextResponse v ttl x = Ok res) \/
  (~ (200 <= status v <= 599)%Z /\
   makeTextResponse v ttl x = Throw (JsError "RangeError" (Response_status_error (status v)))).
Proof.
  destruct (Z.leb_spec 200 (status v)), (Z.leb_spec (status v) 599);
    [left | right ..];
    try (split; [lia | apply makeTextResponse_throws; lia]).
  split; [lia|].
  destruct (makeTextResponse_ok v ttl x) as (res & -> & _); [lia | eauto].
Qed.

(** What the client reads off the response a handler builds from the value
    of the promise it awaited, when the constructor accepts its status. *)
Lemma fetch_resume_shape (v : InflightValue) (ttl : Z) (x : XCache) :
  (200 <= status v <= 599)%Z ->
  let r := fetch_resume ttl x (Ok v) in
  res_status r = status v /\
  res_body r = Some (text v) /\
  headers_get "content-type" (res_headers r) = Some (contentType v) /\
  headers_get "X-Cache" (res_headers r) = Some (XCache_string x).
Proof.
  intros Hst r. subst r. unfold fetch_resume.
  destruct (makeTextResponse_ok v ttl x Hst) as (res & -> & Hs & Hb & Hct & Hx & _).
  destruct (withCors_keeps res) as (Hs' & Hb' & Hh).
  rewrite Hs', Hb', !Hh by (vm_compute; discriminate). auto.
Qed.

(** And when it does not: the response of the outermost [catch]. *)
Lemma fetch_resume_throws (v : InflightValue) (ttl : Z) (x : XCache) :
  ~ (200 <= status v <= 599)%Z ->
  fetch_resume ttl x (Ok v)
  = internal_error (JsError "RangeError" (Response_status_error (status v))).
Proof.
  intros Hst. unfold fetch_resume. rewrite (makeTextResponse_throws v ttl x Hst). reflexivity.
Qed.

Lemma internal_error_status (e : exn) : res_status (internal_error e) = 500%Z.
Proof. reflexivity. Qed.

(** A response with a JSON error body, as the client reads it. *)
Lemma error_response_shape (st : Z) (error message : string) :
  let r := withCors (error_response st error message) in
  res_status r = st /\
  res_body r
    = Some (JSON_stringify (VObj [("error", VStr error); ("message", VStr message)])) /\
  headers_get "content-type" (res_headers r) = Some "application/json" /\
  headers_get "X-Cache" (res_headers r) = None.
Proof.
  intros r. subst r.
  destruct (withCors_keeps (error_response st error message)) as (Hs & Hb & Hh).
  rewrite Hs, Hb, !Hh by (vm_compute; discriminate).
  split; [reflexivity|]. split; [reflexivity|]. split.
  - apply headers_get_set_eq. reflexivity.
  - unfold error_response, headers_from. simpl.
    rewrite headers_get_set_ne by (vm_compute; discriminate). apply lookup_empty.
Qed.

End ResponseFacts.

(** ** Meta-guard *)

Lemma num_lt_Fin (a b : Q) : num_lt (Fin a) (Fin b) = true <-> (a < b)%Q.
Proof.
  simpl. rewrite negb_true_iff. split.
  - intros Hle. apply Qnot_le_lt. intros Hba.
    apply Qle_bool_iff in Hba. congruence.
  - intros Hlt. destruct (Qle_bool b a) eqn:E; [|reflexivity].
    apply Qle_bool_iff in E. exfalso. apply (Qlt_not_le _ _ Hlt). exact E.
Qed.

Section GuardFacts.
Context `{Platform}.

(** The probe never throws and never touches the cache: it sends the
    [__Meta] call and yields what it reads off the answer. *)
Lemma fetchSubgraphMetaBlock_run (env : Env) (w : World) (c : Outside) :
  fetchSubgraphMetaBlock env w c = (Ok (probed env w), sends (meta_call env) c).
Proof.
  unfold fetchSubgraphMetaBlock, probed, meta_call. mred.
  destruct (net w _ _) as [e|u]; mred; [reflexivity|].
  destruct (up_text u) as [t|e]; mred; [|reflexivity].
  destruct (up_ok u); reflexivity.
Qed.

(** The guard, by what the probe yields and what the cache records. *)
Lemma guard_run (env : Env) (w : World) (key : string) (c : Outside) :
  shouldWriteThroughCacheMetaGuard env w key c =
  match probed env w with
  | None => (Ok false, sends (meta_call env) c)
  | Some n =>
      if match recorded w key (entries c) with
         | Some old => num_lt n old
         | None => false
         end
      then (Ok false, sends (meta_call env) c)
      else match put_fault w (metaKeyUrlFrom key) with
           | Some _ => (Ok true, sends (meta_call env) c)
           | None =>
               (Ok true, stores (metaKeyUrlFrom key) (meta_record n) (sends (meta_call env) c))
           end
  end.
Proof.
  unfold shouldWriteThroughCacheMetaGuard. unfold bind at 1.
  rewrite fetchSubgraphMetaBlock_run.
  destruct (probed env w) as [n|]; [|reflexivity].
  unfold recorded. mred. rewrite entries_sends.
  destruct (match_fault w (metaKeyUrlFrom key)) as [e|]; mred.
  { destruct (put_fault w (metaKeyUrlFrom key)); reflexivity. }
  destruct (entries c !! metaKeyUrlFrom key) as [cached|]; mred.
  - destruct (isFinite (Number_of_string (res_text cached))); mred.
    + destruct (num_lt n _); mred; [reflexivity|].
      destruct (put_fault w (metaKeyUrlFrom key)); reflexivity.
    + destruct (put_fault w (metaKeyUrlFrom key)); reflexivity.
  - destruct (put_fault w (metaKeyUrlFrom key)); reflexivity.
Qed.

(** The guard never throws and sends the [__Meta] call; when it answers
    [false] it has written nothing, and when it answers [true] it has
    written at most the progress record of the key. *)
Lemma guard_effect (env : Env) (w : World) (key : string) (c : Outside) :
  exists b c',
    shouldWriteThroughCacheMetaGuard env w key c = (Ok b, c') /\
    sent c' = sent c ++ [meta_call env] /\
    (b = false -> entries c' = entries c) /\
    (entries c' = entries c \/
     exists r, entries c' = <[metaKeyUrlFrom key := r]> (entries c)).
Proof.
  rewrite guard_run.
  destruct (probed env w) as [n|];
    [|eexists false, _; split; [reflexivity|]; auto].
  destruct (match recorded w key (entries c) with Some old => num_lt n old | None => false end);
    [eexists false, _; split; [reflexivity|]; auto|].
  destruct (put_fault w (metaKeyUrlFrom key));
    (eexists true, _; split; [reflexivity|]; split; [reflexivity|];
     split; [discriminate|]; simpl; eauto).
Qed.

(** The async function of an in-flight promise never rejects. *)
Lemma work_on_total (fetched : M Upstream) (env : Env) (w : World) (p : Prepared)
    (c : Outside) :
  exists v c', work_on fetched env w p c = (Ok v, c').
Proof.
  unfold work_on. unfold try_catch at 1.
  match goal with |- context [match ?m c with _ => _ end] => destruct (m c) as [[v|e] c'] end.
  - eauto.
  - unfold ret. eauto.
Qed.


Lemma work_answered_total (env : Env) (w : World) (p : Prepared) (c : Outside) :
  exists v c', work_answered env w p c = (Ok v, c').
Proof. apply work_on_total. Qed.

(** An outcome that passes the cacheability test is flagged as a success,
    and its status is one the constructor of [Response] accepts. *)
Lemma okToCache_ok (v : InflightValue) : okToCache v = true -> ok v = true.
Proof.
  unfold okToCache. destruct (ok v); [reflexivity|]. simpl. auto.
Qed.

Lemma value_of_status (u : Upstream) (t : string) :
  ok (value_of u t) = true -> (200 <= status (value_of u t) <= 299)%Z.
Proof.
  simpl. unfold up_ok. rewrite andb_true_iff, !Z.leb_le. tauto.
Qed.

(** The write of the outcome of an upstream call, tagged [tag], when the
    outcome passed the cacheability test: the response is built and put;
    a failing put is dropped. *)
Lemma store_run (w : World) (p : Prepared) (u : Upstream) (t : string) (tag : XCache)
    (c : Outside) :
  okToCache (value_of u t) = true ->
  exists toCache,
    makeTextResponse (value_of u t) (ttl p) tag = Ok toCache /\
    res_status toCache = up_status u /\
    res_body toCache = Some t /\
    headers_get "content-type" (res_headers toCache)
      = Some (nullish (up_content_type u) "application/json") /\
    headers_get "X-Cache" (res_headers toCache) = Some (XCache_string tag) /\
    bind (lift (makeTextResponse (value_of u t) (ttl p) tag))
         (fun toCache => waitUntil_put w (cacheReq p) toCache) c
    = (Ok tt, match put_fault w (cacheReq p) with
              | Some _ => c
              | None => stores (cacheReq p) toCache c
              end).
Proof.
  intros Hok.
  pose proof (value_of_status u t (okToCache_ok _ Hok)) as Hst.
  destruct (makeTextResponse_ok (value_of u t) (ttl p) tag) as (res & E & Hs & Hb & Hct & Hx & _);
    [lia|].
  exists res. split; [exact E|]. split; [exact Hs|]. split; [exact Hb|].
  split; [exact Hct|]. split; [exact Hx|].
  unfold bind, lift. rewrite E. unfold waitUntil_put, try_catch, cache_put, ret.
  destruct (put_fault w (cacheReq p)); reflexivity.
Qed.

(** The run of the async function of an in-flight promise, case by case,
    from the state [c0] in which the upstream call settles. *)
Lemma work_on_run (fetched : M Upstream) (env : Env) (w : World) (p : Prepared)
    (c c0 : Outside) :
  fetched c = fetch_settles w (SUBGRAPH_URL env) (query_body p) c0 ->
  work_on fetched env w p c =
  match net w (SUBGRAPH_URL env) (query_body p) with
  | Rejected e => (Ok (failure_value e), c0)
  | Fetched u =>
      match up_text u with
      | Throw e => (Ok (failure_value e), c0)
      | Ok t =>
          let v := value_of u t in
          if okToCache v then
            if forceFresh p then
              match shouldWriteThroughCacheMetaGuard env w (hashKey p) c0 with
              | (Ok true, c1) =>
                  (Ok v,
                   match put_fault w (cacheReq p), makeTextResponse v (ttl p) BYPASS_WRITE with
                   | None, Ok toCache => stores (cacheReq p) toCache c1
                   | _, _ => c1
                   end)
              | (Ok false, c1) => (Ok v, c1)
              | (Throw e, c1) => (Ok (failure_value e), c1)
              end
            else
              (Ok v,
               match put_fault w (cacheReq p), makeTextResponse v (ttl p) MISS with
               | None, Ok toCache => stores (cacheReq p) toCache c0
               | _, _ => c0
               end)
          else (Ok v, c0)
      end
  end.
Proof.
  intros Hfetched. unfold work_on. unfold try_catch at 1, bind at 1.
  rewrite Hfetched. unfold fetch_settles.
  destruct (net w _ _) as [e|u]; mred; [reflexivity|].
  destruct (up_text u) as [t|e]; mred; [|reflexivity].
  fold (value_of u t).
  destruct (okToCache (value_of u t)) eqn:Hok; mred; [|reflexivity].
  destruct (forceFresh p); mred.
  - destruct (guard_effect env w (hashKey p) c0) as (b & c1 & -> & _). mred.
    destruct b; mred; [|reflexivity].
    destruct (store_run w p u t BYPASS_WRITE c1 Hok) as (toCache & -> & _). mred.
    destruct (put_fault w (cacheReq p)); reflexivity.
  - destruct (store_run w p u t MISS c0 Hok) as (toCache & -> & _). mred.
    destruct (put_fault w (cacheReq p)); reflexivity.
Qed.

Lemma work_run (env : Env) (w : World) (p : Prepared) (c : Outside) :
  let c0 := sends (query_call env p) c in
  work env w p c =
  match net w (SUBGRAPH_URL env) (query_body p) with
  | Rejected e => (Ok (failure_value e), c0)
  | Fetched u =>
      match up_text u with
      | Throw e => (Ok (failure_value e), c0)
      | Ok t =>
          let v := value_of u t in
          if okToCache v then
            if forceFresh p then
              match shouldWriteThroughCacheMetaGuard env w (hashKey p) c0 with
              | (Ok true, c1) =>
                  (Ok v,
                   match put_fault w (cacheReq p), makeTextResponse v (ttl p) BYPASS_WRITE with
                   | None, Ok toCache => stores (cacheReq p) toCache c1
                   | _, _ => c1
                   end)
              | (Ok false, c1) => (Ok v, c1)
              | (Throw e, c1) => (Ok (failure_value e), c1)
              end
            else
              (Ok v,
               match put_fault w (cacheReq p), makeTextResponse v (ttl p) MISS with
               | None, Ok toCache => stores (cacheReq p) toCache c0
               | _, _ => c0
               end)
          else (Ok v, c0)
      end
  end.
Proof. intros c0. apply work_on_run. reflexivity. Qed.

(** What the async function sends to the upstream: the query call, and the
    [__Meta] call of the guard when it consults it. *)
Lemma work_sent (env : Env) (w : World) (p : Prepared) (c : Outside) :
  sent (snd (work env w p c)) = sent c ++ work_calls env w p.
Proof.
  rewrite work_run. cbv zeta. unfold work_calls, probe_calls, consults_guard.
  destruct (net w _ _) as [e|u];
    [rewrite andb_false_r; reflexivity|].
  destruct (up_text u) as [t|e];
    [|rewrite andb_false_r; reflexivity].
  destruct (okToCache (value_of u t)); [|rewrite andb_false_r; reflexivity].
  rewrite andb_true_r.
  destruct (forceFresh p).
  - destruct (guard_effect env w (hashKey p) (sends (query_call env p) c))
      as (b & c1 & -> & Hsent & _).
    assert (Hc1 : sent c1 = sent c ++ [query_call env p; meta_call env]).
    { rewrite Hsent, sent_sends, <- app_assoc. reflexivity. }
    destruct b; simpl; [|exact Hc1].
    destruct (put_fault w (cacheReq p)); [exact Hc1|].
    destruct (makeTextResponse _ _ _); exact Hc1.
  - simpl. destruct (put_fault w (cacheReq p)); [reflexivity|].
    destruct (makeTextResponse _ _ _); reflexivity.
Qed.

(** The async function is its call of [fetchWithTimeout], which sends the
    request, and what it does from the settling of that call on. *)
Lemma work_split (env : Env) (w : World) (p : Prepared) (c : Outside) :
  work env w p c
  = work_answered env w p (fetch_sends (SUBGRAPH_URL env) (query_body p) c).
Proof. reflexivity. Qed.

(** The async function from the settling of its upstream call on does what
    the whole function does, but for the query call, which has left
    before. *)
Lemma work_answered_run (env : Env) (w : World) (p : Prepared) (c : Outside) :
  work_answered env w p c =
  (fst (work env w p c),
   {| entries := entries (snd (work env w p c));
      sent := sent c ++ probe_calls env w p |}).
Proof.
  unfold work_answered. rewrite (work_on_run _ env w p c c eq_refl), work_run. cbv zeta.
  unfold probe_calls, consults_guard.
  assert (Hsame : forall c1 : Outside, c1 = {| entries := entries c1; sent := sent c1 |})
    by (intros [E L]; reflexivity).
  destruct (net w _ _) as [e|u];
    [rewrite andb_false_r, app_nil_r; simpl; f_equal; apply Hsame|].
  destruct (up_text u) as [t|e];
    [|rewrite andb_false_r, app_nil_r; simpl; f_equal; apply Hsame].
  destruct (okToCache (value_of u t));
    [|rewrite andb_false_r, app_nil_r; simpl; f_equal; apply Hsame].
  rewrite andb_true_r.
  destruct (forceFresh p).
  - rewrite !guard_run.
    destruct (probed env w) as [n|]; [|reflexivity].
    change (entries (sends (query_call env p) c)) with (entries c).
    destruct (match recorded w (hashKey p) (entries c) with
              | Some old => num_lt n old
              | None => false
              end); [reflexivity|].
    destruct (put_fault w (metaKeyUrlFrom (hashKey p))), (put_fault w (cacheReq p));
      try destruct (makeTextResponse _ _ _); reflexivity.
  - rewrite app_nil_r.
    destruct (put_fault w (cacheReq p)); try destruct (makeTextResponse _ _ _);
      simpl; f_equal; apply Hsame.
Qed.

(** So it resolves to the same value, leaves the same cache, and sends the
    probe of the guard when it consults it. *)
Lemma work_answered_value (env : Env) (w : World) (p : Prepared) (c : Outside) :
  fst (work_answered env w p c) = fst (work env w p c).
Proof. rewrite work_answered_run. reflexivity. Qed.

Lemma work_answered_entries (env : Env) (w : World) (p : Prepared) (c : Outside) :
  entries (snd (work_answered env w p c)) = entries (snd (work env w p c)).
Proof. rewrite work_answered_run. reflexivity. Qed.

Lemma work_answered_sent (env : Env) (w : World) (p : Prepared) (c : Outside) :
  sent (snd (work_answered env w p c)) = sent c ++ probe_calls env w p.
Proof. rewrite work_answered_run. reflexivity. Qed.

(** What a forced-fresh run of the async function does to the cache when
    the guard refuses: nothing. *)
Lemma work_guard_refuses (env : Env) (w : World) (p : Prepared) (c : Outside) :
  forceFresh p = true ->
  fst (shouldWriteThroughCacheMetaGuard env w (hashKey p) (sends (query_call env p) c))
    = Ok false ->
  entries (snd (work env w p c)) = entries c.
Proof.
  intros Hff Hguard. rewrite work_run. cbv zeta.
  destruct (net w _ _) as [e|u]; [reflexivity|].
  destruct (up_text u) as [t|e]; [|reflexivity].
  destruct (okToCache _); [|reflexivity].
  rewrite Hff.
  destruct (guard_effect env w (hashKey p) (sends (query_call env p) c))
    as (b & c1 & E & _ & Hkeep & _).
  rewrite E in Hguard |- *. simpl in Hguard. injection Hguard as ->.
  simpl. apply Hkeep. reflexivity.
Qed.

(** The answer of the guard and what it writes depend on the cache and on
    the world, not on the requests sent before. *)
Lemma guard_same_entries (env : Env) (w : World) (key : string) (c c' : Outside) :
  entries c = entries c' ->
  fst (shouldWriteThroughCacheMetaGuard env w key c)
    = fst (shouldWriteThroughCacheMetaGuard env w key c') /\
  entries (snd (shouldWriteThroughCacheMetaGuard env w key c))
    = entries (snd (shouldWriteThroughCacheMetaGuard env w key c')).
Proof.
  intros E. rewrite !guard_run, E.
  destruct (probed env w) as [n|]; [|auto].
  destruct (match recorded w key (entries c') with Some old => num_lt n old | None => false end);
    [auto|].
  destruct (put_fault w (metaKeyUrlFrom key)); simpl; [auto|].
  rewrite E. auto.
Qed.

End GuardFacts.

(** C1: for a cache key whose progress record holds the counter [P] (the
    cache returns the record and its text reads as the finite number [P]),
    and a probe that observes the counter [n]: the guard answers [true]
    exactly when [n >= P]; when [n < P] it answers [false] and leaves the
    whole cache as it was, so the record is not updated, and a forced-fresh
    run of the in-flight function with that guard leaves the whole cache as
    it was, so the response entry of the key is unchanged. *)
Theorem metaGuard_monotone `{Platform} (env : Env) (w : World) (key : string)
    (c : Outside) (record : Response) (P n : Q) :
  match_fault w (metaKeyUrlFrom key) = None ->
  entries c !! metaKeyUrlFrom key = Some record ->
  Number_of_string (res_text record) = Fin P ->
  fst (fetchSubgraphMetaBlock env w c) = Ok (Some (Fin n)) ->
  (exists b c',
      shouldWriteThroughCacheMetaGuard env w key c = (Ok b, c') /\
      (b = true <-> (P <= n)%Q)) /\
  ((n < P)%Q ->
   fst (shouldWriteThroughCacheMetaGuard env w key c) = Ok false /\
   entries (snd (shouldWriteThroughCacheMetaGuard env w key c)) = entries c /\
   forall p : Prepared,
     forceFresh p = true -> hashKey p = key -> entries (snd (work env w p c)) = entries c).
Proof.
  intros Hfault Hrec Hnum Hprobe.
  rewrite fetchSubgraphMetaBlock_run in Hprobe. simpl in Hprobe. injection Hprobe as Hprobe.
  assert (Hold : recorded w key (entries c) = Some (Fin P)).
  { unfold recorded. rewrite Hfault, Hrec, Hnum. reflexivity. }
  assert (Hrun : forall c0, entries c0 = entries c ->
            shouldWriteThroughCacheMetaGuard env w key c0 =
            if num_lt (Fin n) (Fin P) then (Ok false, sends (meta_call env) c0)
            else match put_fault w (metaKeyUrlFrom key) with
                 | Some _ => (Ok true, sends (meta_call env) c0)
                 | None =>
                     (Ok true,
                      stores (metaKeyUrlFrom key) (meta_record (Fin n))
                        (sends (meta_call env) c0))
                 end).
  { intros c0 E. rewrite guard_run, Hprobe, E, Hold. reflexivity. }
  split.
  - rewrite (Hrun c eq_refl). destruct (num_lt (Fin n) (Fin P)) eqn:Hlt.
    + eexists false, _. split; [reflexivity|].
      apply num_lt_Fin in Hlt. split; [discriminate|].
      intros Hle. exfalso. apply (Qlt_not_le _ _ Hlt). exact Hle.
    + assert (Hle : (P <= n)%Q).
      { apply Qnot_lt_le. intros Hlt'. apply num_lt_Fin in Hlt'. congruence. }
      destruct (put_fault w (metaKeyUrlFrom key)); eexists true, _;
        (split; [reflexivity|]); tauto.
  - intros Hlt. apply num_lt_Fin in Hlt.
    split; [rewrite (Hrun c eq_refl), Hlt; reflexivity|].
    split; [rewrite (Hrun c eq_refl), Hlt; reflexivity|].
    intros p Hff Hkey. apply work_guard_refuses; [exact Hff|].
    rewrite Hkey, (Hrun _ (entries_sends _ c)), Hlt. reflexivity.
Qed.

(** C1, witness: the record of key "k" holds 100 and the probe observes 90;
    the guard refuses and the cache stays as it was. *)
Lemma metaGuard_monotone_witness :
  let c := Demo.around {[ metaKeyUrlFrom "k" := Demo.record 100 ]} in
  fst (shouldWriteThroughCacheMetaGuard (H := Demo.platform) Demo.env Demo.w90 "k" c)
    = Ok false /\
  entries (snd (shouldWriteThroughCacheMetaGuard (H := Demo.platform) Demo.env Demo.w90 "k" c))
    = entries c.
Proof.
  intros c.
  destruct (metaGuard_monotone (H := Demo.platform) Demo.env Demo.w90 "k" c
              (Demo.record 100) (inject_Z 100) (inject_Z 90))
    as (_ & Hless).
  - reflexivity.
  - reflexivity.
  - reflexivity.
  - vm_compute. reflexivity.
  - destruct Hless as (Hno & Hkeep & _); [reflexivity|]. split; [exact Hno | exact Hkeep].
Defined.

(** ** Fail-closed write-through *)

Section FailClosed.
Context `{Platform}.

Lemma parseMetaBlock_no_counter (t : string) :
  match JSON_parse t with
  | None => True
  | Some j => no_counter (get (get (get (get j "data") "_meta") "block") "number")
  end ->
  parseMetaBlockFromJsonText t = None.
Proof.
  unfold parseMetaBlockFromJsonText. destruct (JSON_parse t) as [j|]; [|reflexivity].
  destruct (get _ "number") as [| | |n|s| |]; simpl; try reflexivity.
  - contradiction.
  - intros [Hblank | Hnan].
    + rewrite Hblank. reflexivity.
    + destruct (negb _); [|reflexivity]. rewrite Hnan. reflexivity.
Qed.

Lemma probe_unusable_None (env : Env) (w : World) :
  probe_unusable env w -> probed env w = None.
Proof.
  unfold probe_unusable, probed.
  destruct (net w _ _) as [e|m]; [reflexivity|].
  intros [Hnok | Hbody].
  - rewrite Hnok. destruct (up_text m); reflexivity.
  - destruct (up_text m) as [t|e]; [|reflexivity].
    destruct (up_ok m); [|reflexivity].
    apply (parseMetaBlock_no_counter t Hbody).
Qed.

(** C3: a forced-fresh run whose upstream response [u] is cacheable, while
    the progress probe fails or yields no usable counter: the guard answers
    [false]; the run writes nothing to the cache, so no write to the
    response entry occurs and a prior entry stays; and the in-flight value
    is the upstream response, which the handler that awaits it returns to
    the client with its status, body and content type, tagged BYPASS. *)
Theorem probe_failure_skips_write (env : Env) (w : World) (p : Prepared)
    (c : Outside) (u : Upstream) (txt : string) :
  forceFresh p = true ->
  net w (SUBGRAPH_URL env)
      (JSON_stringify (VObj [("query", VStr (query p)); ("variables", variables p)]))
    = Fetched u ->
  up_text u = Ok txt ->
  okToCache {| status := up_status u;
               contentType := nullish (up_content_type u) "application/json";
               text := txt;
               ok := up_ok u |} = true ->
  probe_unusable env w ->
  let v := {| status := up_status u;
              contentType := nullish (up_content_type u) "application/json";
              text := txt;
              ok := up_ok u |} in
  let r := fetch_resume (ttl p) BYPASS (Ok v) in
  fst (shouldWriteThroughCacheMetaGuard env w (hashKey p) c) = Ok false /\
  entries (snd (shouldWriteThroughCacheMetaGuard env w (hashKey p) c)) = entries c /\
  fst (work env w p c) = Ok v /\
  entries (snd (work env w p c)) = entries c /\
  res_status r = up_status u /\
  res_body r = Some txt /\
  headers_get "content-type" (res_headers r)
    = Some (nullish (up_content_type u) "application/json") /\
  headers_get "X-Cache" (res_headers r) = Some "BYPASS".
Proof.
  intros Hff Hnet Htext Hok Hprobe v r.
  assert (Hguard : forall c0,
            shouldWriteThroughCacheMetaGuard env w (hashKey p) c0
            = (Ok false, sends (meta_call env) c0)).
  { intros c0. rewrite guard_run, (probe_unusable_None env w Hprobe). reflexivity. }
  rewrite Hguard. split; [reflexivity|]. split; [reflexivity|].
  assert (Hwork : work env w p c
                  = (Ok v, sends (meta_call env) (sends (query_call env p) c))).
  { rewrite work_run. cbv zeta. unfold query_body. rewrite Hnet, Htext.
    change (okToCache (value_of u txt) = true) in Hok.
    rewrite Hok, Hff, Hguard. reflexivity. }
  rewrite Hwork. split; [reflexivity|]. split; [reflexivity|].
  apply (fetch_resume_shape v (ttl p) BYPASS).
  pose proof (value_of_status u txt (okToCache_ok _ Hok)) as Hst. simpl in *. lia.
Qed.

End FailClosed.

(** C3, witness: a forced-fresh request, a cacheable upstream answer, and a
    probe that times out, with the record of the key and a stale entry in
    the cache. *)
Lemma probe_failure_skips_write_witness :
  let p := Demo.prepared true in
  let c := Demo.around {[ metaKeyUrlFrom (hashKey p) := Demo.record 100;
                          cacheReq p := plain "stale" 200 ]} in
  let w := Demo.world (Demo.json_ok Demo.data_doc) (Rejected (JsError "Error" "timeout")) in
  entries (snd (work (H := Demo.platform) Demo.env w p c)) = entries c.
Proof.
  intros p c w.
  destruct (probe_failure_skips_write (H := Demo.platform) Demo.env w p c
              {| up_status := 200;
                 up_content_type := Some "application/json";
                 up_text := Ok (Demo.stringify Demo.data_doc) |}
              (Demo.stringify Demo.data_doc))
    as (_ & _ & _ & Hwork & _).
  - reflexivity.
  - reflexivity.
  - reflexivity.
  - vm_compute. reflexivity.
  - exact I.
  - exact Hwork.
Defined.

(** ** Cacheability *)

Section Cacheability.
Context `{Platform}.




End Cacheability.





(** ** The handler up to the in-flight map *)

Section HandlerFacts.
Context `{Platform}.

(** The [/meta] endpoint without an upstream. *)
Lemma meta_endpoint_unconfigured (env : Env) (w : World) (c : Outside) :
  SUBGRAPH_URL env = "" ->
  meta_endpoint env w c = (Ok (withCors (plain "Missing SUBGRAPH_URL" 500)), c).
Proof.
  intros Hurl. unfold meta_endpoint. rewrite Hurl. reflexivity.
Qed.

(** The answers of the [/meta] endpoint with the upstream configured: it
    sends the [__Meta] call, and every failure inside its [try], that of
    the constructor of the response included, ends in its [catch]. *)
Lemma meta_endpoint_run (env : Env) (w : World) (c : Outside) :
  SUBGRAPH_URL env <> "" ->
  let failed (e : exn) :=
    error_response (if isAbortTimeout e then 504 else 502)
      "UPSTREAM_FETCH_FAILED" (String_of_exn e) in
  meta_endpoint env w c =
  (Ok (withCors
         match net w (SUBGRAPH_URL env) (JSON_stringify META_BODY) with
         | Fetched u =>
             match up_text u with
             | Ok t =>
                 match new_Response t (up_status u)
                         [("content-type", nullish (up_content_type u) "application/json");
                          ("Cache-Control", cacheControlEdgeOnly 3);
                          ("CDN-Cache-Control", cacheControlEdgeOnly 3);
                          ("X-Cache", "MISS")] with
                 | Ok res => res
                 | Throw e => failed e
                 end
             | Throw e => failed e
             end
         | Rejected e => failed e
         end), sends (meta_call env) c).
Proof.
  intros Hurl failed. unfold meta_endpoint, meta_call.
  apply String.eqb_neq in Hurl. rewrite Hurl. cbv zeta. mred.
  destruct (net w _ _) as [e|u]; mred; [reflexivity|].
  destruct (up_text u) as [t|e]; mred; [|reflexivity].
  destruct (new_Response _ _ _); reflexivity.
Qed.

(** The [/meta] endpoint never throws, leaves the cache alone, and answers
    with a response that passed through [withCors] and has a status the
    constructor accepts. *)
Lemma meta_endpoint_total (env : Env) (w : World) (c : Outside) :
  exists r0 c',
    meta_endpoint env w c = (Ok (withCors r0), c') /\
    entries c' = entries c /\
    sent c' = sent c ++ (if String.eqb (SUBGRAPH_URL env) "" then [] else [meta_call env]) /\
    constructible r0 /\
    headers_get "X-Cache" (res_headers (withCors r0)) <> Some "HIT".
Proof.
  destruct (String.eqb_spec (SUBGRAPH_URL env) "") as [Hurl|Hurl].
  - rewrite (meta_endpoint_unconfigured env w c Hurl).
    eexists _, c. split; [reflexivity|]. split; [reflexivity|].
    split; [symmetry; apply app_nil_r|]. split; [unfold constructible; simpl; lia|].
    vm_compute. discriminate.
  - rewrite (meta_endpoint_run env w c Hurl). cbv zeta.
    eexists _, _. split; [reflexivity|]. split; [reflexivity|]. split; [reflexivity|].
    assert (Hfail : forall e,
      constructible (error_response (if isAbortTimeout e then 504 else 502)
                       "UPSTREAM_FETCH_FAILED" (String_of_exn e)) /\
      headers_get "X-Cache"
        (res_headers (withCors (error_response (if isAbortTimeout e then 504 else 502)
                                  "UPSTREAM_FETCH_FAILED" (String_of_exn e))))
      <> Some "HIT").
    { intros e. split.
      - unfold constructible. simpl. destruct (isAbortTimeout e); lia.
      - destruct (error_response_shape (if isAbortTimeout e then 504 else 502)%Z
                    "UPSTREAM_FETCH_FAILED" (String_of_exn e)) as (_ & _ & _ & ->).
        discriminate. }
    destruct (net w _ _) as [e|u]; [apply Hfail|].
    destruct (up_text u) as [t|e]; [|apply Hfail].
    match goal with
    | |- context [new_Response ?b ?st ?h] =>
        destruct (new_Response_cases b st h) as [[Hin ->] | [_ ->]]; [|apply Hfail]
    end.
    split; [exact Hin|].
    match goal with |- context [withCors ?x] => destruct (withCors_keeps x) as (_ & _ & Hh) end.
    rewrite Hh by (vm_compute; discriminate).
    unfold headers_from. cbn [fold_left fst snd res_headers].
    rewrite headers_get_set_eq by reflexivity. discriminate.
Qed.

(** What a handler that reaches the in-flight map has computed, from the
    body of its request alone, apart from the origin in the cache address
    and the force-fresh header. *)
Lemma to_inflight_proceed (env : Env) (w : World) (req : Request)
    (c c' : Outside) (p : Prepared) :
  to_inflight env w req c = (Ok (Proceed p), c') ->
  exists raw body,
    req_text req = Ok raw /\
    (if String.eqb raw "" then Some (VObj []) else JSON_parse raw) = Some body /\
    query p = match get body "query" with VStr q => q | _ => "" end /\
    variables p =
      clampPagination
        match get body "variables" with
        | VObj kvs => VObj kvs
        | VArr xs => VArr xs
        | _ => VObj []
        end /\
    ttl p = pickTtlSeconds (query p) /\
    hashKey p = hashKeyOf (query p) (variables p) /\
    cacheReq p =
      url_toString {| origin := origin (url req);
                      pathname := "/__cache/" +:+ hashKey p;
                      search := "" |} /\
    c' = c.
Proof.
  unfold to_inflight.
  destruct (String.eqb (method req) "OPTIONS"); [mred; discriminate|].
  cbv zeta.
  destruct (String.eqb (pathname (url req)) "/health"); [mred; discriminate|].
  destruct (String.eqb (pathname (url req)) "/meta").
  { unfold bind. destruct (meta_endpoint env w c) as [[r|e] c1]; mred; discriminate. }
  destruct (negb (String.eqb (pathname (url req)) "/graphql")); [mred; discriminate|].
  destruct (negb (String.eqb (method req) "POST")); [mred; discriminate|].
  destruct (String.eqb (SUBGRAPH_URL env) ""); [mred; discriminate|].
  unfold bind at 1, lift.
  destruct (req_text req) as [raw|e]; [|discriminate].
  destruct (if String.eqb raw "" then Some (VObj []) else JSON_parse raw) as [body|] eqn:Hbody;
    [|mred; discriminate].
  match goal with
  | |- context [String.eqb ?q ""] => destruct (String.eqb q ""); [mred; discriminate|]
  end.
  destruct (60000 <? _)%N; [mred; discriminate|].
  unfold bind at 1.
  match goal with
  | |- context [(if negb ?ff then ?m else ?n) c] =>
      assert (Hhit : exists hit, (if negb ff then m else n) c = (Ok hit, c))
  end.
  { destruct (negb _); [|unfold ret; eauto]. mred.
    destruct (match_fault w _); [eauto|].
    destruct (entries c !! _); eauto. }
  destruct Hhit as [hit ->].
  destruct hit as [r|]; mred; [discriminate|].
  intros [= <- <-]. exists raw, body. simpl. repeat split; reflexivity || exact Hbody.
Qed.

(** The handler of an accepted request, up to the in-flight map. *)
Lemma to_inflight_accepted (env : Env) (w : World) (req : Request)
    (c : Outside) (q : string) (vars : value) :
  accepted env req q vars ->
  to_inflight env w req c =
  (Ok (if wants_fresh req then Proceed (prepare req q vars)
       else match match_fault w (cacheReq (prepare req q vars)) with
            | Some _ => Proceed (prepare req q vars)
            | None =>
                match entries c !! cacheReq (prepare req q vars) with
                | Some cached => Reply (hit_response q cached)
                | None => Proceed (prepare req q vars)
                end
            end), c).
Proof.
  intros (Hm & Hp & Hu & raw & body & Hraw & Hne & Hparse & Hq & Hqne & Hlen & ->).
  unfold to_inflight. rewrite Hm, Hp. eqb_literals. cbn [negb]. cbv iota zeta.
  apply String.eqb_neq in Hu. rewrite Hu.
  unfold bind at 1, lift. rewrite Hraw. cbv beta iota.
  apply String.eqb_neq in Hne. rewrite Hne, Hparse, Hq.
  apply String.eqb_neq in Hqne. rewrite Hqne.
  assert (Hsmall : (60000 <? N.of_nat (String.length q))%N = false).
  { apply N.ltb_ge. lia. }
  rewrite Hsmall.
  fold (wants_fresh req).
  unfold prepare, hit_response. cbv zeta. simpl cacheReq.
  destruct (wants_fresh req); cbn [negb]; mred; [reflexivity|].
  destruct (match_fault w _); [reflexivity|].
  destruct (entries c !! _); reflexivity.
Qed.

(** Every way the handler can leave lines 31-156. *)
Lemma to_inflight_cases (env : Env) (w : World) (req : Request) (c : Outside) :
  (method req = "OPTIONS" /\
   to_inflight env w req c = (Ok (Reply (handleOptions req)), c)) \/
  (method req <> "OPTIONS" /\ pathname (url req) = "/health" /\
   to_inflight env w req c = (Ok (Reply (withCors (plain "ok" 200))), c)) \/
  (method req <> "OPTIONS" /\ pathname (url req) = "/meta" /\
   exists r c', meta_endpoint env w c = (Ok r, c') /\
                to_inflight env w req c = (Ok (Reply r), c')) \/
  (pathname (url req) <> "/meta" /\
   exists body st,
     (st = 404 \/ st = 405 \/ st = 500 \/ st = 400 \/ st = 413)%Z /\
     to_inflight env w req c = (Ok (Reply (withCors (plain body st))), c)) \/
  (pathname (url req) <> "/meta" /\
   method req = "POST" /\ pathname (url req) = "/graphql" /\ SUBGRAPH_URL env <> "" /\
   exists e, req_text req = Throw e /\ to_inflight env w req c = (Throw e, c)) \/
  (pathname (url req) <> "/meta" /\ exists q vars, accepted env req q vars).
Proof.
  unfold to_inflight.
  destruct (String.eqb_spec (method req) "OPTIONS") as [Hopt|Hopt]; [left; auto|].
  right. cbv zeta.
  destruct (String.eqb_spec (pathname (url req)) "/health") as [Hh|Hh]; [left; auto|].
  right.
  destruct (String.eqb_spec (pathname (url req)) "/meta") as [Hmeta|Hmeta].
  { left. split; [exact Hopt|]. split; [exact Hmeta|].
    destruct (meta_endpoint_total env w c) as (r0 & c' & Hr & _).
    exists (withCors r0), c'. split; [exact Hr|].
    unfold bind. rewrite Hr. reflexivity. }
  right.
  destruct (String.eqb_spec (pathname (url req)) "/graphql") as [Hpath|Hpath]; cbn [negb];
    [|left; split; [exact Hmeta|]; exists "Not found", 404%Z; split; [tauto | reflexivity]].
  destruct (String.eqb_spec (method req) "POST") as [Hmeth|Hmeth]; cbn [negb];
    [|left; split; [exact Hmeta|];
      exists "Method not allowed", 405%Z; split; [tauto | reflexivity]].
  destruct (String.eqb_spec (SUBGRAPH_URL env) "") as [Hurl|Hurl];
    [left; split; [exact Hmeta|];
     exists "Missing SUBGRAPH_URL", 500%Z; split; [tauto | reflexivity]|].
  unfold bind at 1, lift.
  destruct (req_text req) as [raw|e] eqn:Hraw; [|right; left; eauto 10].
  destruct (String.eqb_spec raw "") as [Hblank|Hne].
  { left. split; [exact Hmeta|]. exists "Missing query", 400%Z. split; [tauto | reflexivity]. }
  destruct (JSON_parse raw) as [body|] eqn:Hparse;
    [|left; split; [exact Hmeta|]; exists "Bad JSON", 400%Z; split; [tauto | reflexivity]].
  destruct (get body "query") as [| | | |q| |] eqn:Hq;
    try (left; split; [exact Hmeta|];
         exists "Missing query", 400%Z; split; [tauto | reflexivity]).
  destruct (String.eqb_spec q "") as [Hqe|Hqne];
    [left; split; [exact Hmeta|];
     exists "Missing query", 400%Z; split; [tauto | reflexivity]|].
  destruct (N.ltb_spec 60000 (N.of_nat (String.length q))) as [Hbig|Hsmall];
    [left; split; [exact Hmeta|];
     exists "Query too large", 413%Z; split; [tauto | reflexivity]|].
  right. right. split; [exact Hmeta|].
  eexists q, _. split; [exact Hmeth|]. split; [exact Hpath|].
  split; [exact Hurl|]. exists raw, body. repeat split; assumption.
Qed.

(** Up to the in-flight map the handler leaves the cache as it is, and it
    sends nothing to the upstream unless it is the [/meta] endpoint. *)
Lemma to_inflight_frame (env : Env) (w : World) (req : Request) (c : Outside) :
  entries (snd (to_inflight env w req c)) = entries c /\
  sent (snd (to_inflight env w req c))
    = sent c ++ (if meta_request env req then [meta_call env] else []).
Proof.
  unfold meta_request.
  destruct (to_inflight_cases env w req c)
    as [(Hopt & ->) | [(_ & Hh & ->) | [(Hopt & Hmeta & r & c' & Hr & ->) |
        [(Hmeta & b & st & _ & ->) | [(Hmeta & _ & _ & _ & e & _ & ->) |
         (Hmeta & q & vars & Hacc)]]]]].
  - rewrite Hopt. split; [reflexivity | symmetry; apply app_nil_r].
  - rewrite Hh. eqb_literals. rewrite andb_false_r.
    split; [reflexivity | symmetry; apply app_nil_r].
  - destruct (meta_endpoint_total env w c) as (r0 & c1 & Hr' & Hent & Hsent & _).
    rewrite Hr in Hr'. injection Hr' as -> ->.
    apply String.eqb_neq in Hopt. rewrite Hopt, Hmeta. eqb_literals. cbn [negb andb].
    split; [exact Hent|]. simpl. rewrite Hsent.
    destruct (String.eqb (SUBGRAPH_URL env) ""); reflexivity.
  - apply String.eqb_neq in Hmeta. rewrite Hmeta, andb_false_r.
    split; [reflexivity | symmetry; apply app_nil_r].
  - apply String.eqb_neq in Hmeta. rewrite Hmeta, andb_false_r.
    split; [reflexivity | symmetry; apply app_nil_r].
  - apply String.eqb_neq in Hmeta. rewrite Hmeta, andb_false_r.
    rewrite (to_inflight_accepted env w req c q vars Hacc).
    split; [reflexivity | symmetry; apply app_nil_r].
Qed.

(** A handler proceeds to the in-flight map only with an accepted
    request that is forced fresh or was not found in the cache. *)
Lemma to_inflight_proceed_accepted (env : Env) (w : World) (req : Request)
    (c c' : Outside) (p : Prepared) :
  to_inflight env w req c = (Ok (Proceed p), c') ->
  c' = c /\
  exists vars,
    accepted env req (query p) vars /\ p = prepare req (query p) vars /\
    (wants_fresh req = true \/
     is_Some (match_fault w (cacheReq p)) \/
     entries c !! cacheReq p = None).
Proof.
  destruct (to_inflight_cases env w req c)
    as [(_ & ->) | [(_ & _ & ->) | [(_ & _ & r & c1 & _ & ->) | [(_ & b & st & _ & ->) |
        [(_ & _ & _ & _ & e & _ & ->) | (_ & q & vars & Hacc)]]]]]; try discriminate.
  rewrite (to_inflight_accepted env w req c q vars Hacc).
  destruct (wants_fresh req) eqn:Hff.
  - intros [= <- <-]. split; [reflexivity|]. exists vars. auto.
  - destruct (match_fault w _) eqn:Hfault.
    + intros [= <- <-]. split; [reflexivity|]. exists vars.
      split; [exact Hacc|]. split; [reflexivity|]. right. left. simpl in *.
      rewrite Hfault. eauto.
    + destruct (entries c !! _) eqn:Hlook; [discriminate|].
      intros [= <- <-]. split; [reflexivity|]. exists vars. auto.
Qed.

End HandlerFacts.

(** C10: two requests with the same body that reach the in-flight map get
    the same cache key and the same synthetic cache address, whatever their
    query strings, headers and surroundings (their origin being the same):
    the key is the digest of the version constant, the query text and the
    clamped variables, and the address is the origin followed by
    [/__cache/<key>], with an empty query string. *)
Theorem cache_key_ignores_query_string `{Platform}
    (env1 env2 : Env) (w1 w2 : World) (req1 req2 : Request)
    (c1 c1' c2 c2' : Outside) (p1 p2 : Prepared) :
  req_text req1 = req_text req2 ->
  origin (url req1) = origin (url req2) ->
  to_inflight env1 w1 req1 c1 = (Ok (Proceed p1), c1') ->
  to_inflight env2 w2 req2 c2 = (Ok (Proceed p2), c2') ->
  hashKey p1 = hashKey p2 /\
  cacheReq p1 = cacheReq p2 /\
  hashKey p1 = hashKeyOf (query p1) (variables p1) /\
  cacheReq p1 = origin (url req1) +:+ "/__cache/" +:+ hashKey p1 +:+ "".
Proof.
  intros Hbody Horigin H1 H2.
  apply to_inflight_proceed in H1 as (raw1 & b1 & Hr1 & Hb1 & Hq1 & Hv1 & _ & Hk1 & Ha1 & _).
  apply to_inflight_proceed in H2 as (raw2 & b2 & Hr2 & Hb2 & Hq2 & Hv2 & _ & Hk2 & Ha2 & _).
  rewrite Hbody, Hr2 in Hr1. injection Hr1 as <-.
  rewrite Hb2 in Hb1. injection Hb1 as <-.
  assert (Hq : query p1 = query p2) by congruence.
  assert (Hv : variables p1 = variables p2) by congruence.
  assert (Hk : hashKey p1 = hashKey p2) by congruence.
  split; [exact Hk|]. split; [|split; [exact Hk1 | exact Ha1]].
  rewrite Ha1, Ha2, Hk, Horigin. reflexivity.
Qed.

(** C10, witness: the same body posted to [/graphql?cb=1] and to
    [/graphql?cb=2], the second one forced fresh. *)
Lemma cache_key_ignores_query_string_witness :
  exists p1 p2,
    to_inflight (H := Demo.platform) Demo.env Demo.w100 (Demo.request false "?cb=1")
      (Demo.around ∅) = (Ok (Proceed p1), Demo.around ∅) /\
    to_inflight (H := Demo.platform) Demo.env Demo.w100 (Demo.request true "?cb=2")
      (Demo.around ∅) = (Ok (Proceed p2), Demo.around ∅) /\
    cacheReq p1 = cacheReq p2.
Proof.
  eexists _, _. split; [vm_compute; reflexivity|].
  split; [vm_compute; reflexivity|].
  eapply (cache_key_ignores_query_string (H := Demo.platform)
            Demo.env Demo.env Demo.w100 Demo.w100
            (Demo.request false "?cb=1") (Demo.request true "?cb=2")
            (Demo.around ∅) (Demo.around ∅) (Demo.around ∅) (Demo.around ∅)).
  - reflexivity.
  - reflexivity.
  - vm_compute. reflexivity.
  - vm_compute. reflexivity.
Defined.

(** ** The in-flight map *)

Section IsolateFacts.
Context `{Platform}.

Lemma with_outside_same (s : Isolate) : with_outside (outside s) s = s.
Proof. destruct s; reflexivity. Qed.

(** The two ways an invocation of [fetch] leaves the isolate when it
    arrives. *)
Lemma fetch_start_cases (env : Env) (w : World) (req : Request) (s : Isolate) :
  (exists r o, fetch_start env w req s = returns r o s) \/
  (exists p,
      to_inflight env w req (outside s) = (Ok (Proceed p), outside s) /\
      fetch_start env w req s = parks env p (outside s) s).
Proof.
  unfold fetch_start.
  destruct (to_inflight env w req (outside s)) as [[[r|p]|e] o] eqn:E.
  - left. eauto.
  - right. exists p.
    destruct (to_inflight_proceed _ _ _ _ _ _ E) as (_ & _ & _ & _ & _ & _ & _ & _ & _ & ->).
    auto.
  - left. eauto.
Qed.

(** The invocation [t] at the in-flight map. *)
Lemma reach_parked (t : nat) (s : Isolate) (job : Job) :
  parked s !! t = Some job ->
  reach t s = single_flight t (job_env job) (job_prepared job) (unparks t s).
Proof. intros Hjob. unfold reach. rewrite Hjob. reflexivity. Qed.

Lemma consistent_boot : consistent boot.
Proof.
  constructor; simpl.
  - intros k pid Hk. rewrite lookup_empty in Hk. discriminate.
  - intros pid job Hp. rewrite lookup_empty in Hp. discriminate.
  - intros pid [job Hp]. rewrite lookup_empty in Hp. discriminate.
  - intros x Hx. apply elem_of_nil in Hx. contradiction.
Qed.

(** The invariant speaks of the in-flight map, the pending promises, the
    suspended handlers and the promise counter only. *)
Lemma consistent_same (s s' : Isolate) :
  inflight s' = inflight s -> pending s' = pending s ->
  waiters s' = waiters s -> next_promise s' = next_promise s ->
  consistent s -> consistent s'.
Proof.
  intros E1 E2 E3 E4 [H1 H2 H3 H4].
  constructor; rewrite ?E1, ?E2, ?E3, ?E4; assumption.
Qed.

Lemma consistent_single_flight (tid : nat) (env : Env) (p : Prepared) (s : Isolate) :
  consistent s -> consistent (single_flight tid env p s).
Proof.
  intros [H1 H2 H3 H4]. unfold single_flight.
  destruct (inflight s !! hashKey p) as [existing|] eqn:Hslot.
  - constructor; simpl; try assumption.
    intros x Hx. apply elem_of_app in Hx as [Hx | Hx]; [auto|].
    apply list_elem_of_singleton in Hx. subst x. simpl.
    destruct (H1 _ _ Hslot) as (job & Hjob & _). eauto.
  - assert (Hfresh : pending s !! next_promise s = None).
    { destruct (pending s !! next_promise s) eqn:E; [|reflexivity].
      assert (next_promise s < next_promise s)%nat by (apply H3; eauto). lia. }
    constructor; simpl.
    + intros k pid Hk. destruct (decide (hashKey p = k)) as [<-|Hne].
      * rewrite lookup_insert_eq in Hk. injection Hk as <-.
        rewrite lookup_insert_eq. eauto.
      * rewrite lookup_insert_ne in Hk by exact Hne.
        destruct (H1 _ _ Hk) as (job & Hjob & Hkey).
        exists job. split; [|exact Hkey].
        rewrite lookup_insert_ne; [exact Hjob|].
        intros <-. congruence.
    + intros pid job Hjob. destruct (decide (next_promise s = pid)) as [<-|Hne].
      * rewrite lookup_insert_eq in Hjob. injection Hjob as <-. simpl.
        apply lookup_insert_eq.
      * rewrite lookup_insert_ne in Hjob by exact Hne.
        specialize (H2 _ _ Hjob).
        rewrite lookup_insert_ne; [exact H2|].
        intros Heq. rewrite <- Heq in H2. congruence.
    + intros pid [job Hjob]. destruct (decide (next_promise s = pid)) as [<-|Hne]; [lia|].
      rewrite lookup_insert_ne in Hjob by exact Hne.
      assert (pid < next_promise s)%nat by (apply H3; eauto). lia.
    + intros x Hx. apply elem_of_app in Hx as [Hx | Hx].
      * destruct (H4 x Hx) as [job Hjob].
        destruct (decide (next_promise s = promise x)) as [Heq|Hne].
        -- rewrite <- Heq. rewrite lookup_insert_eq. eauto.
        -- rewrite lookup_insert_ne by exact Hne. eauto.
      * apply list_elem_of_singleton in Hx. subst x. simpl.
        rewrite lookup_insert_eq. eauto.
Qed.

Lemma elem_of_filter_bool {A : Type} (f : A -> bool) (l : list A) (x : A) :
  x ∈ List.filter f l <-> x ∈ l /\ f x = true.
Proof. rewrite !list_elem_of_In. apply filter_In. Qed.

Lemma consistent_settle (pid : nat) (w : World) (s : Isolate) :
  consistent s -> consistent (settle pid w s).
Proof.
  intros Hs. unfold settle.
  destruct (pending s !! pid) as [job|] eqn:Hjob; [|exact Hs].
  destruct (work_answered _ w _ (outside s)) as [settled c].
  destruct Hs as [H1 H2 H3 H4].
  constructor; simpl.
  - intros k pid' Hk.
    apply lookup_delete_Some in Hk as [Hne Hk].
    destruct (H1 _ _ Hk) as (job' & Hjob' & Hkey).
    exists job'. split; [|exact Hkey].
    rewrite lookup_delete_ne; [exact Hjob'|].
    intros <-. congruence.
  - intros pid' job' Hjob'.
    apply lookup_delete_Some in Hjob' as [Hne Hjob'].
    pose proof (H2 _ _ Hjob) as E. pose proof (H2 _ _ Hjob') as E'.
    rewrite lookup_delete_ne; [exact E'|].
    intros Heq. rewrite Heq in E. congruence.
  - intros pid' [job' Hjob'].
    apply lookup_delete_Some in Hjob' as [_ Hjob']. apply H3. eauto.
  - intros x Hx. apply elem_of_filter_bool in Hx as [Hx Hne].
    apply negb_true_iff, Nat.eqb_neq in Hne.
    destruct (H4 x Hx) as [job' Hjob'].
    exists job'. rewrite lookup_delete_ne; [exact Hjob'|]. congruence.
Qed.

Lemma consistent_reach (t : nat) (s : Isolate) : consistent s -> consistent (reach t s).
Proof.
  intros Hs. unfold reach. destruct (parked s !! t) as [job|]; [|exact Hs].
  apply consistent_single_flight.
  apply (consistent_same s); auto.
Qed.

Lemma consistent_step (s : Isolate) (ev : Event) :
  consistent s -> consistent (step s ev).
Proof.
  intros Hs. destruct ev as [env w req|t|pid w|addr]; simpl.
  - destruct (fetch_start_cases env w req s) as [(r & o & ->) | (p & _ & ->)];
      apply (consistent_same s); auto.
  - apply consistent_reach, Hs.
  - apply consistent_settle, Hs.
  - apply (consistent_same s); auto.
Qed.

Lemma consistent_run (evs : list Event) (s : Isolate) :
  consistent s -> consistent (run_events s evs).
Proof.
  revert s. induction evs as [|ev evs IH]; intros s Hs; simpl; [exact Hs|].
  apply IH, consistent_step, Hs.
Qed.

Lemma reachable_consistent (s : Isolate) : reachable s -> consistent s.
Proof. intros [evs ->]. apply consistent_run, consistent_boot. Qed.


(** The run of events, one event further. *)
Lemma run_events_snoc (s : Isolate) (evs : list Event) (ev : Event) :
  run_events s (evs ++ [ev]) = step (run_events s evs) ev.
Proof. unfold run_events. rewrite fold_left_app. reflexivity. Qed.

Lemma run_events_app (s : Isolate) (evs1 evs2 : list Event) :
  run_events s (evs1 ++ evs2) = run_events (run_events s evs1) evs2.
Proof. unfold run_events. apply fold_left_app. Qed.

Lemma reachable_step (s : Isolate) (ev : Event) : reachable s -> reachable (step s ev).
Proof. intros [evs ->]. exists (evs ++ [ev]). symmetry. apply run_events_snoc. Qed.

Lemma reachable_run (s : Isolate) (evs : list Event) :
  reachable s -> reachable (run_events s evs).
Proof. intros [evs0 ->]. exists (evs0 ++ evs). symmetry. apply run_events_app. Qed.

(** What an event sends to the upstream: the [__Meta] call of a request to
    the [/meta] endpoint, the query call of the promise that a resuming
    invocation starts, the [__Meta] call of the guard when the async
    function of a settling promise consults it, and nothing else. *)
Lemma step_calls (s : Isolate) (ev : Event) :
  calls (step s ev) = calls s ++ calls_of s ev.
Proof.
  destruct ev as [env w req|t|pid w|addr]; simpl.
  - unfold fetch_start, calls.
    destruct (to_inflight_frame env w req (outside s)) as [_ Hsent].
    destruct (to_inflight env w req (outside s)) as [[[r|p]|e] o]; exact Hsent.
  - unfold reach. destruct (parked s !! t) as [job|]; [|symmetry; apply app_nil_r].
    unfold single_flight.
    change (inflight (unparks t s)) with (inflight s).
    destruct (inflight s !! _); [symmetry; apply app_nil_r | reflexivity].
  - unfold settle, calls. destruct (pending s !! pid) as [job|]; [|symmetry; apply app_nil_r].
    pose proof (work_answered_sent (job_env job) w (job_prepared job) (outside s)) as Hsent.
    destruct (work_answered _ w _ (outside s)) as [settled o]. exact Hsent.
  - symmetry. apply app_nil_r.
Qed.

End IsolateFacts.

Section SingleFlightFacts.
Context `{Platform}.

(** What [requests_key] says about a step. *)
Lemma requests_key_true (k : string) (s : Isolate) (ev : Event) :
  requests_key k s ev = true ->
  exists t job,
    ev = Reach t /\ parked s !! t = Some job /\ hashKey (job_prepared job) = k /\
    step s ev = single_flight t (job_env job) (job_prepared job) (unparks t s).
Proof.
  destruct ev as [env w req|t|pid w|addr]; try (simpl; discriminate).
  simpl. destruct (parked s !! t) as [job|] eqn:Hjob; [|discriminate].
  intros Hk. apply String.eqb_eq in Hk.
  exists t, job. rewrite (reach_parked t s job Hjob). auto.
Qed.


(** The first request for a key whose slot is free starts a promise for
    it and takes the slot. *)
Lemma step_dispatch (k : string) (s : Isolate) (ev : Event) :
  inflight s !! k = None -> requests_key k s ev = true ->
  inflight (step s ev) !! k = Some (next_promise s) /\
  (exists job,
      pending (step s ev) !! next_promise s = Some job /\ hashKey (job_prepared job) = k) /\
  exists t x,
    ev = Reach t /\ x ∈ waiters (step s ev) /\ task x = t /\ promise x = next_promise s.
Proof.
  intros Hfree Hreq.
  destruct (requests_key_true k s ev Hreq) as (t & job & -> & Hjob & <- & ->).
  unfold single_flight. simpl. rewrite Hfree. simpl.
  split; [apply lookup_insert_eq|]. split.
  - eexists. split; [apply lookup_insert_eq | reflexivity].
  - eexists t, _. split; [reflexivity|].
    split; [apply elem_of_app; right; apply list_elem_of_singleton; reflexivity|].
    split; reflexivity.
Qed.





(** When a promise settles, every handler that awaited it returns the
    response built from the one value the promise resolved to, or, when the
    constructor refuses the status of that value, the response of the
    outermost [catch]. *)
Lemma settle_replies (pid : nat) (w : World) (s : Isolate) (job : Job) :
  pending s !! pid = Some job ->
  exists v c,
    work_answered (job_env job) w (job_prepared job) (outside s) = (Ok v, c) /\
    forall x, x ∈ waiters s -> promise x = pid ->
      (task x, fetch_resume (w_ttl x) (w_xCache x) (Ok v)) ∈ replies (settle pid w s).
Proof.
  intros Hjob.
  destruct (work_answered_total (job_env job) w (job_prepared job) (outside s)) as (v & c & Hwork).
  exists v, c. split; [exact Hwork|].
  intros x Hx Hp. unfold settle. rewrite Hjob, Hwork. simpl.
  apply elem_of_app. right. unfold resumed.
  apply list_elem_of_In, in_map_iff. exists x. split; [reflexivity|].
  apply filter_In. split; [apply list_elem_of_In; exact Hx|].
  apply Nat.eqb_eq. exact Hp.
Qed.


(** A request for [k] that reaches the map while a promise of [k] is
    pending sends nothing to the upstream, and the first one to find the
    slot free sends the query call of the promise it starts. *)
Lemma request_calls (k : string) (s : Isolate) (ev : Event) :
  requests_key k s ev = true ->
  exists t job,
    ev = Reach t /\ parked s !! t = Some job /\ hashKey (job_prepared job) = k /\
    calls (step s ev)
    = calls s ++ match inflight s !! k with
                 | Some _ => []
                 | None => [query_call (job_env job) (job_prepared job)]
                 end.
Proof.
  intros Hreq. destruct (requests_key_true k s ev Hreq) as (t & job & -> & Hjob & Hk & _).
  exists t, job. split; [reflexivity|]. split; [exact Hjob|]. split; [exact Hk|].
  rewrite step_calls. simpl. rewrite Hjob, Hk. reflexivity.
Qed.





(** The invocation that starts a promise and the settling of that promise
    leave outside the isolate what one run of the async function leaves. *)
Lemma launch_then_settle (t : nat) (s : Isolate) (job : Job) (w : World) :
  parked s !! t = Some job ->
  inflight s !! hashKey (job_prepared job) = None ->
  outside (settle (next_promise s) w (reach t s))
  = snd (work (job_env job) w (job_prepared job) (outside s)).
Proof.
  intros Hjob Hfree. rewrite (reach_parked t s job Hjob). unfold single_flight.
  change (inflight (unparks t s)) with (inflight s). rewrite Hfree.
  unfold settle. cbn [pending outside unparks next_promise].
  rewrite lookup_insert_eq. cbn [job_env job_prepared]. rewrite work_split.
  destruct (work_answered _ w _ _) as [settled o]. reflexivity.
Qed.

(** The request that takes the free slot of [k] starts a promise and sends
    its query call. *)
Lemma dispatch_calls (k : string) (s : Isolate) (ev : Event) :
  inflight s !! k = None -> requests_key k s ev = true ->
  exists job,
    pending (step s ev) !! next_promise s = Some job /\
    hashKey (job_prepared job) = k /\
    calls (step s ev) = calls s ++ [query_call (job_env job) (job_prepared job)].
Proof.
  intros Hfree Hreq.
  destruct (request_calls k s ev Hreq) as (t & job & -> & Hjob & Hk & Hcalls).
  exists job. split; [|split; [exact Hk|]].
  - simpl. rewrite (reach_parked t s job Hjob). unfold single_flight.
    change (inflight (unparks t s)) with (inflight s). rewrite Hk, Hfree. simpl.
    rewrite lookup_insert_eq. destruct job. reflexivity.
  - rewrite Hcalls, Hfree. reflexivity.
Qed.

End SingleFlightFacts.



(** ** Completion of an in-flight promise *)

Section Completion.
Context `{Platform}.

(** The value of the promise when the upstream call or the reading of its
    body fails. *)
Lemma work_failure (env : Env) (w : World) (p : Prepared) (c : Outside) (e : exn) :
  net w (SUBGRAPH_URL env)
      (JSON_stringify (VObj [("query", VStr (query p)); ("variables", variables p)]))
    = Rejected e \/
  (exists u,
      net w (SUBGRAPH_URL env)
          (JSON_stringify (VObj [("query", VStr (query p)); ("variables", variables p)]))
        = Fetched u /\ up_text u = Throw e) ->
  work_answered env w p c = (Ok (failure_value e), c).
Proof.
  unfold work_answered. rewrite (work_on_run _ env w p c c eq_refl). cbv zeta.
  unfold query_body.
  intros [-> | (u & -> & Htext)]; [reflexivity|].
  rewrite Htext. reflexivity.
Qed.

Lemma failure_value_shape (e : exn) :
  ok (failure_value e) = false /\
  (status (failure_value e) = 504%Z \/ status (failure_value e) = 502%Z).
Proof.
  split; [reflexivity|]. simpl. destruct (isAbortTimeout e); auto.
Qed.

End Completion.

(** C7: when the work of a pending in-flight promise completes, in any
    world, its slot is removed from the in-flight map and the promise is no
    longer pending. The promise never rejects: the work yields a value, and
    when the upstream call or the reading of its body fails that value is
    the failure value (502 or 504, success flag false), nothing was written
    to the cache and nothing more was sent to the upstream. So the next
    request that reaches the map with that key takes the slot with a new
    promise and sends a new query call to the upstream. *)
Theorem slot_released_on_completion `{Platform}
    (s : Isolate) (pid : nat) (job : Job) (w : World) :
  pending s !! pid = Some job ->
  (exists v c,
      work_answered (job_env job) w (job_prepared job) (outside s) = (Ok v, c) /\
      forall e,
        net w (SUBGRAPH_URL (job_env job))
            (JSON_stringify
               (VObj [("query", VStr (query (job_prepared job)));
                      ("variables", variables (job_prepared job))]))
          = Rejected e \/
        (exists u,
            net w (SUBGRAPH_URL (job_env job))
                (JSON_stringify
                   (VObj [("query", VStr (query (job_prepared job)));
                          ("variables", variables (job_prepared job))]))
              = Fetched u /\ up_text u = Throw e) ->
        v = failure_value e /\ c = outside s /\ ok v = false /\
        (status v = 504%Z \/ status v = 502%Z)) /\
  inflight (settle pid w s) !! hashKey (job_prepared job) = None /\
  pending (settle pid w s) !! pid = None /\
  forall ev,
    requests_key (hashKey (job_prepared job)) (settle pid w s) ev = true ->
    inflight (step (settle pid w s) ev) !! hashKey (job_prepared job)
      = Some (next_promise (settle pid w s)) /\
    exists job',
      pending (step (settle pid w s) ev) !! next_promise (settle pid w s) = Some job' /\
      hashKey (job_prepared job') = hashKey (job_prepared job) /\
      calls (step (settle pid w s) ev)
        = calls (settle pid w s) ++ [query_call (job_env job') (job_prepared job')].
Proof.
  intros Hjob.
  destruct (work_answered_total (job_env job) w (job_prepared job) (outside s))
    as (v & c & Hwork).
  assert (Hslot : inflight (settle pid w s) !! hashKey (job_prepared job) = None).
  { unfold settle. rewrite Hjob, Hwork. simpl. apply lookup_delete_eq. }
  split; [|split; [exact Hslot|split]].
  - exists v, c. split; [exact Hwork|].
    intros e Hnet.
    rewrite (work_failure _ w _ (outside s) e Hnet) in Hwork.
    injection Hwork as <- <-.
    split; [reflexivity|]. split; [reflexivity|]. apply failure_value_shape.
  - unfold settle. rewrite Hjob, Hwork. simpl. apply lookup_delete_eq.
  - intros ev Hreq.
    destruct (step_dispatch _ _ ev Hslot Hreq) as (Hnew & _ & _).
    split; [exact Hnew|]. apply (dispatch_calls _ _ ev Hslot Hreq).
Qed.

(** C7, witness: the upstream call of the only pending promise times out;
    its slot is gone afterwards. *)
Lemma slot_released_on_completion_witness :
  let s := run_events (H := Demo.platform) boot
             [Arrive Demo.env Demo.w100 (Demo.request false ""); Reach 0] in
  inflight s !! hashKey (Demo.prepared false) = Some 0%nat /\
  inflight (settle (H := Demo.platform) 0 Demo.wtimeout s) !! hashKey (Demo.prepared false)
    = None.
Proof.
  intros s. split; [vm_compute; reflexivity|].
  destruct (slot_released_on_completion (H := Demo.platform) s 0
              {| job_env := Demo.env; job_prepared := Demo.prepared false |} Demo.wtimeout)
    as (_ & Hslot & _).
  - vm_compute. reflexivity.
  - exact Hslot.
Defined.

(** ** Every invocation returns a response *)

Section Responses.
Context `{Platform}.

Lemma accounted_boot : accounted boot.
Proof. intros t Ht. simpl in Ht. lia. Qed.

Lemma accounted_returns (r : Response) (o : Outside) (s : Isolate) :
  accounted s -> accounted (returns r o s).
Proof.
  intros Hs t Ht. simpl in *.
  destruct (decide (t = next_task s)) as [->|Hne].
  - left. exists r. apply elem_of_app. right. apply list_elem_of_singleton. reflexivity.
  - destruct (Hs t ltac:(lia)) as [[r' Hr'] | Hw]; [|right; exact Hw].
    left. exists r'. apply elem_of_app. left. exact Hr'.
Qed.

Lemma accounted_parks (env : Env) (p : Prepared) (o : Outside) (s : Isolate) :
  accounted s -> accounted (parks env p o s).
Proof.
  intros Hs t Ht. simpl in *.
  destruct (decide (t = next_task s)) as [->|Hne].
  - right. left. rewrite lookup_insert_eq. eauto.
  - destruct (Hs t ltac:(lia)) as [Hr | [Hp | Hw]]; [auto | | auto].
    right. left. rewrite lookup_insert_ne by congruence. exact Hp.
Qed.

Lemma accounted_reach (t : nat) (s : Isolate) : accounted s -> accounted (reach t s).
Proof.
  intros Hs. unfold reach. destruct (parked s !! t) as [job|] eqn:Hjob; [|exact Hs].
  intros t' Ht'.
  assert (Hnext : next_task (single_flight t (job_env job) (job_prepared job) (unparks t s))
                  = next_task s).
  { unfold single_flight. destruct (inflight _ !! _); reflexivity. }
  rewrite Hnext in Ht'.
  assert (Hlast : exists x,
            waiters (single_flight t (job_env job) (job_prepared job) (unparks t s))
            = waiters s ++ [x] /\ task x = t).
  { unfold single_flight. destruct (inflight _ !! _); simpl; eauto. }
  destruct Hlast as (x & Hw & Hxt).
  assert (Hrep : replies (single_flight t (job_env job) (job_prepared job) (unparks t s))
                 = replies s).
  { unfold single_flight. destruct (inflight _ !! _); reflexivity. }
  assert (Hpark : parked (single_flight t (job_env job) (job_prepared job) (unparks t s))
                  = delete t (parked s)).
  { unfold single_flight. destruct (inflight _ !! _); reflexivity. }
  rewrite Hrep, Hpark, Hw.
  destruct (decide (t' = t)) as [->|Hne].
  - right. right. exists x. split; [|exact Hxt].
    apply elem_of_app. right. apply list_elem_of_singleton. reflexivity.
  - destruct (Hs t' Ht') as [Hr | [Hp | (y & Hy & Hyt)]]; [auto | |].
    + right. left. rewrite lookup_delete_ne by congruence. exact Hp.
    + right. right. exists y. split; [apply elem_of_app; left; exact Hy | exact Hyt].
Qed.

Lemma accounted_settle (pid : nat) (w : World) (s : Isolate) :
  accounted s -> accounted (settle pid w s).
Proof.
  intros Hs t Ht. unfold settle in *.
  destruct (pending s !! pid) as [job|]; [|apply Hs; exact Ht].
  destruct (work_answered _ w _ (outside s)) as [settled c]. simpl in *.
  destruct (Hs t Ht) as [[r Hr] | [Hp | (x & Hx & Hxt)]].
  - left. exists r. apply elem_of_app. left. exact Hr.
  - auto.
  - destruct (Nat.eqb (promise x) pid) eqn:Hp.
    + left. eexists. apply elem_of_app. right. unfold resumed.
      apply list_elem_of_In, in_map_iff. exists x. rewrite Hxt. split; [reflexivity|].
      apply filter_In. split; [apply list_elem_of_In; exact Hx | exact Hp].
    + right. right. exists x. split; [|exact Hxt].
      apply elem_of_filter_bool. split; [exact Hx|]. rewrite Hp. reflexivity.
Qed.

Lemma accounted_step (s : Isolate) (ev : Event) : accounted s -> accounted (step s ev).
Proof.
  intros Hs. destruct ev as [env w req|t|pid w|addr]; simpl.
  - destruct (fetch_start_cases env w req s) as [(r & o & ->) | (p & _ & ->)].
    + apply accounted_returns, Hs.
    + apply accounted_parks, Hs.
  - apply accounted_reach, Hs.
  - apply accounted_settle, Hs.
  - exact Hs.
Qed.

Lemma reachable_accounted (s : Isolate) : reachable s -> accounted s.
Proof.
  intros [evs ->]. generalize accounted_boot. generalize boot.
  induction evs as [|ev evs IH]; intros s Hs; simpl; [exact Hs|].
  apply IH, accounted_step, Hs.
Qed.

(** The response of a cache hit, as the client reads it. *)
Lemma hit_response_shape (q : string) (stored : Response) :
  let r := hit_response q stored in
  res_status r = res_status stored /\
  res_body r = res_body stored /\
  headers_get "X-Cache" (res_headers r) = Some "HIT" /\
  headers_get "Cache-Control" (res_headers r)
    = Some (cacheControlEdgeOnly (pickTtlSeconds q)) /\
  headers_get "CDN-Cache-Control" (res_headers r)
    = Some (cacheControlEdgeOnly (pickTtlSeconds q)) /\
  headers_get "content-type" (res_headers r)
    = headers_get "content-type" (res_headers stored).
Proof.
  intros r. subst r. unfold hit_response. cbv zeta.
  set (cc := cacheControlEdgeOnly (pickTtlSeconds q)).
  destruct (withCors_keeps
              (addHeaders stored
                 [("Cache-Control", cc); ("CDN-Cache-Control", cc); ("X-Cache", "HIT")]))
    as (Hs & Hb & Hh).
  rewrite Hs, Hb. split; [reflexivity|]. split; [reflexivity|].
  rewrite !Hh by (vm_compute; discriminate).
  unfold addHeaders, headers_from. simpl.
  split; [apply headers_get_set_eq; reflexivity|].
  split; [rewrite !headers_get_set_ne by (vm_compute; discriminate);
          apply headers_get_set_eq; reflexivity|].
  split; [rewrite !headers_get_set_ne by (vm_compute; discriminate);
          apply headers_get_set_eq; reflexivity|].
  rewrite !headers_get_set_ne by (vm_compute; discriminate). reflexivity.
Qed.

(** The responses with which a handler returns before the in-flight map:
    the preflight answer; a response that passed through [withCors], has a
    status the constructor accepts and is not tagged HIT; or the hit
    response of the entry that the cache holds for the accepted request. *)
Lemma to_inflight_reply (env : Env) (w : World) (req : Request)
    (c c' : Outside) (r : Response) :
  to_inflight env w req c = (Ok (Reply r), c') ->
  r = handleOptions req \/
  (exists r0,
      r = withCors r0 /\ constructible r0 /\
      headers_get "X-Cache" (res_headers r) <> Some "HIT") \/
  (exists q vars cached,
      accepted env req q vars /\ wants_fresh req = false /\
      match_fault w (cacheReq (prepare req q vars)) = None /\
      entries c !! cacheReq (prepare req q vars) = Some cached /\
      r = hit_response q cached).
Proof.
  assert (Hplain : forall body st,
            (200 <= st <= 599)%Z ->
            constructible (plain body st) /\
            headers_get "X-Cache" (res_headers (withCors (plain body st))) <> Some "HIT").
  { intros body st Hst. split; [exact Hst|].
    destruct (withCors_keeps (plain body st)) as (_ & _ & Hh).
    rewrite Hh by (vm_compute; discriminate).
    unfold plain, headers_from. simpl.
    rewrite headers_get_set_ne by (vm_compute; discriminate).
    unfold headers_get. rewrite lookup_empty. discriminate. }
  destruct (to_inflight_cases env w req c)
    as [(_ & ->) | [(_ & _ & ->) | [(_ & _ & r1 & c1 & Hr & ->) | [(_ & b & st & Hst & ->) |
        [(_ & _ & _ & _ & e & _ & ->) | (_ & q & vars & Hacc)]]]]]; try discriminate.
  - intros [= <- _]. auto.
  - intros [= <- _]. right. left. eexists. split; [reflexivity|]. apply Hplain. lia.
  - intros [= <- _]. right. left.
    destruct (meta_endpoint_total env w c) as (r0 & c2 & Hr' & _ & _ & Hc & Hx).
    rewrite Hr in Hr'. injection Hr' as -> _. eauto.
  - intros [= <- _]. right. left. eexists. split; [reflexivity|]. apply Hplain. lia.
  - rewrite (to_inflight_accepted env w req c q vars Hacc).
    destruct (wants_fresh req) eqn:Hff; [discriminate|].
    destruct (match_fault w _) eqn:Hfault; [discriminate|].
    destruct (entries c !! _) as [cached|] eqn:Hlook; [|discriminate].
    intros [= <- _]. right. right. exists q, vars, cached. auto.
Qed.

(** A run of the async function stores success responses only. *)
Lemma work_keeps_success (env : Env) (w : World) (p : Prepared) (c : Outside) :
  (forall addr r, entries c !! addr = Some r -> success r) ->
  forall addr r, entries (snd (work env w p c)) !! addr = Some r -> success r.
Proof.
  intros Hc. rewrite work_run. cbv zeta.
  assert (Hins : forall (c0 : gmap string Response) a r0,
             (forall addr r, c0 !! addr = Some r -> success r) -> success r0 ->
             forall addr r, <[a := r0]> c0 !! addr = Some r -> success r).
  { intros c0 a r0 H0 Hr0 addr r.
    destruct (decide (a = addr)) as [<-|Hne].
    - rewrite lookup_insert_eq. intros [= <-]. exact Hr0.
    - rewrite lookup_insert_ne by exact Hne. apply H0. }
  destruct (net w _ _) as [e|u]; [exact Hc|].
  destruct (up_text u) as [t|e]; [|exact Hc].
  destruct (okToCache (value_of u t)) eqn:Hok; [|exact Hc].
  assert (Hput : forall tag c1,
            (forall addr r, entries c1 !! addr = Some r -> success r) ->
            forall addr r,
              entries match put_fault w (cacheReq p),
                            makeTextResponse (value_of u t) (ttl p) tag with
                      | None, Ok toCache => stores (cacheReq p) toCache c1
                      | _, _ => c1
                      end !! addr = Some r -> success r).
  { intros tag c1 Hc1.
    destruct (store_run w p u t tag c1 Hok) as (toCache & -> & Hs & _).
    destruct (put_fault w (cacheReq p)); [exact Hc1|].
    apply Hins; [exact Hc1|].
    unfold success. rewrite Hs.
    apply (value_of_status u t (okToCache_ok _ Hok)). }
  destruct (forceFresh p).
  - rewrite guard_run.
    assert (Hrec : forall n, success (meta_record n)) by (intro; unfold success; simpl; lia).
    destruct (probed env w) as [n|]; [|exact Hc].
    destruct (match recorded w (hashKey p) _ with Some old => num_lt n old | None => false end);
      [exact Hc|].
    destruct (put_fault w (metaKeyUrlFrom (hashKey p))).
    + apply Hput. exact Hc.
    + apply Hput. simpl. apply Hins; [exact Hc | apply Hrec].
  - apply Hput. exact Hc.
Qed.

(** The response of the outermost [catch], as the client reads it. *)
Lemma internal_error_shape (e : exn) :
  res_status (internal_error e) = 500%Z /\
  res_body (internal_error e)
    = Some (JSON_stringify
              (VObj [("error", VStr "WORKER_INTERNAL_ERROR");
                     ("message", VStr (error_message e))])) /\
  headers_get "content-type" (res_headers (internal_error e)) = Some "application/json" /\
  headers_get "X-Cache" (res_headers (internal_error e)) = None.
Proof.
  apply (error_response_shape 500 "WORKER_INTERNAL_ERROR" (error_message e)).
Qed.

(** The response a handler builds after its promise settled: its status is
    one the constructor accepts, and its tag is that of the handler. *)
Lemma fetch_resume_sound (ttl : Z) (x : XCache) (v : InflightValue) :
  constructible (fetch_resume ttl x (Ok v)) /\
  (x <> HIT -> headers_get "X-Cache" (res_headers (fetch_resume ttl x (Ok v))) <> Some "HIT").
Proof.
  destruct (makeTextResponse_cases v ttl x) as [[Hst _] | [Hst _]].
  - destruct (fetch_resume_shape v ttl x Hst) as (Hs & _ & _ & Hx).
    split; [unfold constructible; rewrite Hs; exact Hst|].
    intros Hne. rewrite Hx. destruct x; try discriminate. contradiction.
  - rewrite (fetch_resume_throws v ttl x Hst).
    destruct (internal_error_shape (JsError "RangeError" (Response_status_error (status v))))
      as (Hs & _ & _ & Hx).
    split; [unfold constructible; rewrite Hs; lia|].
    intros _. rewrite Hx. discriminate.
Qed.

Lemma cache_sound_boot : cache_sound boot.
Proof.
  split; [|split; [|split]]; simpl.
  - intros addr r Hr. unfold cache in Hr. simpl in Hr. rewrite lookup_empty in Hr. discriminate.
  - intros t r Hr. apply elem_of_nil in Hr. contradiction.
  - intros t r Hr. apply elem_of_nil in Hr. contradiction.
  - intros x Hx. apply elem_of_nil in Hx. contradiction.
Qed.

(** The soundness of the cache and of the responses is kept by every
    event. *)
Lemma cache_sound_step (s : Isolate) (ev : Event) :
  cache_sound s -> cache_sound (step s ev).
Proof.
  intros (Hc & Hr & Hv & Hw).
  destruct ev as [env w req|t|pid w|addr]; simpl.
  - unfold fetch_start.
    destruct (to_inflight_frame env w req (outside s)) as [Hframe _].
    destruct (to_inflight env w req (outside s)) as [[[r|p]|e] o] eqn:E;
      simpl in Hframe; unfold cache_sound, cache; simpl; rewrite Hframe;
      (split; [exact Hc|]).
    + assert (Hnew : (headers_get "X-Cache" (res_headers r) = Some "HIT" -> success r) /\
                     constructible r).
      { destruct (to_inflight_reply env w req _ _ r E)
          as [-> | [(r0 & -> & Hok & Hx) | (q & vars & cached & _ & _ & _ & Hlook & ->)]].
        - split; [|unfold constructible; simpl; lia].
          unfold handleOptions, headers_from. simpl.
          rewrite !headers_get_set_ne by (vm_compute; discriminate).
          unfold headers_get. rewrite lookup_empty. discriminate.
        - split; [intros Hhit; contradiction|].
          destruct (withCors_keeps r0) as (Hs & _). unfold constructible. rewrite Hs.
          exact Hok.
        - destruct (hit_response_shape q cached) as (Hs & _).
          pose proof (Hc _ _ Hlook) as Hsucc. unfold success, constructible in *.
          rewrite Hs. split; [intros _; exact Hsucc | lia]. }
      destruct Hnew as [Hhit Hok].
      split; [|split; [|exact Hw]].
      * intros t' r' Hin. apply elem_of_app in Hin as [Hin | Hin]; [eauto|].
        apply list_elem_of_singleton in Hin. injection Hin as -> ->. exact Hhit.
      * intros t' r' Hin. apply elem_of_app in Hin as [Hin | Hin]; [eauto|].
        apply list_elem_of_singleton in Hin. injection Hin as -> ->. exact Hok.
    + auto.
    + destruct (internal_error_shape e) as (Hs & _ & _ & Hx).
      split; [|split; [|exact Hw]].
      * intros t' r' Hin. apply elem_of_app in Hin as [Hin | Hin]; [eauto|].
        apply list_elem_of_singleton in Hin. injection Hin as -> ->.
        rewrite Hx. discriminate.
      * intros t' r' Hin. apply elem_of_app in Hin as [Hin | Hin]; [eauto|].
        apply list_elem_of_singleton in Hin. injection Hin as -> ->.
        unfold constructible. rewrite Hs. lia.
  - unfold reach. destruct (parked s !! t) as [job|]; [|exact (conj Hc (conj Hr (conj Hv Hw)))].
    unfold single_flight, cache_sound, cache. simpl.
    destruct (inflight s !! hashKey (job_prepared job)); simpl;
      (split; [exact Hc|]; split; [exact Hr|]; split; [exact Hv|];
       intros x Hx; apply elem_of_app in Hx as [Hx | Hx]; [auto|];
       apply list_elem_of_singleton in Hx; subst x; simpl;
       destruct (forceFresh (job_prepared job)); discriminate).
  - unfold settle. destruct (pending s !! pid) as [job|]; [|exact (conj Hc (conj Hr (conj Hv Hw)))].
    pose proof (work_keeps_success (job_env job) w (job_prepared job) (outside s) Hc) as Hc'.
    rewrite <- work_answered_entries in Hc'.
    destruct (work_answered_total (job_env job) w (job_prepared job) (outside s))
      as (v & o & Hwork).
    rewrite Hwork in Hc' |- *. unfold cache_sound, cache. simpl in *.
    split; [exact Hc'|].
    assert (Hres : forall t' r',
              (t', r') ∈ resumed pid (Ok v) (waiters s) ->
              constructible r' /\ headers_get "X-Cache" (res_headers r') <> Some "HIT").
    { intros t' r' Hin. unfold resumed in Hin.
      apply list_elem_of_In, in_map_iff in Hin as (x & [= <- <-] & Hx).
      apply filter_In in Hx as [Hx _]. apply list_elem_of_In in Hx.
      destruct (fetch_resume_sound (w_ttl x) (w_xCache x) v) as [Hok Htag].
      split; [exact Hok | apply Htag, Hw, Hx]. }
    split; [|split].
    + intros t' r' Hin Hhit. apply elem_of_app in Hin as [Hin | Hin]; [eauto|].
      destruct (Hres t' r' Hin) as [_ Hno]. contradiction.
    + intros t' r' Hin. apply elem_of_app in Hin as [Hin | Hin]; [eauto|].
      apply (Hres t' r' Hin).
    + intros x Hx. apply elem_of_filter_bool in Hx as [Hx _]. auto.
  - unfold cache_sound, cache. simpl.
    split; [|auto].
    intros a r Hlook. apply lookup_delete_Some in Hlook as [_ Hlook]. eauto.
Qed.

Lemma reachable_cache_sound (s : Isolate) : reachable s -> cache_sound s.
Proof.
  intros [evs ->]. generalize cache_sound_boot. generalize boot.
  induction evs as [|ev evs IH]; intros s Hs; simpl; [exact Hs|].
  apply IH, cache_sound_step, Hs.
Qed.

(** A handler that reaches the map is suspended on a pending promise. *)
Lemma reach_waits (t : nat) (s : Isolate) (job : Job) :
  consistent s -> parked s !! t = Some job ->
  exists x,
    waiters (reach t s) = waiters s ++ [x] /\ task x = t /\
    is_Some (pending (reach t s) !! promise x) /\
    replies (reach t s) = replies s.
Proof.
  intros Hs Hjob.
  pose proof (consistent_reach t s Hs) as Hs'.
  rewrite (reach_parked t s job Hjob) in *.
  assert (Hlast : exists x,
            waiters (single_flight t (job_env job) (job_prepared job) (unparks t s))
            = waiters s ++ [x] /\ task x = t /\
            replies (single_flight t (job_env job) (job_prepared job) (unparks t s))
            = replies s).
  { unfold single_flight. destruct (inflight _ !! _); simpl; eauto. }
  destruct Hlast as (x & Hw & Hxt & Hrep). exists x.
  split; [exact Hw|]. split; [exact Hxt|]. split; [|exact Hrep].
  apply (waiters_pending _ Hs'). rewrite Hw. apply elem_of_app. right.
  apply list_elem_of_singleton. reflexivity.
Qed.

End Responses.

(** C8: in every reachable state, every invocation of [fetch] so far has
    returned a response, or is suspended after its cache lookup and, once it
    resumes, on a pending promise, or is suspended on a pending promise, and
    returns a response as soon as that promise settles, in any world; every
    response returned has a status from 200 to 599, so it is one the
    constructor of [Response] built. An invocation that arrives returns or
    is suspended; when the body of a request that passed the routing checks
    cannot be read, and when the constructor refuses the status of the value
    of an in-flight promise, the invocation returns the response of the
    outermost [catch]; and that response has status 500 and a JSON body with
    the error [WORKER_INTERNAL_ERROR] and the message of the failure. *)
Theorem fetch_always_responds `{Platform} (s : Isolate) :
  reachable s ->
  (forall t, (t < next_task s)%nat ->
     (exists r, (t, r) ∈ replies s) \/
     (is_Some (parked s !! t) /\
      exists x, x ∈ waiters (reach t s) /\ task x = t /\
                forall w, exists r, (t, r) ∈ replies (settle (promise x) w (reach t s))) \/
     (exists x, x ∈ waiters s /\ task x = t /\
                forall w, exists r, (t, r) ∈ replies (settle (promise x) w s))) /\
  (forall t r, (t, r) ∈ replies s -> (200 <= res_status r <= 599)%Z) /\
  (forall env w req,
     (exists r, replies (fetch_start env w req s) = replies s ++ [(next_task s, r)]) \/
     (replies (fetch_start env w req s) = replies s /\
      is_Some (parked (fetch_start env w req s) !! next_task s))) /\
  (forall env w req e,
     method req = "POST" -> pathname (url req) = "/graphql" -> SUBGRAPH_URL env <> "" ->
     req_text req = Throw e ->
     replies (fetch_start env w req s) = replies s ++ [(next_task s, internal_error e)]) /\
  (forall x job w v,
     x ∈ waiters s -> pending s !! promise x = Some job ->
     fst (work_answered (job_env job) w (job_prepared job) (outside s)) = Ok v ->
     ~ (200 <= status v <= 599)%Z ->
     (task x, internal_error (JsError "RangeError" (Response_status_error (status v))))
       ∈ replies (settle (promise x) w s)) /\
  (forall e,
     res_status (internal_error e) = 500%Z /\
     res_body (internal_error e)
       = Some (JSON_stringify
                 (VObj [("error", VStr "WORKER_INTERNAL_ERROR");
                        ("message", VStr (error_message e))])) /\
     headers_get "content-type" (res_headers (internal_error e)) = Some "application/json").
Proof.
  intros Hreach.
  pose proof (reachable_consistent s Hreach) as Hs.
  pose proof (reachable_accounted s Hreach) as Hacc.
  destruct (reachable_cache_sound s Hreach) as (_ & _ & Hvalid & _).
  assert (Hsettles : forall s0 x, consistent s0 -> x ∈ waiters s0 ->
            forall w, exists r, (task x, r) ∈ replies (settle (promise x) w s0)).
  { intros s0 x Hs0 Hx w. destruct (waiters_pending s0 Hs0 x Hx) as [job Hjob].
    destruct (settle_replies (promise x) w s0 job Hjob) as (v & c & _ & Hreplies).
    eexists. apply (Hreplies x Hx eq_refl). }
  split; [|split; [|split; [|split; [|split]]]].
  - intros t Ht. destruct (Hacc t Ht) as [Hr | [[job Hjob] | (x & Hx & Hxt)]].
    + left. exact Hr.
    + right. left. split; [eauto|].
      destruct (reach_waits t s job Hs Hjob) as (x & Hw & Hxt & _ & _).
      assert (Hx : x ∈ waiters (reach t s)).
      { rewrite Hw. apply elem_of_app. right. apply list_elem_of_singleton. reflexivity. }
      exists x. split; [exact Hx|]. split; [exact Hxt|].
      intros w. destruct (Hsettles _ x (consistent_reach t s Hs) Hx w) as [r Hr].
      rewrite Hxt in Hr. eauto.
    + right. right. exists x. split; [exact Hx|]. split; [exact Hxt|].
      intros w. destruct (Hsettles s x Hs Hx w) as [r Hr]. rewrite Hxt in Hr. eauto.
  - exact Hvalid.
  - intros env w req.
    destruct (fetch_start_cases env w req s) as [(r & o & ->) | (p & _ & ->)].
    + left. exists r. reflexivity.
    + right. split; [reflexivity|]. simpl. rewrite lookup_insert_eq. eauto.
  - intros env w req e Hm Hp Hurl Htext. unfold fetch_start, to_inflight.
    rewrite Hm, Hp. eqb_literals. cbn [negb]. cbv iota zeta.
    apply String.eqb_neq in Hurl. rewrite Hurl.
    unfold bind at 1, lift. rewrite Htext. reflexivity.
  - intros x job w v Hx Hjob Hwork Hst.
    destruct (settle_replies (promise x) w s job Hjob) as (v' & c & Hwork' & Hreplies).
    rewrite Hwork' in Hwork. simpl in Hwork. injection Hwork as ->.
    rewrite <- (fetch_resume_throws v (w_ttl x) (w_xCache x) Hst).
    apply (Hreplies x Hx eq_refl).
  - intros e. destruct (internal_error_shape e) as (H1 & H2 & H3 & _). auto.
Qed.

(** C8, witness: the body of a request cannot be read; the handler returns
    the internal-error response. *)
Lemma fetch_always_responds_witness :
  let req := {| method := "POST";
                url := {| origin := "https://edge.example";
                          pathname := "/graphql"; search := "" |};
                req_headers := ∅;
                req_text := Throw (JsError "TypeError" "stream closed") |} in
  replies (fetch_start (H := Demo.platform) Demo.env Demo.w100 req boot)
    = [(0%nat, internal_error (H := Demo.platform) (JsError "TypeError" "stream closed"))].
Proof.
  intros req.
  destruct (fetch_always_responds (H := Demo.platform) boot) as (_ & _ & _ & Hcatch & _).
  - exists []. reflexivity.
  - apply (Hcatch Demo.env Demo.w100 req (JsError "TypeError" "stream closed"));
      [reflexivity | reflexivity | discriminate | reflexivity].
Defined.

(** * Further properties of the code *)

(** ** Headers of the responses *)

Lemma withCors_sets (r : Response) :
  headers_get "Access-Control-Allow-Origin" (res_headers (withCors r)) = Some "*" /\
  headers_get "Access-Control-Allow-Methods" (res_headers (withCors r))
    = Some "POST, OPTIONS, GET" /\
  headers_get "Access-Control-Allow-Headers" (res_headers (withCors r))
    = Some "Content-Type, X-Force-Fresh".
Proof.
  unfold withCors. simpl res_headers.
  set (h3 := headers_set "Access-Control-Allow-Headers" _ _).
  assert (Hbase :
    headers_get "Access-Control-Allow-Origin" h3 = Some "*" /\
    headers_get "Access-Control-Allow-Methods" h3 = Some "POST, OPTIONS, GET" /\
    headers_get "Access-Control-Allow-Headers" h3 = Some "Content-Type, X-Force-Fresh").
  { subst h3. split; [|split].
    - rewrite !headers_get_set_ne by (vm_compute; discriminate).
      apply headers_get_set_eq. reflexivity.
    - rewrite headers_get_set_ne by (vm_compute; discriminate).
      apply headers_get_set_eq. reflexivity.
    - apply headers_get_set_eq. reflexivity. }
  destruct (headers_get "Vary" h3) as [vary|]; [|exact Hbase].
  destruct (negb (String.eqb vary "") && _); [|exact Hbase].
  destruct (negb (String.eqb _ "")).
  - rewrite !headers_get_set_ne by (vm_compute; discriminate). exact Hbase.
  - rewrite !headers_get_delete_ne by (vm_compute; discriminate). exact Hbase.
Qed.

Lemma handleOptions_allows_any_origin (req : Request) :
  headers_get "Access-Control-Allow-Origin" (res_headers (handleOptions req)) = Some "*".
Proof.
  unfold handleOptions, headers_from. simpl.
  rewrite !headers_get_set_ne by (vm_compute; discriminate).
  apply headers_get_set_eq. reflexivity.
Qed.

(** X1: only the settling of an in-flight promise writes the cache. Running
    a handler from its first line to its response or to its suspension on
    an in-flight promise (routing, the health and [/meta] endpoints, the
    request checks, the cache lookup, the registration in the in-flight map)
    leaves the cache exactly as it was, whatever the request, the
    environment and the world. *)
Theorem arrival_keeps_cache `{Platform} (env : Env) (w : World) (req : Request) (s : Isolate) :
  entries (snd (to_inflight env w req (outside s))) = cache s /\
  cache (step s (Arrive env w req)) = cache s /\
  (forall t, cache (step s (Reach t)) = cache s) /\
  (forall c, entries (snd (meta_endpoint env w c)) = entries c).
Proof.
  destruct (to_inflight_frame env w req (outside s)) as [Hframe _].
  split; [exact Hframe|]. split; [|split].
  - simpl. unfold fetch_start, cache.
    destruct (to_inflight env w req (outside s)) as [[[r|p]|e] c]; exact Hframe.
  - intros t. simpl. unfold reach. destruct (parked s !! t) as [job|]; [|reflexivity].
    unfold single_flight. destruct (inflight _ !! _); reflexivity.
  - intros c. destruct (meta_endpoint_total env w c) as (r0 & c' & -> & Hent & _). exact Hent.
Qed.

Section ArrivalFacts.
Context `{Platform}.

(** An accepted request is answered from the cache or gets past the cache
    lookup; it sends nothing to the upstream. *)
Lemma fetch_start_accepted (env : Env) (w : World) (req : Request) (s : Isolate)
    (q : string) (vars : value) :
  accepted env req q vars ->
  fetch_start env w req s =
  if wants_fresh req then parks env (prepare req q vars) (outside s) s
  else match match_fault w (cacheReq (prepare req q vars)) with
       | Some _ => parks env (prepare req q vars) (outside s) s
       | None =>
           match cache s !! cacheReq (prepare req q vars) with
           | Some cached => returns (hit_response q cached) (outside s) s
           | None => parks env (prepare req q vars) (outside s) s
           end
       end.
Proof.
  intros Hacc. unfold fetch_start, cache.
  rewrite (to_inflight_accepted env w req (outside s) q vars Hacc).
  destruct (wants_fresh req); [reflexivity|].
  destruct (match_fault w _); [reflexivity|].
  destruct (entries (outside s) !! _); reflexivity.
Qed.

End ArrivalFacts.

(** The request of the examples is accepted. *)
Lemma demo_request_accepted (force : bool) (search : string) :
  accepted (H := Demo.platform) Demo.env (Demo.request force search)
    "query LotteryById($id: ID!){ lottery(id: $id) { id } }" Demo.vars_a.
Proof.
  split; [reflexivity|]. split; [reflexivity|]. split; [discriminate|].
  exists (Demo.stringify (Demo.body_doc Demo.vars_a)), (Demo.body_doc Demo.vars_a).
  split; [reflexivity|]. split; [vm_compute; discriminate|].
  split; [vm_compute; reflexivity|]. split; [reflexivity|].
  split; [discriminate|]. split; [vm_compute; discriminate|]. reflexivity.
Qed.

(** X3: a cache hit is served from the stored entry. For an accepted
    request that is not forced fresh, when the cache lookup works and finds
    an entry at the address of the request's key, the handler returns at
    once a response with the status and the body of the stored entry and
    its content type, tagged [X-Cache: HIT], with [Cache-Control] and
    [CDN-Cache-Control] set to the edge-only value for the TTL of the
    request's own query; it issues no upstream call, takes no slot of the
    in-flight map, awaits nothing and leaves the cache as it was. *)
Theorem cache_hit_served `{Platform}
    (env : Env) (w : World) (req : Request) (s : Isolate)
    (q : string) (vars : value) (stored : Response) :
  accepted env req q vars ->
  wants_fresh req = false ->
  match_fault w (cacheReq (prepare req q vars)) = None ->
  cache s !! cacheReq (prepare req q vars) = Some stored ->
  exists r,
    replies (step s (Arrive env w req)) = replies s ++ [(next_task s, r)] /\
    res_status r = res_status stored /\
    res_body r = res_body stored /\
    headers_get "content-type" (res_headers r)
      = headers_get "content-type" (res_headers stored) /\
    headers_get "X-Cache" (res_headers r) = Some "HIT" /\
    headers_get "Cache-Control" (res_headers r)
      = Some (cacheControlEdgeOnly (pickTtlSeconds q)) /\
    headers_get "CDN-Cache-Control" (res_headers r)
      = Some (cacheControlEdgeOnly (pickTtlSeconds q)) /\
    calls (step s (Arrive env w req)) = calls s /\
    inflight (step s (Arrive env w req)) = inflight s /\
    parked (step s (Arrive env w req)) = parked s /\
    waiters (step s (Arrive env w req)) = waiters s /\
    cache (step s (Arrive env w req)) = cache s.
Proof.
  intros Hacc Hfresh Hfault Hlook. simpl.
  rewrite (fetch_start_accepted env w req s q vars Hacc), Hfresh, Hfault, Hlook.
  exists (hit_response q stored). split; [reflexivity|].
  destruct (hit_response_shape q stored) as (H1 & H2 & H3 & H4 & H5 & H6).
  repeat (split; [assumption || reflexivity|]). reflexivity.
Qed.

(** X3, witness: an isolate whose cache holds an entry for the request of
    the examples. *)
Lemma cache_hit_served_witness :
  let q := "query LotteryById($id: ID!){ lottery(id: $id) { id } }" in
  let req := Demo.request false "?cb=7" in
  let stored := plain "stored body" 200 in
  let s := Demo.holding
             {[ cacheReq (prepare (H := Demo.platform) req q Demo.vars_a) := stored ]} in
  exists r,
    replies (step (H := Demo.platform) s (Arrive Demo.env Demo.w100 req)) = [(0%nat, r)] /\
    res_body r = Some "stored body" /\
    calls (step (H := Demo.platform) s (Arrive Demo.env Demo.w100 req)) = [].
Proof.
  intros q req stored s.
  destruct (cache_hit_served (H := Demo.platform) Demo.env Demo.w100 req s q Demo.vars_a stored)
    as (r & Hr & _ & Hb & _ & _ & _ & _ & Hc & _).
  - apply demo_request_accepted.
  - reflexivity.
  - reflexivity.
  - apply lookup_singleton_eq.
  - exists r. split; [exact Hr|]. split; [exact Hb | exact Hc].
Defined.

(** X4: a forced-fresh request is never answered from the cache, and a
    failing cache lookup is handled as a miss. For an accepted request that
    carries [x-force-fresh: 1], or whose cache lookup throws, whatever the
    cache holds: the handler returns nothing yet, reads or writes no cache
    entry and sends nothing to the upstream; it is suspended, and when it
    resumes, whatever has happened meanwhile, it awaits the in-flight
    promise of its key: the pending one when there is one, and then it
    sends nothing to the upstream (tag COALESCED, or COALESCED_BYPASS when
    forced); a new one otherwise, whose query call it sends (tag MISS, or
    BYPASS when forced). *)
Theorem cache_bypassed_when_forced_or_lookup_fails `{Platform}
    (env : Env) (w : World) (req : Request) (s : Isolate) (q : string) (vars : value) :
  accepted env req q vars ->
  wants_fresh req = true \/ is_Some (match_fault w (cacheReq (prepare req q vars))) ->
  replies (step s (Arrive env w req)) = replies s /\
  cache (step s (Arrive env w req)) = cache s /\
  calls (step s (Arrive env w req)) = calls s /\
  parked (step s (Arrive env w req)) !! next_task s
    = Some {| job_env := env; job_prepared := prepare req q vars |} /\
  forall s',
    parked s' !! next_task s = Some {| job_env := env; job_prepared := prepare req q vars |} ->
    replies (step s' (Reach (next_task s))) = replies s' /\
    cache (step s' (Reach (next_task s))) = cache s' /\
    calls (step s' (Reach (next_task s)))
      = calls s' ++ match inflight s' !! hashKey (prepare req q vars) with
                    | Some _ => []
                    | None => [query_call env (prepare req q vars)]
                    end /\
    exists x pid,
      waiters (step s' (Reach (next_task s))) = waiters s' ++ [x] /\
      task x = next_task s /\
      promise x = pid /\
      inflight (step s' (Reach (next_task s))) !! hashKey (prepare req q vars) = Some pid /\
      w_ttl x = pickTtlSeconds q /\
      w_xCache x =
        match inflight s' !! hashKey (prepare req q vars), wants_fresh req with
        | None, true => BYPASS
        | None, false => MISS
        | Some _, true => COALESCED_BYPASS
        | Some _, false => COALESCED
        end.
Proof.
  intros Hacc Hwhy.
  assert (E : fetch_start env w req s = parks env (prepare req q vars) (outside s) s).
  { rewrite (fetch_start_accepted env w req s q vars Hacc).
    destruct Hwhy as [-> | [e ->]]; [reflexivity|].
    destruct (wants_fresh req); reflexivity. }
  simpl step at 1 2 3 4. rewrite E.
  split; [reflexivity|]. split; [reflexivity|]. split; [reflexivity|].
  split; [simpl; apply lookup_insert_eq|].
  intros s' Hparked. cbn [step]. rewrite (reach_parked _ s' _ Hparked).
  cbn [job_env job_prepared]. set (p := prepare req q vars) in *.
  assert (Httl : ttl p = pickTtlSeconds q) by reflexivity.
  assert (Hff : forceFresh p = wants_fresh req) by reflexivity.
  clearbody p. unfold single_flight, calls, cache.
  change (inflight (unparks (next_task s) s')) with (inflight s').
  destruct (inflight s' !! hashKey p) as [existing|] eqn:Hslot; cbn -[lookup insert].
  - split; [reflexivity|]. split; [reflexivity|]. split; [symmetry; apply app_nil_r|].
    eexists _, existing. split; [reflexivity|]. split; [reflexivity|].
    split; [reflexivity|]. split; [exact Hslot|]. split; [exact Httl|].
    rewrite Hff. destruct (wants_fresh req); reflexivity.
  - split; [reflexivity|]. split; [reflexivity|]. split; [reflexivity|].
    eexists _, (next_promise s'). split; [reflexivity|]. split; [reflexivity|].
    split; [reflexivity|]. split; [apply lookup_insert_eq|]. split; [exact Httl|].
    rewrite Hff. destruct (wants_fresh req); reflexivity.
Qed.

(** X4, witness: the forced-fresh request of the examples, with an entry
    for its key in the cache. *)
Lemma cache_bypassed_when_forced_or_lookup_fails_witness :
  let q := "query LotteryById($id: ID!){ lottery(id: $id) { id } }" in
  let req := Demo.request true "" in
  let s := Demo.holding {[ cacheReq (prepare (H := Demo.platform) req q Demo.vars_a)
                             := plain "stored body" 200 ]} in
  replies (step (H := Demo.platform) s (Arrive Demo.env Demo.w100 req)) = [].
Proof.
  intros q req s.
  destruct (cache_bypassed_when_forced_or_lookup_fails (H := Demo.platform)
              Demo.env Demo.w100 req s q Demo.vars_a) as (Hr & _).
  - apply demo_request_accepted.
  - left. reflexivity.
  - exact Hr.
Defined.

(** X5: the [/meta] endpoint passes the upstream's answer through. A
    request to [/meta] with any method but OPTIONS is answered at once and
    takes no slot of the in-flight map; the cache is neither read nor
    written. Without [SUBGRAPH_URL] the answer is 500 "Missing
    SUBGRAPH_URL" and nothing is sent. Otherwise the [__Meta] call is sent
    to the upstream; when the upstream answers it with a status from 200 to
    599 and its body can be read, the response has the upstream's status and
    body, its content type ("application/json" when it sent none), the tag
    [X-Cache: MISS] and the edge-only [Cache-Control] for 3 seconds; when
    the call rejects, the body cannot be read, or the status lies outside
    200-599, so that the constructor of the response throws, the response is
    a JSON error object [UPSTREAM_FETCH_FAILED] that carries [String(e)] of
    the failure, with status 504 when the failure's message mentions
    "timeout" (in any letter case) and 502 otherwise. *)
Theorem meta_endpoint_passes_upstream_through `{Platform}
    (env : Env) (w : World) (req : Request) (s : Isolate) :
  method req <> "OPTIONS" ->
  pathname (url req) = "/meta" ->
  exists r,
    step s (Arrive env w req)
    = returns r (if String.eqb (SUBGRAPH_URL env) "" then outside s
                 else sends (meta_call env) (outside s)) s /\
    (SUBGRAPH_URL env = "" ->
     res_status r = 500%Z /\ res_body r = Some "Missing SUBGRAPH_URL") /\
    (SUBGRAPH_URL env <> "" ->
     let failed (e : exn) :=
       res_status r = (if isAbortTimeout e then 504 else 502)%Z /\
       res_body r
         = Some (JSON_stringify
                   (VObj [("error", VStr "UPSTREAM_FETCH_FAILED");
                          ("message", VStr (String_of_exn e))])) /\
       headers_get "content-type" (res_headers r) = Some "application/json" in
     match net w (SUBGRAPH_URL env) (JSON_stringify META_BODY) with
     | Fetched u =>
         match up_text u with
         | Ok t =>
             if (200 <=? up_status u)%Z && (up_status u <=? 599)%Z then
               res_status r = up_status u /\
               res_body r = Some t /\
               headers_get "content-type" (res_headers r)
                 = Some (nullish (up_content_type u) "application/json") /\
               headers_get "X-Cache" (res_headers r) = Some "MISS" /\
               headers_get "Cache-Control" (res_headers r) = Some (cacheControlEdgeOnly 3) /\
               headers_get "CDN-Cache-Control" (res_headers r) = Some (cacheControlEdgeOnly 3)
             else failed (JsError "RangeError" (Response_status_error (up_status u)))
         | Throw e => failed e
         end
     | Rejected e => failed e
     end).
Proof.
  intros Hopt Hpath.
  assert (Hstep : forall r o,
            meta_endpoint env w (outside s) = (Ok r, o) ->
            step s (Arrive env w req) = returns r o s).
  { intros r o Hr. simpl. unfold fetch_start, to_inflight.
    apply String.eqb_neq in Hopt. rewrite Hopt, Hpath. eqb_literals. cbv iota zeta.
    unfold bind. rewrite Hr. reflexivity. }
  destruct (String.eqb_spec (SUBGRAPH_URL env) "") as [Hurl|Hurl].
  - eexists. split; [apply Hstep, meta_endpoint_unconfigured, Hurl|].
    split; [intros _; split; reflexivity | contradiction].
  - eexists. split; [apply Hstep, meta_endpoint_run, Hurl|].
    split; [contradiction|]. intros _. cbv zeta.
    assert (Hfail : forall e,
      let r := withCors (error_response (if isAbortTimeout e then 504 else 502)
                           "UPSTREAM_FETCH_FAILED" (String_of_exn e)) in
      res_status r = (if isAbortTimeout e then 504 else 502)%Z /\
      res_body r
        = Some (JSON_stringify
                  (VObj [("error", VStr "UPSTREAM_FETCH_FAILED");
                         ("message", VStr (String_of_exn e))])) /\
      headers_get "content-type" (res_headers r) = Some "application/json").
    { intros e r0. subst r0.
      destruct (error_response_shape (if isAbortTimeout e then 504 else 502)%Z
                  "UPSTREAM_FETCH_FAILED" (String_of_exn e)) as (H1 & H2 & H3 & _).
      auto. }
    destruct (net w _ _) as [e|u]; [apply Hfail|].
    destruct (up_text u) as [t|e]; [|apply Hfail].
    unfold new_Response.
    destruct ((200 <=? up_status u)%Z && (up_status u <=? 599)%Z); [|apply Hfail].
    match goal with |- context [withCors ?x] => destruct (withCors_keeps x) as (Hs & Hb & Hh) end.
    rewrite Hs, Hb, !Hh by (vm_compute; discriminate).
    split; [reflexivity|]. split; [reflexivity|].
    unfold headers_from. simpl.
    split; [rewrite !headers_get_set_ne by (vm_compute; discriminate);
            apply headers_get_set_eq; reflexivity|].
    split; [apply headers_get_set_eq; reflexivity|].
    split; [rewrite !headers_get_set_ne by (vm_compute; discriminate);
            apply headers_get_set_eq; reflexivity|].
    rewrite !headers_get_set_ne by (vm_compute; discriminate).
    apply headers_get_set_eq. reflexivity.
Qed.

(** X5, witness: a GET of [/meta] while the upstream answers with the
    status 999 is answered with 502. *)
Lemma meta_endpoint_passes_upstream_through_witness :
  let w := Demo.world (Demo.json_ok Demo.data_doc)
             (Fetched {| up_status := 999;
                         up_content_type := Some "application/json";
                         up_text := Ok "{}" |}) in
  let req := {| method := "GET";
                url := {| origin := "https://edge.example";
                          pathname := "/meta"; search := "" |};
                req_headers := ∅;
                req_text := Ok "" |} in
  exists r,
    replies (step (H := Demo.platform) boot (Arrive Demo.env w req)) = [(0%nat, r)] /\
    res_status r = 502%Z.
Proof.
  intros w req.
  destruct (meta_endpoint_passes_upstream_through (H := Demo.platform) Demo.env w req boot)
    as (r & Hstep & _ & Hup).
  - discriminate.
  - reflexivity.
  - exists r. split; [rewrite Hstep; reflexivity|].
    destruct (Hup ltac:(discriminate)) as (Hstatus & _). exact Hstatus.
Defined.

(** X6: a preflight is always answered. An OPTIONS request, to any path and
    in any environment, is answered at once with status 204 and no body,
    allowing any origin, the methods "POST, OPTIONS, GET" and the requested
    method ("POST" when [Access-Control-Request-Method] is absent or empty),
    the requested headers ("content-type" when
    [Access-Control-Request-Headers] is absent or empty), for 86400 seconds;
    no upstream call is issued, the in-flight map and the cache are left as
    they were. *)
Theorem preflight_always_answered `{Platform}
    (env : Env) (w : World) (req : Request) (s : Isolate) :
  method req = "OPTIONS" ->
  exists r,
    step s (Arrive env w req) = returns r (outside s) s /\
    res_status r = 204%Z /\
    res_body r = None /\
    headers_get "Access-Control-Allow-Origin" (res_headers r) = Some "*" /\
    headers_get "Access-Control-Allow-Methods" (res_headers r)
      = Some ("POST, OPTIONS, GET, " +:+
              or_default (headers_get "Access-Control-Request-Method" (req_headers req))
                "POST") /\
    headers_get "Access-Control-Allow-Headers" (res_headers r)
      = Some (or_default (headers_get "Access-Control-Request-Headers" (req_headers req))
                "content-type") /\
    headers_get "Access-Control-Max-Age" (res_headers r) = Some "86400".
Proof.
  intros Hopt. exists (handleOptions req). split.
  - simpl. unfold fetch_start, to_inflight. rewrite Hopt. reflexivity.
  - split; [reflexivity|]. split; [reflexivity|].
    split; [apply handleOptions_allows_any_origin|].
    unfold handleOptions, headers_from. simpl.
    split; [rewrite !headers_get_set_ne by (vm_compute; discriminate);
            apply headers_get_set_eq; reflexivity|].
    split; [rewrite !headers_get_set_ne by (vm_compute; discriminate);
            apply headers_get_set_eq; reflexivity|].
    apply headers_get_set_eq. reflexivity.
Qed.

(** X6, witness: a preflight for a DELETE to an unknown path, with an empty
    list of requested headers. *)
Lemma preflight_always_answered_witness :
  let req := {| method := "OPTIONS";
                url := {| origin := "https://edge.example";
                          pathname := "/nowhere"; search := "" |};
                req_headers :=
                  headers_from ∅ [("Access-Control-Request-Method", "DELETE");
                                  ("ACCESS-CONTROL-REQUEST-HEADERS", "")];
                req_text := Ok "" |} in
  exists r,
    step (H := Demo.platform) boot (Arrive {| SUBGRAPH_URL := "" |} Demo.w100 req)
      = returns r (outside boot) boot /\
    headers_get "Access-Control-Allow-Methods" (res_headers r)
      = Some "POST, OPTIONS, GET, DELETE" /\
    headers_get "Access-Control-Allow-Headers" (res_headers r) = Some "content-type".
Proof.
  intros req.
  destruct (preflight_always_answered (H := Demo.platform)
              {| SUBGRAPH_URL := "" |} Demo.w100 req boot)
    as (r & Hstep & _ & _ & _ & Hm & Hh & _).
  - reflexivity.
  - exists r. split; [exact Hstep|]. split; [exact Hm | exact Hh].
Defined.

(** ** What every response carries *)

Section ReplyFacts.
Context `{Platform}.

(** A property of the preflight answer and of every response that passed
    through [withCors] holds of every response returned. *)
Lemma replies_invariant (P : Response -> Prop) :
  (forall req, P (handleOptions req)) ->
  (forall r, P (withCors r)) ->
  forall s, reachable s -> forall t r, (t, r) ∈ replies s -> P r.
Proof.
  intros Hopt Hcors s [evs ->].
  assert (Hboot : forall t r, (t, r) ∈ replies boot -> P r).
  { intros t r Hin. apply elem_of_nil in Hin. contradiction. }
  revert Hboot. generalize boot.
  induction evs as [|ev evs IH]; intros s Hs; simpl; [exact Hs|].
  apply IH. clear IH evs.
  assert (Hresume : forall ttl x settled, P (fetch_resume ttl x settled)).
  { intros ttl x [v|e]; simpl; [|apply Hcors].
    destruct (makeTextResponse v ttl x); apply Hcors. }
  destruct ev as [env w req|t|pid w|addr]; simpl.
  - unfold fetch_start.
    destruct (to_inflight env w req (outside s)) as [[[r|p]|e] o] eqn:E; simpl.
    + intros t' r' Hin. apply elem_of_app in Hin as [Hin | Hin]; [eauto|].
      apply list_elem_of_singleton in Hin. injection Hin as -> ->.
      destruct (to_inflight_reply env w req _ _ r E)
        as [-> | [(r0 & -> & _) | (q & vars & cached & _ & _ & _ & _ & ->)]];
        [apply Hopt | apply Hcors | apply Hcors].
    + exact Hs.
    + intros t' r' Hin. apply elem_of_app in Hin as [Hin | Hin]; [eauto|].
      apply list_elem_of_singleton in Hin. injection Hin as -> ->. apply Hcors.
  - unfold reach. destruct (parked s !! t) as [job|]; [|exact Hs].
    unfold single_flight. destruct (inflight _ !! _); exact Hs.
  - unfold settle. destruct (pending s !! pid) as [job|]; [|exact Hs].
    destruct (work_answered _ w _ (outside s)) as [settled o]. simpl.
    intros t' r' Hin. apply elem_of_app in Hin as [Hin | Hin]; [eauto|].
    unfold resumed in Hin.
    apply list_elem_of_In, in_map_iff in Hin as (x & [= <- <-] & _). apply Hresume.
  - exact Hs.
Qed.

End ReplyFacts.

(** X7: every response the worker returns allows any origin. In every
    reachable state, each response returned so far (the preflight answer,
    the health and [/meta] answers, every rejection, a cache hit, the
    response built from an in-flight value, the internal-error response)
    carries [Access-Control-Allow-Origin: *] and a list of allowed methods
    that starts with "POST, OPTIONS, GET". *)
Theorem every_response_allows_any_origin `{Platform} (s : Isolate) (t : nat) (r : Response) :
  reachable s ->
  (t, r) ∈ replies s ->
  headers_get "Access-Control-Allow-Origin" (res_headers r) = Some "*" /\
  exists methods,
    headers_get "Access-Control-Allow-Methods" (res_headers r) = Some methods /\
    Str.startsWith methods "POST, OPTIONS, GET" = true.
Proof.
  intros Hreach Hin.
  apply (replies_invariant
           (fun r =>
              headers_get "Access-Control-Allow-Origin" (res_headers r) = Some "*" /\
              exists methods,
                headers_get "Access-Control-Allow-Methods" (res_headers r) = Some methods /\
                Str.startsWith methods "POST, OPTIONS, GET" = true)) with (s := s) (t := t);
    [| |exact Hreach|exact Hin].
  - intros req. split; [apply handleOptions_allows_any_origin|].
    eexists. split.
    + unfold handleOptions, headers_from. simpl.
      rewrite !headers_get_set_ne by (vm_compute; discriminate).
      apply headers_get_set_eq. reflexivity.
    + reflexivity.
  - intros r0. destruct (withCors_sets r0) as (Ho & Hm & _).
    split; [exact Ho|]. eexists. split; [exact Hm | reflexivity].
Qed.

(** X7, witness: the answer to a request for an unknown path. *)
Lemma every_response_allows_any_origin_witness :
  let req := {| method := "GET";
                url := {| origin := "https://edge.example";
                          pathname := "/nowhere"; search := "" |};
                req_headers := ∅;
                req_text := Ok "" |} in
  let s := run_events (H := Demo.platform) boot [Arrive Demo.env Demo.w100 req] in
  exists r,
    replies s = [(0%nat, r)] /\
    res_status r = 404%Z /\
    headers_get "Access-Control-Allow-Origin" (res_headers r) = Some "*".
Proof.
  intros req s. eexists. split; [reflexivity|]. split; [reflexivity|].
  apply (every_response_allows_any_origin (H := Demo.platform) s 0).
  - exists [Arrive Demo.env Demo.w100 req]. reflexivity.
  - apply list_elem_of_singleton. reflexivity.
Defined.

(** ** The work behind an in-flight promise *)

(** The probe of the demo worlds. *)
Lemma demo_probe (answer : FetchOutcome) (block : Z) (c : Outside) :
  fst (fetchSubgraphMetaBlock (H := Demo.platform) Demo.env
         (Demo.world answer (Demo.json_ok (Demo.meta_doc block))) c)
  = Ok (parseMetaBlockFromJsonText (H := Demo.platform)
          (Demo.stringify (Demo.meta_doc block))).
Proof. rewrite fetchSubgraphMetaBlock_run. reflexivity. Qed.

(** X8: a run of the async function of an in-flight promise writes at most
    the response entry and the progress record of its own key. Every other
    cache address holds afterwards what it held before; and a run that is
    not forced fresh writes at most the response entry: it neither stores
    nor updates a progress record. *)
Theorem work_writes_only_own_key `{Platform}
    (env : Env) (w : World) (p : Prepared) (c : Outside) :
  (forall addr,
      addr <> cacheReq p -> addr <> metaKeyUrlFrom (hashKey p) ->
      entries (snd (work env w p c)) !! addr = entries c !! addr) /\
  (forceFresh p = false ->
   forall addr, addr <> cacheReq p ->
     entries (snd (work env w p c)) !! addr = entries c !! addr).
Proof.
  rewrite work_run. cbv zeta.
  destruct (net w _ _) as [e|u]; [split; reflexivity|].
  destruct (up_text u) as [t|e]; [|split; reflexivity].
  destruct (okToCache _); [|split; reflexivity].
  destruct (forceFresh p).
  - split; [|discriminate].
    intros addr Hentry Hrecord.
    rewrite guard_run.
    destruct (probed env w) as [n|]; [|reflexivity].
    destruct (match recorded w (hashKey p) _ with Some _ => _ | None => _ end); [reflexivity|].
    destruct (put_fault w (metaKeyUrlFrom (hashKey p))), (put_fault w (cacheReq p));
      try destruct (makeTextResponse _ _ _); simpl;
      rewrite ?lookup_insert_ne by congruence; reflexivity.
  - split; intros; destruct (put_fault w (cacheReq p));
      try destruct (makeTextResponse _ _ _); simpl;
      rewrite ?lookup_insert_ne by congruence; reflexivity.
Qed.

(** X9: without a usable record the guard accepts. When the probe yields a
    counter [n] and the cache gives no recorded counter for the key (the
    lookup throws, finds no record, or finds one whose text is no finite
    number), the guard answers [true], for every [n]; it stores the record
    of [n] under the record address of the key and touches nothing else;
    and when that write fails the answer is still [true] and the cache is
    unchanged. *)
Theorem guard_accepts_without_record `{Platform}
    (env : Env) (w : World) (key : string) (c : Outside) (n : number) :
  fst (fetchSubgraphMetaBlock env w c) = Ok (Some n) ->
  recorded w key (entries c) = None ->
  fst (shouldWriteThroughCacheMetaGuard env w key c) = Ok true /\
  entries (snd (shouldWriteThroughCacheMetaGuard env w key c)) =
  match put_fault w (metaKeyUrlFrom key) with
  | Some _ => entries c
  | None => <[metaKeyUrlFrom key := meta_record n]> (entries c)
  end.
Proof.
  intros Hprobe Hnone.
  rewrite fetchSubgraphMetaBlock_run in Hprobe. simpl in Hprobe. injection Hprobe as Hprobe.
  rewrite guard_run, Hprobe, Hnone.
  destruct (put_fault w (metaKeyUrlFrom key)); split; reflexivity.
Qed.

(** X9, witness: the first forced-fresh read of a key, at block 100. *)
Lemma guard_accepts_without_record_witness :
  entries (snd (shouldWriteThroughCacheMetaGuard (H := Demo.platform) Demo.env Demo.w100 "k"
                  (Demo.around ∅)))
  = {[ metaKeyUrlFrom "k" := meta_record (H := Demo.platform) (int 100) ]}.
Proof.
  destruct (guard_accepts_without_record (H := Demo.platform)
              Demo.env Demo.w100 "k" (Demo.around ∅) (int 100)) as [_ Hentries].
  - apply demo_probe.
  - reflexivity.
  - rewrite Hentries. reflexivity.
Defined.



(** X11: what a miss stores is what a later hit serves. When the pending
    in-flight promise of a request that is not forced fresh settles with an
    upstream response that passes the cacheability test and the cache write
    works, the write puts, at the address of the key, the response built
    from that upstream response; and in every state in which the cache
    still holds that entry there (it has been neither evicted nor
    overwritten), every accepted request with that cache address that is not
    forced fresh and whose lookup works is answered at once with the
    upstream's status, body and content type, tagged HIT, without an
    upstream call. *)
Theorem stored_response_is_served `{Platform}
    (s : Isolate) (pid : nat) (env : Env) (p : Prepared) (w : World)
    (u : Upstream) (t : string) :
  pending s !! pid = Some {| job_env := env; job_prepared := p |} ->
  forceFresh p = false ->
  net w (SUBGRAPH_URL env) (query_body p) = Fetched u ->
  up_text u = Ok t ->
  okToCache (value_of u t) = true ->
  put_fault w (cacheReq p) = None ->
  exists stored,
    makeTextResponse (value_of u t) (ttl p) MISS = Ok stored /\
    cache (step s (Settle pid w)) !! cacheReq p = Some stored /\
    forall s' env' w' req' q vars,
      cache s' !! cacheReq p = Some stored ->
      accepted env' req' q vars ->
      wants_fresh req' = false ->
      cacheReq (prepare req' q vars) = cacheReq p ->
      match_fault w' (cacheReq p) = None ->
      exists r,
        replies (step s' (Arrive env' w' req')) = replies s' ++ [(next_task s', r)] /\
        res_status r = up_status u /\
        res_body r = Some t /\
        headers_get "content-type" (res_headers r)
          = Some (nullish (up_content_type u) "application/json") /\
        headers_get "X-Cache" (res_headers r) = Some "HIT" /\
        calls (step s' (Arrive env' w' req')) = calls s'.
Proof.
  intros Hjob Hff Hnet Htext Hok Hput.
  destruct (store_run w p u t MISS (sends (query_call env p) (outside s)) Hok)
    as (stored & Hbuilt & Hs & Hb & Hct & _).
  exists stored. split; [exact Hbuilt|]. split.
  - simpl. unfold settle, cache. rewrite Hjob. cbn [job_env job_prepared].
    pose proof (work_answered_entries env w p (outside s)) as E.
    destruct (work_answered env w p (outside s)) as [settled o].
    cbn [outside snd] in E |- *. rewrite E.
    rewrite work_run, Hnet, Htext. cbv zeta. rewrite Hok, Hff, Hput, Hbuilt.
    simpl. apply lookup_insert_eq.
  - intros s' env' w' req' q vars Hlook Hacc Hfresh Haddr Hfault.
    simpl. rewrite (fetch_start_accepted env' w' req' s' q vars Hacc), Hfresh, Haddr, Hfault,
      Hlook.
    exists (hit_response q stored). split; [reflexivity|].
    destruct (hit_response_shape q stored) as (H1 & H2 & H3 & _ & _ & H6).
    rewrite H1, H2, H6, Hs, Hb, Hct.
    repeat (split; [reflexivity || exact H3|]). reflexivity.
Qed.

(** X11, witness: the request of the examples misses, its promise settles
    at block 100, and the same request is served from the cache. *)
Lemma stored_response_is_served_witness :
  let s := run_events (H := Demo.platform) boot
             [Arrive Demo.env Demo.w100 (Demo.request false ""); Reach 0] in
  let s1 := step (H := Demo.platform) s (Settle 0 Demo.w100) in
  exists r,
    replies (step (H := Demo.platform) s1 (Arrive Demo.env Demo.w100 (Demo.request false "?cb=2")))
      = replies s1 ++ [(next_task s1, r)] /\
    res_body r = Some (Demo.stringify Demo.data_doc).
Proof.
  intros s s1.
  destruct (stored_response_is_served (H := Demo.platform) s 0 Demo.env (Demo.prepared false)
              Demo.w100
              {| up_status := 200;
                 up_content_type := Some "application/json";
                 up_text := Ok (Demo.stringify Demo.data_doc) |}
              (Demo.stringify Demo.data_doc))
    as (stored & _ & Hstored & Hserve).
  - vm_compute. reflexivity.
  - reflexivity.
  - reflexivity.
  - reflexivity.
  - vm_compute. reflexivity.
  - reflexivity.
  - destruct (Hserve s1 Demo.env Demo.w100 (Demo.request false "?cb=2")
                "query LotteryById($id: ID!){ lottery(id: $id) { id } }" Demo.vars_a)
      as (r & Hr & _ & Hb & _).
    + exact Hstored.
    + apply demo_request_accepted.
    + reflexivity.
    + reflexivity.
    + reflexivity.
    + exists r. split; [exact Hr | exact Hb].
Defined.

(** X12: a forced-fresh read writes through when the subgraph has not gone
    back. For a forced-fresh run whose upstream response passes the
    cacheability test, whose probe yields a counter [n] that is not below
    the recorded counter of the key (or there is none), and whose cache
    writes work: the run resolves to the upstream response, the cache holds
    afterwards the response built from it (tagged BYPASS_WRITE) at the
    address of the key, the progress record of [n] at the record address of
    the key unless that is the same address, and at every other address
    what it held before. *)
Theorem forced_fresh_writes_through `{Platform}
    (env : Env) (w : World) (p : Prepared) (c : Outside)
    (u : Upstream) (t : string) (n : number) :
  forceFresh p = true ->
  net w (SUBGRAPH_URL env) (query_body p) = Fetched u ->
  up_text u = Ok t ->
  okToCache (value_of u t) = true ->
  fst (fetchSubgraphMetaBlock env w c) = Ok (Some n) ->
  match recorded w (hashKey p) (entries c) with
  | Some old => num_lt n old = false
  | None => True
  end ->
  put_fault w (metaKeyUrlFrom (hashKey p)) = None ->
  put_fault w (cacheReq p) = None ->
  fst (work env w p c) = Ok (value_of u t) /\
  (exists toCache,
      makeTextResponse (value_of u t) (ttl p) BYPASS_WRITE = Ok toCache /\
      res_status toCache = up_status u /\
      res_body toCache = Some t /\
      headers_get "X-Cache" (res_headers toCache) = Some "BYPASS_WRITE" /\
      entries (snd (work env w p c)) !! cacheReq p = Some toCache) /\
  (cacheReq p <> metaKeyUrlFrom (hashKey p) ->
   entries (snd (work env w p c)) !! metaKeyUrlFrom (hashKey p) = Some (meta_record n)) /\
  (forall addr,
      addr <> cacheReq p -> addr <> metaKeyUrlFrom (hashKey p) ->
      entries (snd (work env w p c)) !! addr = entries c !! addr).
Proof.
  intros Hff Hnet Htext Hok Hprobe Hrec Hput1 Hput2.
  rewrite fetchSubgraphMetaBlock_run in Hprobe. simpl in Hprobe. injection Hprobe as Hprobe.
  destruct (store_run w p u t BYPASS_WRITE c Hok) as (toCache & Hbuilt & Hs & Hb & _ & Hx & _).
  rewrite work_run, Hnet, Htext. cbv zeta. rewrite Hok, Hff.
  rewrite guard_run, Hprobe, entries_sends.
  assert (Hpass : match recorded w (hashKey p) (entries c) with
                  | Some old => num_lt n old
                  | None => false
                  end = false).
  { destruct (recorded w (hashKey p) (entries c)); [exact Hrec | reflexivity]. }
  rewrite Hpass, Hput1, Hput2, Hbuilt. cbn [fst snd].
  split; [reflexivity|]. split; [|split].
  - exists toCache. split; [reflexivity|]. split; [exact Hs|]. split; [exact Hb|].
    split; [exact Hx|]. simpl. apply lookup_insert_eq.
  - intros Hne. simpl. rewrite lookup_insert_ne by exact Hne. apply lookup_insert_eq.
  - intros addr H1 H2. simpl. rewrite !lookup_insert_ne by congruence. reflexivity.
Qed.

(** X12, witness: the first forced-fresh read of the request of the
    examples, at block 100. *)
Lemma forced_fresh_writes_through_witness :
  let p := Demo.prepared true in
  res_body <$> entries (snd (work (H := Demo.platform) Demo.env Demo.w100 p (Demo.around ∅)))
                 !! cacheReq p
  = Some (Some (Demo.stringify Demo.data_doc)).
Proof.
  intros p.
  destruct (forced_fresh_writes_through (H := Demo.platform) Demo.env Demo.w100 p
              (Demo.around ∅)
              {| up_status := 200;
                 up_content_type := Some "application/json";
                 up_text := Ok (Demo.stringify Demo.data_doc) |}
              (Demo.stringify Demo.data_doc) (int 100))
    as (_ & (toCache & _ & _ & Hbody & _ & Hentry) & _).
  - reflexivity.
  - reflexivity.
  - reflexivity.
  - vm_compute. reflexivity.
  - apply demo_probe.
  - exact I.
  - reflexivity.
  - reflexivity.
  - rewrite Hentry. simpl. rewrite Hbody. reflexivity.
Defined.

(** X13: the cache never holds an error response, so a hit never serves
    one. In every reachable state every entry of the cache (a response
    entry or a progress record) has a status from 200 to 299, and every
    response returned so far that is tagged [X-Cache: HIT] has a status
    from 200 to 299. *)
Theorem cache_holds_only_success `{Platform} (s : Isolate) :
  reachable s ->
  (forall addr r, cache s !! addr = Some r -> (200 <= res_status r <= 299)%Z) /\
  (forall t r,
      (t, r) ∈ replies s ->
      headers_get "X-Cache" (res_headers r) = Some "HIT" ->
      (200 <= res_status r <= 299)%Z).
Proof.
  intros Hreach. destruct (reachable_cache_sound s Hreach) as (Hc & Hr & _).
  split; [exact Hc | exact Hr].
Qed.

(** X13, witness: a miss, the settling of its promise and a hit. *)
Lemma cache_holds_only_success_witness :
  let s := run_events (H := Demo.platform) boot
             [Arrive Demo.env Demo.w100 (Demo.request false "");
              Reach 0;
              Settle 0 Demo.w100;
              Arrive Demo.env Demo.w100 (Demo.request false "?cb=2")] in
  exists r,
    replies s !! 1%nat = Some (1%nat, r) /\
    headers_get "X-Cache" (res_headers r) = Some "HIT" /\
    (200 <= res_status r <= 299)%Z.
Proof.
  intros s.
  destruct (cache_holds_only_success (H := Demo.platform) s) as (_ & Hhits).
  - eexists. reflexivity.
  - pose (r := snd (nth 1 (replies s) (0%nat, plain "" 0))).
    exists r. split; [vm_compute; reflexivity|].
    assert (Htag : headers_get "X-Cache" (res_headers r) = Some "HIT")
      by (vm_compute; reflexivity).
    split; [exact Htag|].
    apply (Hhits 1%nat r); [|exact Htag].
    apply list_elem_of_lookup. exists 1%nat. vm_compute. reflexivity.
Defined.

(** ** The in-flight map drains *)

Section Drain.
Context `{Platform}.

Lemma consistent_idle (s : Isolate) :
  consistent s -> pending s = ∅ -> inflight s = ∅ /\ waiters s = [].
Proof.
  intros Hs Hempty. split.
  - apply map_eq. intros k. rewrite lookup_empty.
    destruct (inflight s !! k) as [pid|] eqn:Hk; [|reflexivity].
    destruct (slot_pending s Hs k pid Hk) as (job & Hjob & _).
    rewrite Hempty, lookup_empty in Hjob. discriminate.
  - destruct (waiters s) as [|x ws] eqn:Hw; [reflexivity|].
    destruct (waiters_pending s Hs x) as [job Hjob].
    + rewrite Hw. apply elem_of_cons. left. reflexivity.
    + rewrite Hempty, lookup_empty in Hjob. discriminate.
Qed.

Lemma settle_pending (pid : nat) (w : World) (s : Isolate) :
  pending (settle pid w s) = delete pid (pending s) /\
  parked (settle pid w s) = parked s /\
  next_task (settle pid w s) = next_task s.
Proof.
  unfold settle. destruct (pending s !! pid) as [job|] eqn:Hjob.
  - destruct (work_answered _ w _ (outside s)) as [settled c]. repeat split.
  - split; [|split; reflexivity]. symmetry. apply delete_id. exact Hjob.
Qed.

(** Settling the pending promises, one after the other, empties the
    in-flight map and answers every invocation that awaited one of them. *)
Lemma drain (w : World) (n : nat) :
  forall s, consistent s -> accounted s -> size (pending s) = n ->
  exists evs,
    Forall (fun ev => exists pid, ev = Settle pid w) evs /\ length evs = n /\
    inflight (run_events s evs) = ∅ /\
    pending (run_events s evs) = ∅ /\
    waiters (run_events s evs) = [] /\
    parked (run_events s evs) = parked s /\
    next_task (run_events s evs) = next_task s /\
    forall t, (t < next_task s)%nat ->
      (exists r, (t, r) ∈ replies (run_events s evs)) \/ is_Some (parked s !! t).
Proof.
  induction n as [|n IH]; intros s Hs Hacc Hsize.
  - apply map_size_empty_inv in Hsize.
    destruct (consistent_idle s Hs Hsize) as [Hi Hw].
    exists []. simpl. split; [constructor|]. split; [reflexivity|].
    split; [exact Hi|]. split; [exact Hsize|]. split; [exact Hw|].
    split; [reflexivity|]. split; [reflexivity|].
    intros t Ht. destruct (Hacc t Ht) as [Hr | [Hp | (x & Hx & _)]]; [auto | auto |].
    rewrite Hw in Hx. apply elem_of_nil in Hx. contradiction.
  - assert (Hne : pending s ≠ ∅).
    { apply map_size_non_empty_iff. lia. }
    destruct (map_choose _ Hne) as (pid & job & Hjob).
    destruct (settle_pending pid w s) as (Hpend & Hpark & Hnext).
    destruct (IH (step s (Settle pid w)))
      as (evs & Hall & Hlen & Hi & Hp & Hw & Hpk & Hnt & Hr).
    + apply consistent_step, Hs.
    + apply accounted_step, Hacc.
    + simpl. rewrite Hpend, map_size_delete_Some by eauto. lia.
    + exists (Settle pid w :: evs). simpl in *.
      split; [constructor; [exists pid; reflexivity | exact Hall]|].
      split; [lia|]. split; [exact Hi|]. split; [exact Hp|]. split; [exact Hw|].
      split; [congruence|]. split; [congruence|].
      intros t Ht. rewrite <- Hpark. apply Hr. rewrite Hnext. exact Ht.
Qed.

(** In an idle isolate a suspended invocation that resumes starts a
    promise, and when that promise settles the isolate is idle again and
    the invocation has its response. *)
Lemma resume_one (w : World) (s : Isolate) (t : nat) (job : Job) :
  consistent s -> pending s = ∅ -> parked s !! t = Some job ->
  let s' := run_events s [Reach t; Settle (next_promise s) w] in
  consistent s' /\ pending s' = ∅ /\
  parked s' = delete t (parked s) /\
  next_task s' = next_task s /\
  (exists r, (t, r) ∈ replies s') /\
  (forall t' r, (t', r) ∈ replies s -> (t', r) ∈ replies s').
Proof.
  intros Hs Hidle Hjob s'.
  destruct (consistent_idle s Hs Hidle) as [Hi Hw].
  assert (Hreach : reach t s =
            {| outside := fetch_sends (SUBGRAPH_URL (job_env job))
                            (query_body (job_prepared job)) (outside s);
               inflight := <[hashKey (job_prepared job) := next_promise s]> ∅;
               pending := <[next_promise s := job]> ∅;
               parked := delete t (parked s);
               waiters := [{| task := t; promise := next_promise s;
                              w_ttl := ttl (job_prepared job);
                              w_xCache := if forceFresh (job_prepared job)
                                          then BYPASS else MISS |}];
               next_promise := S (next_promise s);
               next_task := next_task s;
               replies := replies s |}).
  { rewrite (reach_parked t s job Hjob). unfold single_flight. simpl.
    rewrite Hi, lookup_empty, Hidle, Hw. destruct job. reflexivity. }
  subst s'. simpl. rewrite Hreach. unfold settle. simpl.
  rewrite lookup_insert_eq.
  destruct (work_answered_total (job_env job) w (job_prepared job)
              (fetch_sends (SUBGRAPH_URL (job_env job)) (query_body (job_prepared job))
                 (outside s))) as (v & o & ->).
  simpl. rewrite Nat.eqb_refl. simpl.
  assert (Hs' : consistent (settle (next_promise s) w (reach t s))).
  { apply consistent_settle, consistent_reach, Hs. }
  split.
  { apply (consistent_same (settle (next_promise s) w (reach t s))); [| | | |exact Hs'];
      rewrite Hreach; unfold settle; simpl; rewrite lookup_insert_eq;
      destruct (work_answered (job_env job) w (job_prepared job) _); simpl;
      rewrite ?Nat.eqb_refl; reflexivity. }
  split; [rewrite delete_insert_eq; apply delete_empty|].
  split; [reflexivity|]. split; [reflexivity|].
  split.
  - eexists. apply elem_of_app. right. unfold resumed. simpl. rewrite Nat.eqb_refl. simpl.
    apply list_elem_of_singleton. reflexivity.
  - intros t' r Hin. apply elem_of_app. left. exact Hin.
Qed.

(** From an idle isolate: the suspended invocations resume one after the
    other, each followed by the settling of the promise it starts. *)
Lemma resume_all (w : World) (n : nat) :
  forall s, consistent s -> pending s = ∅ -> size (parked s) = n ->
  exists evs,
    Forall (resumes_in w) evs /\ length evs = (2 * n)%nat /\
    consistent (run_events s evs) /\
    pending (run_events s evs) = ∅ /\
    parked (run_events s evs) = ∅ /\
    next_task (run_events s evs) = next_task s /\
    (forall t, is_Some (parked s !! t) -> exists r, (t, r) ∈ replies (run_events s evs)) /\
    (forall t r, (t, r) ∈ replies s -> (t, r) ∈ replies (run_events s evs)).
Proof.
  induction n as [|n IH]; intros s Hs Hidle Hsize.
  - apply map_size_empty_inv in Hsize.
    exists []. simpl. split; [constructor|]. split; [reflexivity|].
    split; [exact Hs|]. split; [exact Hidle|]. split; [exact Hsize|].
    split; [reflexivity|]. split; [|auto].
    intros t [job Hjob]. rewrite Hsize, lookup_empty in Hjob. discriminate.
  - assert (Hne : parked s ≠ ∅).
    { apply map_size_non_empty_iff. lia. }
    destruct (map_choose _ Hne) as (t & job & Hjob).
    destruct (resume_one w s t job Hs Hidle Hjob) as (Hs1 & Hidle1 & Hpark1 & Hnext1 & Hr1 & Hkeep1).
    set (s1 := run_events s [Reach t; Settle (next_promise s) w]) in *.
    destruct (IH s1 Hs1 Hidle1) as (evs & Hall & Hlen & Hs' & Hidle' & Hpark' & Hnext' & Hr' & Hkeep').
    { rewrite Hpark1, map_size_delete_Some by eauto. lia. }
    exists (Reach t :: Settle (next_promise s) w :: evs).
    change (run_events s (Reach t :: Settle (next_promise s) w :: evs))
      with (run_events s1 evs).
    split.
    { constructor; [left; eauto|]. constructor; [right; eauto | exact Hall]. }
    split; [simpl; lia|]. split; [exact Hs'|]. split; [exact Hidle'|].
    split; [exact Hpark'|]. split; [congruence|]. split; [|auto].
    intros t' [job' Hjob']. destruct (decide (t' = t)) as [->|Hne'].
    + destruct Hr1 as [r Hr]. exists r. apply Hkeep'. exact Hr.
    + apply Hr'. rewrite Hpark1, lookup_delete_ne by congruence. eauto.
Qed.

End Drain.

(** X15: the in-flight map drains. From every reachable state, settling
    the pending promises one after the other, in any world, ends after as
    many steps as there are pending promises in a state whose in-flight map
    is empty, where no promise is pending and no handler is suspended on
    one, and every invocation of [fetch] made so far has its response or is
    still suspended after its cache lookup; and letting each of these
    resume, followed by the settling of the promise it starts, ends in a
    state where the map is empty again, nothing is pending or suspended, and
    every invocation of [fetch] made so far has its response. *)
Theorem inflight_map_drains `{Platform} (s : Isolate) (w : World) :
  reachable s ->
  exists evs evs',
    Forall (fun ev => exists pid, ev = Settle pid w) evs /\
    length evs = size (pending s) /\
    inflight (run_events s evs) = ∅ /\
    pending (run_events s evs) = ∅ /\
    waiters (run_events s evs) = [] /\
    (forall t, (t < next_task s)%nat ->
       (exists r, (t, r) ∈ replies (run_events s evs)) \/ is_Some (parked s !! t)) /\
    Forall (resumes_in w) evs' /\
    length evs' = (2 * size (parked s))%nat /\
    inflight (run_events s (evs ++ evs')) = ∅ /\
    pending (run_events s (evs ++ evs')) = ∅ /\
    parked (run_events s (evs ++ evs')) = ∅ /\
    waiters (run_events s (evs ++ evs')) = [] /\
    forall t, (t < next_task s)%nat ->
      exists r, (t, r) ∈ replies (run_events s (evs ++ evs')).
Proof.
  intros Hreach.
  pose proof (reachable_consistent s Hreach) as Hs.
  destruct (drain w (size (pending s)) s Hs (reachable_accounted s Hreach) eq_refl)
    as (evs & Hall & Hlen & Hi & Hp & Hw & Hpk & Hnt & Hr).
  destruct (resume_all w (size (parked s)) (run_events s evs))
    as (evs' & Hall' & Hlen' & Hs' & Hp' & Hpk' & Hnt' & Hr' & Hkeep');
    [apply consistent_run, Hs | exact Hp | rewrite Hpk; reflexivity|].
  exists evs, evs'. rewrite run_events_app.
  destruct (consistent_idle _ Hs' Hp') as [Hi' Hw'].
  repeat (split; [assumption|]).
  intros t Ht. destruct (Hr t Ht) as [[r Hin] | Hpark].
  - exists r. apply Hkeep'. exact Hin.
  - apply Hr'. rewrite Hpk. exact Hpark.
Qed.

(** X15, witness: two requests for one key (their variables list the
    properties in different orders) share one pending promise; one settle
    event empties the map. *)
Lemma inflight_map_drains_witness :
  let other := {| method := "POST";
                  url := {| origin := "https://edge.example";
                            pathname := "/graphql"; search := "" |};
                  req_headers := ∅;
                  req_text := Ok (Demo.stringify (Demo.body_doc Demo.vars_b)) |} in
  let s := run_events (H := Demo.platform) boot
             [Arrive Demo.env Demo.w100 (Demo.request false "");
              Arrive Demo.env Demo.w100 other;
              Reach 0; Reach 1] in
  size (pending s) = 1%nat /\
  exists evs,
    length evs = 1%nat /\ inflight (run_events (H := Demo.platform) s evs) = ∅.
Proof.
  intros other s. split; [vm_compute; reflexivity|].
  destruct (inflight_map_drains (H := Demo.platform) s Demo.w90)
    as (evs & evs' & _ & Hlen & Hi & _).
  - eexists. reflexivity.
  - exists evs. split; [|exact Hi]. rewrite Hlen. vm_compute. reflexivity.
Defined.

Lemma within_elems_Forall (xs : list value) :
  fold_right (fun x acc => within_limits x /\ acc) True xs <-> Forall within_limits xs.
Proof.
  induction xs as [|x xs IH]; simpl.
  - split; [constructor | trivial].
  - rewrite IH, Forall_cons. reflexivity.
Qed.

Lemma within_props_Forall (kvs : list (string * value)) :
  within_limits (VObj kvs) <->
  Forall (fun kx =>
            within_prop (fst kx) (snd kx) /\
            (String.eqb (fst kx) "first" || String.eqb (fst kx) "skip" = false ->
             within_limits (snd kx))) kvs.
Proof.
  simpl. induction kvs as [|x xs IH]; simpl.
  - split; [constructor | trivial].
  - rewrite IH, Forall_cons. reflexivity.
Qed.

Lemma trunc_inject_Z (z : Z) : trunc (inject_Z z) = z.
Proof. unfold trunc, inject_Z. simpl. apply Z.quot_1_r. Qed.

Section ClampFixpoint.
Context `{Platform}.

Lemma clampNumberish_in_range (lo hi : Z) (x : value) :
  in_range lo hi x -> VNum (clampNumberish x lo hi) = x.
Proof.
  intros (z & -> & Hz). simpl. rewrite trunc_inject_Z.
  replace (Z.min (Z.max z lo) hi) with z by lia. reflexivity.
Qed.

(** A property that needs no clamping is left as it is by one iteration of
    the walk, provided the walk leaves its value as it is. *)
Lemma walk_prop_fixed (k : string) (x : value) :
  within_prop k x ->
  (String.eqb k "first" || String.eqb k "skip" = false -> walk x = x) ->
  walk_prop k x = x.
Proof.
  unfold within_prop, walk_prop.
  destruct (String.eqb k "first"); [intros Hr _; apply clampNumberish_in_range, Hr|].
  destruct (String.eqb k "skip"); [intros Hr _; apply clampNumberish_in_range, Hr|].
  simpl. intros Hlen Hw. specialize (Hw eq_refl).
  destruct (is_ids_key k); simpl; [|exact Hw].
  destruct x as [| | | | |xs|kvs]; simpl; try exact Hw.
  simpl in Hw. injection Hw as Hw. rewrite Hw, firstn_all2 by exact Hlen. reflexivity.
Qed.

Lemma walk_fixed (v : value) : within_limits v -> walk v = v.
Proof.
  induction v as [| | | | |xs IH|kvs IH] using value_ind'; try reflexivity.
  - simpl. rewrite within_elems_Forall. intros Hall. f_equal.
    induction xs as [|x xs IHxs]; [reflexivity|].
    apply Forall_cons in IH as [IHx IH]. apply Forall_cons in Hall as [Hx Hall].
    simpl. rewrite (IHx Hx), (IHxs IH Hall). reflexivity.
  - rewrite within_props_Forall, walk_obj. intros Hall. f_equal.
    induction kvs as [|[k x] kvs IHkvs]; [reflexivity|].
    apply Forall_cons in IH as [IHx IH]. apply Forall_cons in Hall as [[Hx Hbelow] Hall].
    simpl in *. rewrite (IHkvs IH Hall).
    rewrite (walk_prop_fixed k x Hx); [reflexivity|]. auto.
Qed.

Lemma within_prop_walk_prop (k : string) (x : value) : within_prop k (walk_prop k x).
Proof.
  unfold within_prop, walk_prop.
  destruct (String.eqb k "first").
  { destruct (clampNumberish_range x 1 200 ltac:(lia)) as (z & -> & Hz). exists z. auto. }
  destruct (String.eqb k "skip").
  { destruct (clampNumberish_range x 0 100000 ltac:(lia)) as (z & -> & Hz). exists z. auto. }
  destruct (is_ids_key k); simpl; [|exact I].
  destruct x as [| | | | |xs|kvs]; simpl; try exact I.
  rewrite length_firstn. lia.
Qed.

Lemma walk_within (v : value) : within_limits (walk v).
Proof.
  induction v as [| | | | |xs IH|kvs IH] using value_ind'; try exact I.
  - simpl. rewrite within_elems_Forall. apply Forall_map. exact IH.
  - rewrite walk_obj, within_props_Forall. apply Forall_map.
    eapply Forall_impl; [exact IH|]. intros [k x] IHx. simpl in *.
    split; [apply within_prop_walk_prop|].
    intros Hplain. unfold walk_prop.
    apply orb_false_iff in Hplain as [-> ->].
    destruct (is_ids_key k && isArray x); [|exact IHx].
    destruct (walk x) as [| | | | |ys|]; simpl in *; try exact I; try exact IHx.
    rewrite within_elems_Forall in *. apply Forall_take. exact IHx.
Qed.

End ClampFixpoint.

(** X16: the pagination clamp is idempotent. Clamping variables that have
    already been clamped changes nothing, so a client that resends the
    variables the upstream received gets the same cache key. *)
Theorem clampPagination_idempotent `{Platform} (query : string) (variables : value) :
  clampPagination (clampPagination variables) = clampPagination variables /\
  hashKeyOf query (clampPagination (clampPagination variables))
  = hashKeyOf query (clampPagination variables).
Proof.
  assert (E : clampPagination (clampPagination variables) = clampPagination variables).
  { unfold clampPagination. apply walk_fixed, walk_within. }
  split; [exact E|]. rewrite E. reflexivity.
Qed.

(** X17: the pagination clamp leaves variables within the limits as they
    are. When, at every depth, each [first] is an integer from 1 to 200,
    each [skip] an integer from 0 to 100000 and each array under a key
    [ids] or [*Ids] has at most 200 elements, [clampPagination] returns the
    variables unchanged: no property is added, removed, reordered or
    rewritten. *)
Theorem clampPagination_unchanged_within_limits `{Platform} (variables : value) :
  within_limits variables -> clampPagination variables = variables.
Proof. apply walk_fixed. Qed.

(** X17, witness: variables of a list query with a filter and a short list
    of ids. *)
Lemma clampPagination_unchanged_within_limits_witness :
  let vars :=
    VObj [("first", VNum (int 200)); ("skip", VNum (int 0));
          ("where", VObj [("creator", VStr "0xabc"); ("status", VNull)]);
          ("lotteryIds", VArr [VStr "1"; VStr "2"])] in
  clampPagination (H := Demo.platform) vars = vars.
Proof.
  intros vars.
  apply (clampPagination_unchanged_within_limits (H := Demo.platform) vars).
  simpl. unfold within_prop, in_range. simpl.
  repeat split; try discriminate; try lia; eauto.
  - exists 200%Z. split; [reflexivity | lia].
  - exists 0%Z. split; [reflexivity | lia].
Defined.


Lemma all_bytes_complete (b : N) : (b < 256)%N -> In b all_bytes.
Proof.
  intros Hb. unfold all_bytes. apply in_map_iff. exists (N.to_nat b).
  split; [apply N2Nat.id|]. apply in_seq. lia.
Qed.

Lemma hex2_checked :
  forallb (fun b =>
             match hex2 b with
             | String x (String y EmptyString) =>
                 match hex_digit x, hex_digit y with
                 | Some hx, Some hy => N.eqb (16 * hx + hy) b
                 | _, _ => false
                 end
             | _ => false
             end) all_bytes = true.
Proof. vm_compute. reflexivity. Qed.

(** The digits of a byte: two lower-case hexadecimal digits that spell
    it. *)
Lemma hex2_spec (b : N) :
  (b < 256)%N ->
  exists x y hx hy,
    hex2 b = String x (String y EmptyString) /\
    hex_digit x = Some hx /\ hex_digit y = Some hy /\ (16 * hx + hy)%N = b.
Proof.
  intros Hb. pose proof hex2_checked as Hall.
  rewrite forallb_forall in Hall. specialize (Hall b (all_bytes_complete b Hb)).
  destruct (hex2 b) as [|x [|y [|z rest]]]; try discriminate.
  destruct (hex_digit x) as [hx|] eqn:Hx; [|discriminate].
  destruct (hex_digit y) as [hy|] eqn:Hy; [|discriminate].
  apply N.eqb_eq in Hall. exists x, y, hx, hy.
  split; [reflexivity|]. split; [exact Hx|]. split; [exact Hy | exact Hall].
Qed.

Lemma hex_digit_no_slash (c : ascii) (h : N) : hex_digit c = Some h -> c <> "/"%char.
Proof. intros Hd ->. vm_compute in Hd. discriminate. Qed.

Lemma concat_nil_cons (s : string) (l : list string) :
  String.concat "" (s :: l) = s +:+ String.concat "" l.
Proof.
  destruct l as [|t l]; simpl.
  - induction s as [|c s IH]; [reflexivity|]. rewrite str_app_cons, <- IH. reflexivity.
  - reflexivity.
Qed.

(** The digits of a list of bytes. *)
Lemma hex_of_bytes (bs : list N) :
  octets bs ->
  let s := Str.join "" (map (fun b => padStart2 (toString16 b)) bs) in
  String.length s = (2 * length bs)%nat /\
  bytes_of_hex s = Some bs /\
  lacks "/" s.
Proof.
  unfold Str.join. induction 1 as [|b bs Hb _ IH]; [repeat split|].
  cbv zeta in *. destruct IH as (Hlen & Hdec & Hns).
  change (map (fun b0 => padStart2 (toString16 b0)) (b :: bs))
    with (hex2 b :: map (fun b0 => padStart2 (toString16 b0)) bs).
  rewrite concat_nil_cons.
  destruct (hex2_spec b Hb) as (x & y & hx & hy & -> & Hx & Hy & Hval).
  rewrite !str_app_cons, str_app_nil. split; [|split].
  - simpl. rewrite Hlen. lia.
  - simpl. rewrite Hx, Hy, Hdec, Hval. reflexivity.
  - simpl. split; [apply (hex_digit_no_slash x hx Hx)|].
    split; [apply (hex_digit_no_slash y hy Hy) | exact Hns].
Qed.

(** X18: the key is the digest in hexadecimal, two lower-case digits per
    byte, and the encoding loses nothing. For inputs whose digests are
    lists of bytes, [sha256Hex] yields a string of twice as many code units
    as the digest has bytes (64 for the 32 bytes of SHA-256), which reads
    back, pair of digits by pair of digits, as the digest; so two inputs get
    the same key exactly when their digests are equal. *)
Theorem sha256Hex_faithful `{Platform} (a b : string) :
  octets (SHA256 a) ->
  octets (SHA256 b) ->
  String.length (sha256Hex a) = (2 * length (SHA256 a))%nat /\
  (length (SHA256 a) = 32%nat -> String.length (sha256Hex a) = 64%nat) /\
  bytes_of_hex (sha256Hex a) = Some (SHA256 a) /\
  (sha256Hex a = sha256Hex b <-> SHA256 a = SHA256 b).
Proof.
  intros Ha Hb. unfold sha256Hex.
  destruct (hex_of_bytes (SHA256 a) Ha) as (Hlen & Hdec & _).
  destruct (hex_of_bytes (SHA256 b) Hb) as (_ & Hdec' & _).
  split; [exact Hlen|]. split; [intros H32; rewrite Hlen, H32; reflexivity|].
  split; [exact Hdec|]. split.
  - intros Heq. rewrite Heq, Hdec' in Hdec. congruence.
  - intros ->. reflexivity.
Qed.

Lemma demo_digest_octets (s : string) : octets (Demo.digest s).
Proof.
  unfold octets, Demo.digest. apply Forall_map, Forall_forall. intros c _.
  simpl. apply N_ascii_bounded.
Qed.

(** X18, witness: on the demo platform, whose digest of a string is the
    list of its code units. *)
Lemma sha256Hex_faithful_witness :
  sha256Hex (H := Demo.platform) "key" = "6b6579" /\
  bytes_of_hex (sha256Hex (H := Demo.platform) "key") = Some [107; 101; 121]%N.
Proof.
  split; [reflexivity|].
  destruct (sha256Hex_faithful (H := Demo.platform) "key" "other") as (_ & _ & Hdec & _).
  - apply demo_digest_octets.
  - apply demo_digest_octets.
  - exact Hdec.
Defined.

(** ** Cache addresses *)

Lemma split_last_slash_none (k : string) : lacks "/" k -> split_last_slash k = None.
Proof.
  induction k as [|c k IH]; [reflexivity|]. intros [Hc Hk]. simpl.
  rewrite (IH Hk). destruct (Ascii.eqb_spec c "/"); [contradiction | reflexivity].
Qed.

Lemma split_last_slash_app (d k : string) :
  lacks "/" k -> split_last_slash (d +:+ "/" +:+ k) = Some (d, k).
Proof.
  intros Hk. induction d as [|c d IH].
  - rewrite str_app_nil, str_app_cons, str_app_nil. simpl.
    rewrite (split_last_slash_none k Hk). reflexivity.
  - rewrite str_app_cons. simpl. rewrite IH. reflexivity.
Qed.

(** An address [<origin>/__cache/<key>] is no address
    [https://example.invalid/__meta/<key'>], for keys without a slash. *)
Lemma cache_address_not_meta (o k k' : string) :
  lacks "/" k -> lacks "/" k' ->
  url_toString {| origin := o; pathname := "/__cache/" +:+ k; search := "" |}
  <> metaKeyUrlFrom k'.
Proof.
  intros Hk Hk' Heq. unfold metaKeyUrlFrom, url_toString in Heq. simpl in Heq.
  assert (Hnil : forall s : string, s +:+ "" = s).
  { induction s as [|c s IH]; [reflexivity|]. rewrite str_app_cons, IH. reflexivity. }
  rewrite !Hnil in Heq.
  assert (E1 : o +:+ "/__cache/" +:+ k = (o +:+ "/__cache") +:+ "/" +:+ k).
  { rewrite str_app_assoc. reflexivity. }
  assert (E2 : "https://example.invalid" +:+ "/__meta/" +:+ k'
               = "https://example.invalid/__meta" +:+ "/" +:+ k').
  { reflexivity. }
  rewrite E1, E2 in Heq.
  apply (f_equal split_last_slash) in Heq.
  rewrite !split_last_slash_app in Heq by assumption.
  injection Heq as Hdir _.
  apply (f_equal split_last_slash) in Hdir.
  change (o +:+ "/__cache") with (o +:+ "/" +:+ "__cache") in Hdir.
  rewrite split_last_slash_app in Hdir by (vm_compute; intuition discriminate).
  vm_compute in Hdir. discriminate.
Qed.

Section Addresses.
Context `{Platform}.

Lemma hashKeyOf_no_slash (q : string) (vars : value) :
  (forall s, octets (SHA256 s)) -> lacks "/" (hashKeyOf q vars).
Proof.
  intros Hbytes. unfold hashKeyOf, sha256Hex.
  apply (hex_of_bytes _ (Hbytes _)).
Qed.

End Addresses.

(** X19: a response entry and a progress record never share a cache
    address. On a platform whose digests are lists of bytes, the address
    under which the handler looks up and stores the response of a request,
    [<origin>/__cache/<key>], differs from the address under which the
    guard keeps the progress record of any key,
    [https://example.invalid/__meta/<key'>], whatever the origin of the
    request; so a hit never serves a progress record and a record never
    overwrites a response. *)
Theorem record_and_entry_addresses_differ `{Platform}
    (req : Request) (q q' : string) (vars vars' : value) :
  (forall s, octets (SHA256 s)) ->
  cacheReq (prepare req q vars) <> metaKeyUrlFrom (hashKeyOf q' vars') /\
  cacheReq (prepare req q vars) <> metaKeyUrlFrom (hashKey (prepare req q vars)).
Proof.
  intros Hbytes. split; apply cache_address_not_meta; apply hashKeyOf_no_slash, Hbytes.
Qed.

(** X19, witness: the request of the examples on the demo platform. *)
Lemma record_and_entry_addresses_differ_witness :
  let p := prepare (H := Demo.platform) (Demo.request false "")
             "query LotteryById($id: ID!){ lottery(id: $id) { id } }" Demo.vars_a in
  String.eqb (cacheReq p) (metaKeyUrlFrom (hashKey p)) = false.
Proof.
  intros p. apply String.eqb_neq.
  destruct (record_and_entry_addresses_differ (H := Demo.platform)
              (Demo.request false "")
              "query LotteryById($id: ID!){ lottery(id: $id) { id } }"
              "query LotteryById($id: ID!){ lottery(id: $id) { id } }"
              Demo.vars_a Demo.vars_a demo_digest_octets) as [_ Hne].
  exact Hne.
Defined.

(** ** Where upstream calls and hits come from *)

Section Traces.
Context `{Platform}.

Lemma admitted_app (evs evs' : list Event) (env : Env) (p : Prepared) (t : nat) :
  admitted evs env p t -> admitted (evs ++ evs') env p t.
Proof.
  intros (before & w & req & after & q & vars & -> & Hrest).
  exists before, w, req, (after ++ evs'), q, vars.
  split; [rewrite <- app_assoc; reflexivity | exact Hrest].
Qed.

Lemma launched_app (evs evs' : list Event) (env : Env) (p : Prepared) (pid : nat) :
  launched evs env p pid -> launched (evs ++ evs') env p pid.
Proof.
  intros (before & t & after & -> & Hrest).
  exists before, t, (after ++ evs').
  split; [rewrite <- app_assoc; reflexivity | exact Hrest].
Qed.

Lemma settled_in_app (evs evs' : list Event) (env : Env) (p : Prepared) (pid : nat)
    (w : World) :
  settled_in evs env p pid w -> settled_in (evs ++ evs') env p pid w.
Proof.
  intros (before & after & -> & Hrest).
  exists before, (after ++ evs').
  split; [rewrite <- app_assoc; reflexivity | exact Hrest].
Qed.

Lemma fetched_for_app (evs evs' : list Event) (addr : string) (r : Response) :
  fetched_for evs addr r -> fetched_for (evs ++ evs') addr r.
Proof.
  intros (env & p & pid & w & u & body & tag & Hset & Hrest).
  exists env, p, pid, w, u, body, tag.
  split; [apply settled_in_app, Hset | exact Hrest].
Qed.

Lemma explained_app (evs evs' : list Event) (call : Call) :
  explained evs call -> explained (evs ++ evs') call.
Proof.
  intros [(env & w & req & Hin & Hrest) | [(env & p & pid & w & Hset & Hrest) |
          (env & p & pid & Hl & Hrest)]].
  - left. exists env, w, req. split; [apply in_or_app; left; exact Hin | exact Hrest].
  - right. left. exists env, p, pid, w. split; [apply settled_in_app, Hset | exact Hrest].
  - right. right. exists env, p, pid. split; [apply launched_app, Hl | exact Hrest].
Qed.

(** The cache after an invocation ran up to its response or its suspension,
    and after a suspended invocation resumed. *)
Lemma fetch_start_cache (env : Env) (w : World) (req : Request) (s : Isolate) :
  cache (fetch_start env w req s) = cache s.
Proof.
  destruct (to_inflight_frame env w req (outside s)) as [Hframe _].
  unfold fetch_start, cache.
  destruct (to_inflight env w req (outside s)) as [[[r|p]|e] c]; exact Hframe.
Qed.

Lemma reach_cache (t : nat) (s : Isolate) : cache (reach t s) = cache s.
Proof.
  unfold reach. destruct (parked s !! t) as [job|]; [|reflexivity].
  unfold single_flight. destruct (inflight _ !! _); reflexivity.
Qed.

Lemma fetch_start_pending (env : Env) (w : World) (req : Request) (s : Isolate) :
  pending (fetch_start env w req s) = pending s.
Proof.
  unfold fetch_start.
  destruct (to_inflight env w req (outside s)) as [[[r|p]|e] c]; reflexivity.
Qed.

(** An entry of the cache after a run of the async function was there
    before, or is a progress record of the key, or is the response built
    from the upstream's answer. *)
Lemma work_entries (env : Env) (w : World) (p : Prepared) (c : Outside)
    (addr : string) (r : Response) :
  entries (snd (work env w p c)) !! addr = Some r ->
  entries c !! addr = Some r \/
  addr = metaKeyUrlFrom (hashKey p) \/
  (addr = cacheReq p /\
   exists u body tag,
     net w (SUBGRAPH_URL env) (query_body p) = Fetched u /\
     up_text u = Ok body /\
     okToCache (value_of u body) = true /\
     makeTextResponse (value_of u body) (ttl p) tag = Ok r).
Proof.
  rewrite work_run. cbv zeta.
  destruct (net w _ _) as [e|u] eqn:Hnet; [simpl; auto|].
  destruct (up_text u) as [body|e] eqn:Htext; [|simpl; auto].
  destruct (okToCache (value_of u body)) eqn:Hok; [|simpl; auto].
  assert (Hput : forall tag (c1 : Outside),
            entries (match put_fault w (cacheReq p),
                           makeTextResponse (value_of u body) (ttl p) tag with
                     | None, Ok toCache => stores (cacheReq p) toCache c1
                     | _, _ => c1
                     end) !! addr = Some r ->
            entries c1 !! addr = Some r \/
            (addr = cacheReq p /\
             makeTextResponse (value_of u body) (ttl p) tag = Ok r)).
  { intros tag c1.
    destruct (put_fault w (cacheReq p)); [auto|].
    destruct (makeTextResponse (value_of u body) (ttl p) tag) as [toCache|e]; [|auto].
    simpl. destruct (decide (addr = cacheReq p)) as [->|Hne].
    - rewrite lookup_insert_eq. intros [= ->]. auto.
    - rewrite lookup_insert_ne by congruence. auto. }
  assert (Hbuilt : forall tag,
            addr = cacheReq p /\ makeTextResponse (value_of u body) (ttl p) tag = Ok r ->
            addr = cacheReq p /\
            exists u0 body0 tag0,
              Fetched u = Fetched u0 /\
              up_text u0 = Ok body0 /\
              okToCache (value_of u0 body0) = true /\
              makeTextResponse (value_of u0 body0) (ttl p) tag0 = Ok r).
  { intros tag [-> E]. split; [reflexivity|]. exists u, body, tag. auto. }
  destruct (forceFresh p).
  - rewrite guard_run.
    destruct (probed env w) as [n|]; [|simpl; auto].
    destruct (match recorded w (hashKey p) _ with Some _ => _ | None => _ end); [simpl; auto|].
    destruct (put_fault w (metaKeyUrlFrom (hashKey p))).
    + cbn [snd]. intros Hlook. destruct (Hput _ _ Hlook) as [Hold | Hnew]; [simpl in Hold; auto|].
      right. right. apply (Hbuilt _ Hnew).
    + cbn [snd]. intros Hlook. destruct (Hput _ _ Hlook) as [Hold | Hnew].
      * simpl in Hold. destruct (decide (addr = metaKeyUrlFrom (hashKey p))) as [->|Hne]; [auto|].
        rewrite lookup_insert_ne in Hold by congruence. auto.
      * right. right. apply (Hbuilt _ Hnew).
  - cbn [snd]. intros Hlook. destruct (Hput _ _ Hlook) as [Hold | Hnew]; [simpl in Hold; auto|].
    right. right. apply (Hbuilt _ Hnew).
Qed.

Lemma traced_nil : traced [].
Proof.
  split; [|split].
  - intros t job Hjob. simpl in Hjob. rewrite lookup_empty in Hjob. discriminate.
  - intros pid job Hjob. simpl in Hjob. rewrite lookup_empty in Hjob. discriminate.
  - intros call [].
Qed.

Lemma traced_snoc (evs : list Event) (ev : Event) : traced evs -> traced (evs ++ [ev]).
Proof.
  intros (Hpark & Hpend & Hcalls). unfold traced. cbv zeta. rewrite run_events_snoc.
  set (s := run_events boot evs) in *.
  split; [|split].
  - intros t job Hjob.
    destruct ev as [env w req|t0|pid w|addr]; cbn [step] in Hjob.
    + unfold fetch_start in Hjob.
      destruct (to_inflight env w req (outside s)) as [[[r|p]|e] o] eqn:E; simpl in Hjob;
        try (apply admitted_app, Hpark, Hjob).
      destruct (decide (t = next_task s)) as [->|Hne].
      * rewrite lookup_insert_eq in Hjob. injection Hjob as <-. cbn [job_env job_prepared].
        destruct (to_inflight_proceed_accepted _ _ _ _ _ _ E) as (_ & vars & Hacc & Hp & Hwhy).
        exists evs, w, req, [], (query p), vars.
        split; [reflexivity|]. split; [reflexivity|]. split; [exact Hacc|].
        split; [exact Hp | exact Hwhy].
      * rewrite lookup_insert_ne in Hjob by congruence. apply admitted_app, Hpark, Hjob.
    + apply admitted_app, Hpark. unfold reach in Hjob.
      destruct (parked s !! t0) as [job0|] eqn:E; [|exact Hjob].
      unfold single_flight in Hjob.
      destruct (inflight _ !! _) in Hjob; simpl in Hjob;
        apply lookup_delete_Some in Hjob as [_ Hjob]; exact Hjob.
    + apply admitted_app, Hpark.
      destruct (settle_pending pid w s) as (_ & <- & _). exact Hjob.
    + apply admitted_app, Hpark. exact Hjob.
  - intros pid job Hjob.
    destruct ev as [env w req|t0|pid0 w|addr]; cbn [step] in Hjob.
    + rewrite fetch_start_pending in Hjob. apply launched_app, Hpend, Hjob.
    + unfold reach in Hjob.
      destruct (parked s !! t0) as [job0|] eqn:E; [|apply launched_app, Hpend, Hjob].
      unfold single_flight in Hjob.
      change (inflight (unparks t0 s)) with (inflight s) in Hjob.
      destruct (inflight s !! hashKey (job_prepared job0)) as [existing|] eqn:Hslot;
        cbn [pending unparks next_promise] in Hjob.
      * apply launched_app, Hpend, Hjob.
      * destruct (decide (pid = next_promise s)) as [->|Hne].
        -- rewrite lookup_insert_eq in Hjob. injection Hjob as <-. cbn [job_env job_prepared].
           exists evs, t0, []. split; [reflexivity|].
           split; [apply (Hpark t0 job0 E)|].
           split; [destruct job0; exact E|]. split; [exact Hslot | reflexivity].
        -- rewrite lookup_insert_ne in Hjob by congruence. apply launched_app, Hpend, Hjob.
    + apply launched_app, Hpend.
      destruct (settle_pending pid0 w s) as (E & _). rewrite E in Hjob.
      apply lookup_delete_Some in Hjob as [_ Hjob]. exact Hjob.
    + apply launched_app, Hpend. exact Hjob.
  - intros call Hin. rewrite step_calls in Hin.
    apply in_app_or in Hin as [Hin | Hin]; [apply explained_app, Hcalls, Hin|].
    destruct ev as [env w req|t0|pid w|addr]; simpl in Hin; try contradiction.
    + destruct (meta_request env req) eqn:Hmeta; [|contradiction].
      destruct Hin as [<- | []]. left. exists env, w, req.
      split; [apply in_or_app; right; left; reflexivity | auto].
    + destruct (parked s !! t0) as [[env p]|] eqn:Hjob; [|contradiction].
      cbn [job_env job_prepared] in Hin.
      destruct (inflight s !! hashKey p) as [existing|] eqn:Hslot; [contradiction|].
      destruct Hin as [<- | []]. right. right. exists env, p, (next_promise s).
      split; [|reflexivity].
      exists evs, t0, []. split; [reflexivity|].
      split; [apply (Hpark t0 _ Hjob)|]. split; [exact Hjob|]. split; [exact Hslot | reflexivity].
    + destruct (pending s !! pid) as [[env p]|] eqn:Hjob; [|contradiction].
      assert (Hset : settled_in (evs ++ [Settle pid w]) env p pid w).
      { exists evs, []. split; [reflexivity|].
        split; [apply (Hpend pid _ Hjob) | exact Hjob]. }
      cbn [job_env job_prepared] in Hin. unfold probe_calls in Hin.
      destruct (consults_guard env w p) eqn:Hguard; [|contradiction].
      destruct Hin as [<- | []]. right. left. exists env, p, pid, w. auto.
Qed.

Lemma run_traced (evs : list Event) : traced evs.
Proof.
  induction evs as [|ev evs IH] using rev_ind; [exact traced_nil | apply traced_snoc, IH].
Qed.

Lemma stored_traced_snoc (evs : list Event) (ev : Event) :
  stored_traced evs -> stored_traced (evs ++ [ev]).
Proof.
  intros Hc addr r Hlook. rewrite run_events_snoc in Hlook.
  destruct (run_traced evs) as (_ & Hpend & _).
  set (s := run_events boot evs) in *.
  assert (Hold : cache s !! addr = Some r ->
                 (exists q vars, addr = metaKeyUrlFrom (hashKeyOf q vars)) \/
                 fetched_for (evs ++ [ev]) addr r).
  { intros Hin. destruct (Hc addr r Hin) as [Hm | Hf]; [left; exact Hm|].
    right. apply fetched_for_app, Hf. }
  destruct ev as [env w req|t0|pid w|a]; cbn [step] in Hlook.
  - rewrite fetch_start_cache in Hlook. auto.
  - rewrite reach_cache in Hlook. auto.
  - unfold settle in Hlook.
    destruct (pending s !! pid) as [[env p]|] eqn:Hjob; [|auto].
    cbn [job_env job_prepared] in Hlook.
    assert (E : entries (snd (work env w p (outside s))) !! addr = Some r).
    { rewrite <- work_answered_entries.
      destruct (work_answered env w p (outside s)) as [settled o]. exact Hlook. }
    destruct (work_entries env w p (outside s) addr r E)
      as [Hin | [-> | (-> & u & body & tag & Hnet & Htext & Hok & Hbuilt)]]; [auto| |].
    + left. destruct (Hpend pid _ Hjob)
        as (before & t & after & _ & (b0 & w0 & req & a0 & q & vars & _ & _ & _ & Hp & _) & _).
      cbn [job_prepared] in Hp. exists q, (clampPagination vars). rewrite Hp. reflexivity.
    + right. exists env, p, pid, w, u, body, tag.
      split; [|auto].
      exists evs, []. split; [reflexivity|]. split; [apply (Hpend pid _ Hjob) | exact Hjob].
  - unfold evict, cache in Hlook. simpl in Hlook.
    apply lookup_delete_Some in Hlook as [_ Hlook]. auto.
Qed.

Lemma run_stored_traced (evs : list Event) : stored_traced evs.
Proof.
  induction evs as [|ev evs IH] using rev_ind; [|apply stored_traced_snoc, IH].
  intros addr r Hlook. unfold cache in Hlook. simpl in Hlook.
  rewrite lookup_empty in Hlook. discriminate.
Qed.

Lemma hits_traced_snoc (evs : list Event) (ev : Event) :
  hits_traced evs -> hits_traced (evs ++ [ev]).
Proof.
  intros Hh t r Hin Hhit. rewrite run_events_snoc in Hin.
  assert (Hsound : cache_sound (run_events boot evs)).
  { apply reachable_cache_sound. exists evs. reflexivity. }
  destruct Hsound as (_ & _ & _ & Hw).
  set (s := run_events boot evs) in *.
  assert (Hold : (t, r) ∈ replies s ->
            exists before env w req after q vars stored,
              evs ++ [ev] = before ++ Arrive env w req :: after /\
              next_task (run_events boot before) = t /\
              accepted env req q vars /\
              wants_fresh req = false /\
              match_fault w (cacheReq (prepare req q vars)) = None /\
              cache (run_events boot before) !! cacheReq (prepare req q vars) = Some stored /\
              r = hit_response q stored).
  { intros Hin0.
    destruct (Hh t r Hin0 Hhit) as (before & env & w & req & after & q & vars & stored & -> & Hrest).
    exists before, env, w, req, (after ++ [ev]), q, vars, stored.
    split; [rewrite <- app_assoc; reflexivity | exact Hrest]. }
  destruct ev as [env w req|t0|pid w|a]; cbn [step] in Hin.
  - unfold fetch_start in Hin.
    destruct (to_inflight env w req (outside s)) as [[[r0|p]|e] o] eqn:E; simpl in Hin.
    + apply elem_of_app in Hin as [Hin | Hin]; [auto|].
      apply list_elem_of_singleton in Hin. injection Hin as -> ->.
      destruct (to_inflight_reply env w req _ _ r0 E)
        as [-> | [(r1 & -> & _ & Hx) | (q & vars & cached & Hacc & Hfresh & Hfault & Hlook & ->)]].
      * exfalso. revert Hhit. unfold handleOptions, headers_from. simpl.
        rewrite !headers_get_set_ne by (vm_compute; discriminate).
        unfold headers_get. rewrite lookup_empty. discriminate.
      * contradiction.
      * exists evs, env, w, req, [], q, vars, cached.
        split; [reflexivity|]. split; [reflexivity|]. split; [exact Hacc|].
        split; [exact Hfresh|]. split; [exact Hfault|]. split; [exact Hlook | reflexivity].
    + auto.
    + apply elem_of_app in Hin as [Hin | Hin]; [auto|].
      apply list_elem_of_singleton in Hin. injection Hin as -> ->.
      destruct (internal_error_shape e) as (_ & _ & _ & Hx). rewrite Hx in Hhit. discriminate.
  - apply Hold. unfold reach in Hin. destruct (parked s !! t0) as [job|]; [|exact Hin].
    unfold single_flight in Hin. destruct (inflight _ !! _) in Hin; exact Hin.
  - unfold settle in Hin. destruct (pending s !! pid) as [job|]; [|auto].
    destruct (work_answered_total (job_env job) w (job_prepared job) (outside s))
      as (v & o & Hwork).
    rewrite Hwork in Hin. simpl in Hin.
    apply elem_of_app in Hin as [Hin | Hin]; [auto|]. exfalso.
    unfold resumed in Hin.
    apply list_elem_of_In, in_map_iff in Hin as (x & [= <- <-] & Hx).
    apply filter_In in Hx as [Hx _]. apply list_elem_of_In in Hx.
    destruct (fetch_resume_sound (w_ttl x) (w_xCache x) v) as [_ Htag].
    apply (Htag (Hw x Hx)), Hhit.
  - auto.
Qed.

Lemma run_hits_traced (evs : list Event) : hits_traced evs.
Proof.
  induction evs as [|ev evs IH] using rev_ind; [|apply hits_traced_snoc, IH].
  intros t r Hin. simpl in Hin. apply elem_of_nil in Hin. contradiction.
Qed.

End Traces.

(** X2: the upstream is queried only for accepted requests that the cache
    does not answer. Every request that the worker has sent to the upstream
    after any sequence of events is one of three: the [__Meta] call of the
    [/meta] endpoint, for a request with any method but OPTIONS while the
    upstream is configured; the [__Meta] probe of the guard, in the run of
    a forced-fresh in-flight promise whose upstream response passed the
    cacheability test; or the query call of an in-flight promise. Such a
    promise was launched by an invocation of [fetch] whose request was a
    POST to [/graphql] with the upstream configured and a body that parses
    to a value whose [query] is a string of 1 to 60000 code units, that was
    forced fresh or whose cache lookup failed or found no entry for the key,
    and that found no slot for its key in the in-flight map when it resumed
    after the lookup. Each event adds to the requests sent exactly those of
    [calls_of]: nothing on a preflight, a rejection, a hit or the suspension
    of a handler on a pending promise. *)
Theorem upstream_call_only_when_accepted `{Platform} (evs : list Event) (call : Call) :
  In call (calls (run_events boot evs)) ->
  ((exists env w req,
       In (Arrive env w req) evs /\
       method req <> "OPTIONS" /\ pathname (url req) = "/meta" /\ SUBGRAPH_URL env <> "" /\
       call = meta_call env) \/
   (exists env p pid w,
       settled_in evs env p pid w /\
       forceFresh p = true /\ consults_guard env w p = true /\ call = meta_call env) \/
   (exists env p pid,
       launched evs env p pid /\ call = query_call env p)) /\
  (forall env p pid,
      launched evs env p pid ->
      exists e1 t e2 e0 w0 req e3 q vars,
        evs = e1 ++ Reach t :: e2 /\
        e1 = e0 ++ Arrive env w0 req :: e3 /\
        next_task (run_events boot e0) = t /\
        accepted env req q vars /\
        p = prepare req q vars /\
        (wants_fresh req = true \/
         is_Some (match_fault w0 (cacheReq p)) \/
         cache (run_events boot e0) !! cacheReq p = None) /\
        parked (run_events boot e1) !! t = Some {| job_env := env; job_prepared := p |} /\
        inflight (run_events boot e1) !! hashKey p = None /\
        next_promise (run_events boot e1) = pid /\
        calls (run_events boot (e1 ++ [Reach t]))
          = calls (run_events boot e1) ++ [query_call env p]) /\
  (forall s ev, calls (step s ev) = calls s ++ calls_of s ev).
Proof.
  intros Hin. split; [|split].
  - destruct (run_traced evs) as (_ & _ & Hcalls).
    destruct (Hcalls call Hin)
      as [(env & w & req & Hev & Hmeta & ->) | [(env & p & pid & w & Hset & Hguard & ->) |
          (env & p & pid & Hl & ->)]].
    + left. exists env, w, req. unfold meta_request in Hmeta.
      apply andb_prop in Hmeta as [Hmeta Hurl]. apply andb_prop in Hmeta as [Hopt Hpath].
      apply negb_true_iff, String.eqb_neq in Hopt, Hurl. apply String.eqb_eq in Hpath.
      auto.
    + right. left. exists env, p, pid, w.
      split; [exact Hset|]. split; [|auto].
      unfold consults_guard in Hguard. apply andb_prop in Hguard as [Hff _]. exact Hff.
    + right. right. exists env, p, pid. auto.
  - intros env p pid
      (b2 & t & a2 & -> & (b3 & w0 & req & a3 & q & vars & -> & Hadm) & Hparked & Hslot & Hpid).
    destruct Hadm as (Hnext & Hacc & Hprep & Hwhy).
    exists (b3 ++ Arrive env w0 req :: a3), t, a2, b3, w0, req, a3, q, vars.
    split; [reflexivity|]. split; [reflexivity|].
    repeat (split; [assumption|]).
    rewrite run_events_snoc, step_calls. simpl. rewrite Hparked. simpl. rewrite Hslot.
    reflexivity.
  - apply step_calls.
Qed.

(** X2, witness: the request of the examples misses and its handler
    resumes: one query call has been sent. *)
Lemma upstream_call_only_when_accepted_witness :
  let evs := [Arrive Demo.env Demo.w100 (Demo.request false ""); Reach 0] in
  let call := query_call (H := Demo.platform) Demo.env (Demo.prepared false) in
  calls (run_events (H := Demo.platform) boot evs) = [call] /\
  exists e1 t e2,
    evs = e1 ++ Reach t :: e2 /\
    inflight (run_events (H := Demo.platform) boot e1) !! hashKey (Demo.prepared false) = None.
Proof.
  intros evs call.
  assert (Hlog : calls (run_events (H := Demo.platform) boot evs) = [call])
    by (vm_compute; reflexivity).
  split; [exact Hlog|].
  destruct (upstream_call_only_when_accepted (H := Demo.platform) evs call) as (_ & Hchain & _).
  - rewrite Hlog. left. reflexivity.
  - destruct (Hchain Demo.env (Demo.prepared false) 0%nat)
      as (e1 & t & e2 & e0 & w0 & req & e3 & q & vars & E & _ & _ & _ & _ & _ & _ & Hslot & _).
    + exists [Arrive Demo.env Demo.w100 (Demo.request false "")], 0%nat, [].
      split; [reflexivity|]. split; [|vm_compute; auto].
      exists [], Demo.w100, (Demo.request false ""), [],
        "query LotteryById($id: ID!){ lottery(id: $id) { id } }", Demo.vars_a.
      split; [reflexivity|]. split; [reflexivity|].
      split; [apply demo_request_accepted|]. split; [vm_compute; reflexivity|].
      right. right. vm_compute; reflexivity.
    + exists e1, t, e2. split; [exact E | exact Hslot].
Defined.

(** X20: a hit serves what the upstream gave to an accepted request with
    the same cache address. On a platform whose digests are lists of bytes,
    after any sequence of events, every response tagged [X-Cache: HIT] is
    the answer to an invocation of [fetch] whose request was accepted and
    not forced fresh and whose lookup found an entry at the address of its
    key; that entry is the response built from what the upstream answered
    to the query call of an in-flight promise that had settled before,
    launched for an accepted request with the same cache address, and that
    answer had a success status and passed the cacheability test; the hit
    has its status, its body and its content type. So a hit never serves an
    upstream error, a response refused by the cacheability test, or a
    progress record. *)
Theorem hit_serves_an_upstream_success `{Platform}
    (evs : list Event) (t : nat) (r : Response) :
  (forall s, octets (SHA256 s)) ->
  (t, r) ∈ replies (run_events boot evs) ->
  headers_get "X-Cache" (res_headers r) = Some "HIT" ->
  exists before env w req after q vars stored env' p pid w' u body tag,
    evs = before ++ Arrive env w req :: after /\
    next_task (run_events boot before) = t /\
    accepted env req q vars /\
    wants_fresh req = false /\
    cache (run_events boot before) !! cacheReq (prepare req q vars) = Some stored /\
    r = hit_response q stored /\
    settled_in before env' p pid w' /\
    cacheReq p = cacheReq (prepare req q vars) /\
    net w' (SUBGRAPH_URL env') (query_body p) = Fetched u /\
    up_text u = Ok body /\
    (200 <= up_status u <= 299)%Z /\
    okToCache (value_of u body) = true /\
    makeTextResponse (value_of u body) (ttl p) tag = Ok stored /\
    res_status r = up_status u /\
    res_body r = Some body /\
    headers_get "content-type" (res_headers r)
      = Some (nullish (up_content_type u) "application/json").
Proof.
  intros Hbytes Hin Hhit.
  destruct (run_hits_traced evs t r Hin Hhit)
    as (before & env & w & req & after & q & vars & stored & Hevs & Hnext & Hacc & Hfresh &
        _ & Hlook & Hr).
  destruct (run_stored_traced before _ _ Hlook) as [(q' & vars' & Hmeta) | Hf].
  { exfalso. revert Hmeta. apply cache_address_not_meta; apply hashKeyOf_no_slash, Hbytes. }
  destruct Hf as (env' & p & pid & w' & u & body & tag & Hset & Haddr & Hnet & Htext & Hok & Hbuilt).
  exists before, env, w, req, after, q, vars, stored, env', p, pid, w', u, body, tag.
  destruct (store_run w' p u body tag (outside boot) Hok)
    as (toCache & Hbuilt' & Hs & Hb & Hct & _).
  rewrite Hbuilt in Hbuilt'. injection Hbuilt' as <-.
  destruct (hit_response_shape q stored) as (H1 & H2 & _ & _ & _ & H6).
  pose proof (value_of_status u body (okToCache_ok _ Hok)) as Hst.
  subst r. rewrite H1, H2, H6, Hs, Hb, Hct.
  repeat (split; [assumption || reflexivity|]). reflexivity.
Qed.

(** X20, witness: a miss, the resumption of its handler, the settling of
    its promise, and a hit. *)
Lemma hit_serves_an_upstream_success_witness :
  let evs := [Arrive Demo.env Demo.w100 (Demo.request false "");
              Reach 0;
              Settle 0 Demo.w100;
              Arrive Demo.env Demo.w100 (Demo.request false "?cb=2")] in
  let s := run_events (H := Demo.platform) boot evs in
  exists r u body,
    replies s !! 1%nat = Some (1%nat, r) /\
    okToCache (H := Demo.platform) (value_of u body) = true /\
    res_body r = Some body.
Proof.
  intros evs s.
  pose (r := snd (nth 1 (replies s) (0%nat, plain "" 0))).
  exists r.
  destruct (hit_serves_an_upstream_success (H := Demo.platform) evs 1%nat r demo_digest_octets)
    as (before & env & w & req & after & q & vars & stored & env' & p & pid & w' & u & body &
        tag & _ & _ & _ & _ & _ & _ & _ & _ & _ & _ & _ & Hok & _ & _ & Hbody & _).
  - apply list_elem_of_lookup. exists 1%nat. vm_compute. reflexivity.
  - vm_compute. reflexivity.
  - exists u, body. split; [vm_compute; reflexivity|]. split; [exact Hok | exact Hbody].
Defined.
Lemma str_app_nil_r (s : string) : s +:+ "" = s.
Proof. induction s as [|c s IH]; [reflexivity|]. rewrite str_app_cons, IH. reflexivity. Qed.

Lemma toLowerCase_app (a b : string) :
  Str.toLowerCase (a +:+ b) = Str.toLowerCase a +:+ Str.toLowerCase b.
Proof.
  induction a as [|c a IH]; [reflexivity|].
  rewrite str_app_cons. simpl. rewrite IH, str_app_cons. reflexivity.
Qed.

Lemma includes_toLowerCase (s p : string) :
  Str.includes s p = true -> Str.includes (Str.toLowerCase s) (Str.toLowerCase p) = true.
Proof.
  rewrite !includes_spec. intros (pre & post & ->).
  exists (Str.toLowerCase pre), (Str.toLowerCase post).
  rewrite !toLowerCase_app. reflexivity.
Qed.

(** *** [split] and [join] *)

Lemma split_comma_cons (s : string) : exists w ws, Str.split_comma s = w :: ws.
Proof.
  induction s as [|c s (w & ws & IH)]; simpl; [eauto|].
  destruct (Ascii.eqb c ","); [eauto|]. rewrite IH. eauto.
Qed.

Lemma split_comma_lacks (s : string) : Forall (lacks ",") (Str.split_comma s).
Proof.
  induction s as [|c s IH]; simpl; [repeat constructor|].
  destruct (Ascii.eqb_spec c ",") as [->|Hne].
  - constructor; [exact I | exact IH].
  - destruct (Str.split_comma s) as [|w ws]; [repeat constructor; assumption|].
    apply Forall_cons in IH as [Hw Hws]. constructor; [split; assumption | exact Hws].
Qed.

Lemma join_cons (sep x y : string) (l : list string) :
  Str.join sep (x :: y :: l) = x +:+ sep +:+ Str.join sep (y :: l).
Proof. reflexivity. Qed.

(** Joining the parts of a string with commas gives the string back. *)
Lemma join_split_comma (s : string) : Str.join "," (Str.split_comma s) = s.
Proof.
  induction s as [|c s IH]; [reflexivity|]. simpl.
  destruct (split_comma_cons s) as (w & ws & Hs). rewrite Hs in *.
  destruct (Ascii.eqb_spec c ",") as [->|Hne].
  - rewrite join_cons, IH. reflexivity.
  - destruct ws as [|w' ws].
    + unfold Str.join in *. simpl in *. rewrite IH. reflexivity.
    + rewrite join_cons in *. rewrite str_app_cons, IH. reflexivity.
Qed.

Lemma join_part (sep t : string) (l : list string) :
  In t l -> Str.includes (Str.join sep l) t = true.
Proof.
  rewrite includes_spec. induction l as [|x l IH]; [intros []|].
  destruct l as [|y l].
  - intros [<- | []]. exists "", "". unfold Str.join. simpl. rewrite str_app_nil_r. reflexivity.
  - rewrite join_cons. intros [<- | Hin].
    + exists "", (sep +:+ Str.join sep (y :: l)). reflexivity.
    + destruct (IH Hin) as (pre & post & ->).
      exists (x +:+ sep +:+ pre), post. rewrite !str_app_assoc. reflexivity.
Qed.

Lemma split_comma_part (s t : string) :
  In t (Str.split_comma s) -> Str.includes s t = true.
Proof.
  intros Hin. rewrite <- (join_split_comma s) at 1. apply join_part, Hin.
Qed.

(** Splitting what was joined with ", " gives the parts back, each but the
    first after a space. *)
Lemma split_comma_lacking (t : string) : lacks "," t -> Str.split_comma t = [t].
Proof.
  induction t as [|c t IH]; [reflexivity|]. intros [Hc Ht]. simpl.
  destruct (Ascii.eqb_spec c ","); [contradiction|]. rewrite (IH Ht). reflexivity.
Qed.

Lemma split_comma_app (t s : string) :
  lacks "," t -> Str.split_comma (t +:+ "," +:+ s) = t :: Str.split_comma s.
Proof.
  induction t as [|c t IH]; intros Ht.
  - reflexivity.
  - destruct Ht as [Hc Ht]. rewrite str_app_cons. simpl.
    destruct (Ascii.eqb_spec c ","); [contradiction|]. rewrite (IH Ht). reflexivity.
Qed.

Lemma split_comma_join (t : string) (ts : list string) :
  Forall (lacks ",") (t :: ts) ->
  Str.split_comma (Str.join ", " (t :: ts)) = t :: map (String " ") ts.
Proof.
  revert t. induction ts as [|t' ts IH]; intros t Hall.
  - apply Forall_cons in Hall as [Ht _]. apply split_comma_lacking, Ht.
  - apply Forall_cons in Hall as [Ht Hall]. rewrite join_cons.
    change (t +:+ ", " +:+ Str.join ", " (t' :: ts))
      with (t +:+ "," +:+ String " " (Str.join ", " (t' :: ts))).
    rewrite split_comma_app by exact Ht.
    change (Str.split_comma (String " " (Str.join ", " (t' :: ts))))
      with (match Str.split_comma (Str.join ", " (t' :: ts)) with
            | [] => [String " " ""]
            | w :: ws => String " " w :: ws
            end).
    rewrite (IH t' Hall). reflexivity.
Qed.

Lemma join_empty (sep : string) (l : list string) :
  sep <> "" -> Str.join sep l = "" -> l = [] \/ l = [""].
Proof.
  intros Hsep. destruct l as [|x [|y l]]; [auto | |].
  - unfold Str.join. simpl. intros ->. auto.
  - rewrite join_cons. intros Heq. exfalso.
    destruct x; [|discriminate]. rewrite str_app_nil in Heq.
    destruct sep; [contradiction | discriminate].
Qed.

(** *** [trim] *)

Lemma trimStart_suffix (s : string) : exists pre, s = pre +:+ Str.trimStart s.
Proof.
  induction s as [|c s (pre & IH)]; [exists ""; reflexivity|]. simpl.
  destruct (Str.is_space c).
  - exists (String c pre). rewrite str_app_cons, <- IH. reflexivity.
  - exists "". reflexivity.
Qed.

Lemma trimEnd_prefix (s : string) : exists post, s = Str.trimEnd s +:+ post.
Proof.
  induction s as [|c s (post & IH)]; [exists ""; reflexivity|]. simpl.
  destruct (Str.trimEnd s) as [|d t].
  - destruct (Str.is_space c).
    + exists (String c s). reflexivity.
    + exists s. reflexivity.
  - exists post. rewrite str_app_cons, <- IH. reflexivity.
Qed.

Lemma trim_part (s : string) : Str.includes s (Str.trim s) = true.
Proof.
  apply includes_spec. unfold Str.trim.
  destruct (trimStart_suffix s) as (pre & Hs).
  destruct (trimEnd_prefix (Str.trimStart s)) as (post & Ht).
  exists pre, post. rewrite <- Ht. exact Hs.
Qed.

Lemma lacks_trimStart (c : ascii) (s : string) : lacks c s -> lacks c (Str.trimStart s).
Proof.
  induction s as [|d s IH]; [trivial|]. intros [Hd Hs]. simpl.
  destruct (Str.is_space d); [auto | split; assumption].
Qed.

Lemma lacks_trimEnd (c : ascii) (s : string) : lacks c s -> lacks c (Str.trimEnd s).
Proof.
  induction s as [|d s IH]; [trivial|]. intros [Hd Hs]. simpl.
  specialize (IH Hs). destruct (Str.trimEnd s) as [|e t].
  - destruct (Str.is_space d); [exact I | split; [exact Hd | exact I]].
  - split; [exact Hd | exact IH].
Qed.

Lemma lacks_trim (c : ascii) (s : string) : lacks c s -> lacks c (Str.trim s).
Proof. intros Hs. apply lacks_trimEnd, lacks_trimStart, Hs. Qed.

Lemma trimEnd_idempotent (s : string) : Str.trimEnd (Str.trimEnd s) = Str.trimEnd s.
Proof.
  induction s as [|c s IH]; [reflexivity|]. simpl.
  destruct (Str.trimEnd s) as [|d t] eqn:Ht.
  - destruct (Str.is_space c) eqn:Hc; [reflexivity|]. simpl. rewrite Hc. reflexivity.
  - change (Str.trimEnd (String c (String d t)))
      with (match Str.trimEnd (String d t) with
            | EmptyString => if Str.is_space c then EmptyString else String c EmptyString
            | u => String c u
            end).
    rewrite IH. reflexivity.
Qed.

(** What [trimStart] leaves does not start with white space, and [trimEnd]
    keeps such a start. *)
Lemma trimStart_trimEnd (s : string) :
  Str.trimStart (Str.trimEnd (Str.trimStart s)) = Str.trimEnd (Str.trimStart s).
Proof.
  induction s as [|c s IH]; [reflexivity|]. simpl.
  destruct (Str.is_space c) eqn:Hc; [exact IH|].
  simpl. destruct (Str.trimEnd s) as [|d t]; rewrite ?Hc; simpl; rewrite Hc; reflexivity.
Qed.

Lemma trim_idempotent (s : string) : Str.trim (Str.trim s) = Str.trim s.
Proof.
  unfold Str.trim. rewrite trimStart_trimEnd. apply trimEnd_idempotent.
Qed.

Lemma trim_after_space (s : string) : Str.trim (String " " s) = Str.trim s.
Proof. reflexivity. Qed.

(** *** The [Vary] header under [withCors] *)

Lemma filter_map_comm {A B : Type} (f : A -> B) (p : B -> bool) (l : list A) :
  List.filter p (map f l) = map f (List.filter (fun x => p (f x)) l).
Proof.
  induction l as [|x l IH]; [reflexivity|]. simpl.
  destruct (p (f x)); simpl; rewrite IH; reflexivity.
Qed.

Lemma filter_all {A : Type} (p : A -> bool) (l : list A) :
  (forall x, In x l -> p x = true) -> List.filter p l = l.
Proof.
  induction l as [|x l IH]; [reflexivity|]. intros Hall. simpl.
  rewrite (Hall x (or_introl eq_refl)), IH; [reflexivity|].
  intros y Hy. apply Hall. right. exact Hy.
Qed.

(** The tokens of the cleaned value: those of the parts that were kept. *)
Lemma vary_tokens_join (ts : list string) :
  ts <> [] ->
  Forall (fun t => lacks "," t /\ Str.trim t = t) ts ->
  vary_tokens (Str.join ", " ts) = map Str.toLowerCase ts.
Proof.
  intros Hne Hall. destruct ts as [|t ts]; [contradiction|].
  unfold vary_tokens. rewrite split_comma_join.
  2:{ eapply Forall_impl; [exact Hall|]. intros x [Hx _]. exact Hx. }
  apply Forall_cons in Hall as [[_ Ht] Hall]. simpl. rewrite Ht. f_equal.
  rewrite map_map. clear Hne. induction Hall as [|x l [_ Hx] _ IH]; [reflexivity|].
  simpl. rewrite trim_after_space, Hx, IH. reflexivity.
Qed.

(** A value that nowhere reads "origin" has no token "origin". *)
Lemma vary_tokens_without_origin (v : string) :
  Str.includes (Str.toLowerCase v) "origin" = false ->
  forall t, In t (vary_tokens v) -> String.eqb t "origin" = false.
Proof.
  intros Hno t Hin. unfold vary_tokens in Hin.
  apply in_map_iff in Hin as (part & <- & Hpart).
  destruct (String.eqb_spec (Str.toLowerCase (Str.trim part)) "origin") as [Heq|]; [|reflexivity].
  exfalso. rewrite <- Heq in Hno.
  assert (Hinc : Str.includes v (Str.trim part) = true).
  { apply (includes_trans v part (Str.trim part)); [apply trim_part|].
    apply split_comma_part, Hpart. }
  apply includes_toLowerCase in Hinc. congruence.
Qed.

(** X21: [withCors] takes [Origin] out of [Vary] and nothing else. For
    every response: without a [Vary] header the result has none; with one,
    the field names listed by the result's [Vary] header (its
    comma-separated parts, trimmed, letter case apart) are those of the
    input's, in order, except "origin"; and the result has no [Vary] header
    only when the input's listed nothing but "origin" and at most one empty
    name. So the result never lists "origin". *)
Theorem withCors_drops_origin_from_vary (r : Response) :
  match headers_get "Vary" (res_headers r) with
  | None => headers_get "Vary" (res_headers (withCors r)) = None
  | Some v =>
      match headers_get "Vary" (res_headers (withCors r)) with
      | Some v' =>
          vary_tokens v'
          = List.filter (fun t => negb (String.eqb t "origin")) (vary_tokens v) /\
          ~ In "origin" (vary_tokens v')
      | None =>
          List.filter (fun t => negb (String.eqb t "origin")) (vary_tokens v) = [] \/
          List.filter (fun t => negb (String.eqb t "origin")) (vary_tokens v) = [""]
      end
  end.
Proof.
  unfold withCors. simpl res_headers.
  set (h3 := headers_set "Access-Control-Allow-Headers" _ _).
  assert (Hh3 : headers_get "Vary" h3 = headers_get "Vary" (res_headers r)).
  { subst h3. rewrite !headers_get_set_ne by (vm_compute; discriminate). reflexivity. }
  rewrite Hh3. destruct (headers_get "Vary" (res_headers r)) as [v|]; [|exact Hh3].
  assert (Hnot : forall l : list string,
             ~ In "origin" (List.filter (fun t => negb (String.eqb t "origin")) l)).
  { intros l Hin. apply filter_In in Hin as [_ Hin]. discriminate Hin. }
  assert (Hsame : Str.includes (Str.toLowerCase v) "origin" = false ->
                  vary_tokens v
                  = List.filter (fun t => negb (String.eqb t "origin")) (vary_tokens v)).
  { intros Hno. symmetry. apply filter_all. intros t Ht.
    rewrite (vary_tokens_without_origin v Hno t Ht). reflexivity. }
  destruct (String.eqb_spec v "") as [->|Hv]; simpl negb; cbv iota.
  { simpl andb. cbv iota. rewrite Hh3. split; [reflexivity|].
    vm_compute. intros [Heq|[]]. discriminate. }
  simpl andb.
  destruct (Str.includes (Str.toLowerCase v) "origin") eqn:Hinc; cbv iota.
  2:{ rewrite Hh3. split; [apply Hsame; reflexivity|]. rewrite (Hsame eq_refl). apply Hnot. }
  set (kept := List.filter (fun t => negb (String.eqb (Str.toLowerCase t) "origin"))
                           (map Str.trim (Str.split_comma v))).
  assert (Htokens : map Str.toLowerCase kept
                    = List.filter (fun t => negb (String.eqb t "origin")) (vary_tokens v)).
  { subst kept. unfold vary_tokens.
    rewrite <- (map_map Str.trim Str.toLowerCase (Str.split_comma v)).
    rewrite (filter_map_comm Str.toLowerCase). reflexivity. }
  assert (Hkept : Forall (fun t => lacks "," t /\ Str.trim t = t) kept).
  { subst kept. apply Forall_forall. intros t Ht.
    apply list_elem_of_In, filter_In in Ht as [Ht _].
    apply in_map_iff in Ht as (part & <- & Hpart). split.
    - apply lacks_trim. pose proof (split_comma_lacks v) as Hall.
      rewrite Forall_forall in Hall. apply Hall, list_elem_of_In, Hpart.
    - apply trim_idempotent. }
  destruct (String.eqb_spec (Str.join ", " kept) "") as [Hempty|Hfull]; simpl negb; cbv iota.
  - unfold headers_get, headers_delete. rewrite lookup_delete_eq.
    rewrite <- Htokens.
    destruct (join_empty ", " kept ltac:(discriminate) Hempty) as [-> | ->]; auto.
  - rewrite headers_get_set_eq by reflexivity.
    assert (Hne : kept <> []) by (intros Hnil; apply Hfull; rewrite Hnil; reflexivity).
    rewrite (vary_tokens_join kept Hne Hkept), Htokens.
    split; [reflexivity | apply Hnot].
Qed.

Lemma StronglySorted_filter {A : Type} (R : A -> A -> Prop) (p : A -> bool) (l : list A) :
  StronglySorted R l -> StronglySorted R (List.filter p l).
Proof.
  induction 1 as [|a l Hl IH Ha]; simpl; [constructor|].
  destruct (p a); [|exact IH].
  constructor; [exact IH|].
  apply Forall_forall. intros x Hx. apply list_elem_of_In, filter_In in Hx as [Hx _].
  rewrite Forall_forall in Ha. apply Ha, list_elem_of_In, Hx.
Qed.

Lemma Permutation_filter_bool {A : Type} (p : A -> bool) (l l' : list A) :
  l ≡ₚ l' -> List.filter p l ≡ₚ List.filter p l'.
Proof.
  induction 1 as [|x l l' _ IH|x y l|l l' l'' _ IH1 _ IH2]; simpl.
  - reflexivity.
  - destruct (p x); [rewrite IH|]; auto.
  - destruct (p x), (p y); try reflexivity. apply perm_swap.
  - rewrite IH1. exact IH2.
Qed.

(** Sorting and leaving out a key commute. *)
Lemma sort_keys_filter (p : string -> bool) (ks : list string) :
  List.filter p (sort_keys ks) = sort_keys (List.filter p ks).
Proof.
  unfold sort_keys. apply (Sorted_unique String.le).
  - apply StronglySorted_Sorted, StronglySorted_filter, StronglySorted_merge_sort; apply _.
  - apply Sorted_merge_sort. apply _.
  - etransitivity; [apply Permutation_filter_bool, merge_sort_Permutation|].
    symmetry. apply merge_sort_Permutation.
Qed.

Lemma fold_left_ext_on {A B : Type} (f g : A -> B -> A) (l : list B) (a : A) :
  (forall a b, In b l -> f a b = g a b) -> fold_left f l a = fold_left g l a.
Proof.
  revert a. induction l as [|b l IH]; intros a Hfg; simpl; [reflexivity|].
  rewrite (Hfg a b (or_introl eq_refl)). apply IH.
  intros a' b' Hb'. apply Hfg. right. exact Hb'.
Qed.

Lemma fold_left_skip {A B : Type} (f : A -> B -> A) (p : B -> bool) (l : list B) (a : A) :
  (forall a b, p b = false -> f a b = a) ->
  fold_left f l a = fold_left f (List.filter p l) a.
Proof.
  intros Hskip. revert a. induction l as [|b l IH]; intros a; simpl; [reflexivity|].
  destruct (p b) eqn:Hb; simpl; [apply IH|]. rewrite (Hskip a b Hb). apply IH.
Qed.

Lemma obj_get_without_proto (kvs : list (string * value)) (k : string) :
  k <> "__proto__" -> obj_get (without_proto kvs) k = obj_get kvs k.
Proof.
  intros Hk. unfold without_proto. induction kvs as [|[k' x] kvs IH]; [reflexivity|].
  cbn [List.filter fst].
  destruct (String.eqb_spec k' "__proto__") as [->|Hne]; cbn [negb obj_get].
  - rewrite IH. destruct (String.eqb_spec "__proto__" k); [congruence | reflexivity].
  - rewrite IH. reflexivity.
Qed.

Lemma keys_without_proto (kvs : list (string * value)) :
  keys (without_proto kvs)
  = List.filter (fun k => negb (String.eqb k "__proto__")) (keys kvs).
Proof.
  unfold keys, without_proto. induction kvs as [|[k x] kvs IH]; [reflexivity|].
  cbn [List.filter map fst].
  destruct (String.eqb k "__proto__"); cbn [negb map fst]; rewrite IH; reflexivity.
Qed.

(** [helper] drops a property named [__proto__]: the assignment
    [out["__proto__"] = ...] adds no own property. *)
Lemma helper_without_proto (kvs : list (string * value)) :
  helper (VObj kvs) = helper (VObj (without_proto kvs)).
Proof.
  rewrite !helper_obj. f_equal.
  rewrite keys_without_proto, <- sort_keys_filter.
  rewrite (fold_left_skip _ (fun k => negb (String.eqb k "__proto__"))).
  2:{ intros out k Hk. apply negb_false_iff in Hk. unfold obj_set. rewrite Hk. reflexivity. }
  apply fold_left_ext_on. intros out k Hk.
  apply filter_In in Hk as [_ Hk]. apply negb_true_iff, String.eqb_neq in Hk.
  rewrite (obj_get_without_proto kvs k Hk). reflexivity.
Qed.

(** The canonical form of the hashed object depends on the variables
    through their canonical form only. *)
Lemma helper_payload (query : string) (x y : value) :
  helper x = helper y ->
  helper (VObj [("v", VNum (int 7)); ("query", VStr query); ("variables", x)]) =
  helper (VObj [("v", VNum (int 7)); ("query", VStr query); ("variables", y)]).
Proof.
  intros Hxy. rewrite !helper_obj. f_equal.
  apply fold_left_ext_in. intros out k. f_equal. cbn [obj_get].
  destruct (String.eqb "v" k); [reflexivity|].
  destruct (String.eqb "query" k); [reflexivity|].
  destruct (String.eqb "variables" k); [exact Hxy | reflexivity].
Qed.

(** X22: a property named [__proto__] does not enter the cache key. For
    every variables object, the canonical string and the cache key are
    those of the object without its own property [__proto__], also after
    the pagination clamp: the loop of [canonicalStringify] assigns
    [out["__proto__"]], which adds no own property to [out], so the
    property is not serialized. Two requests whose variables differ in
    that property only share one cache entry. *)
Theorem canonical_form_ignores_proto `{Platform}
    (query : string) (kvs : list (string * value)) :
  canonicalStringify (VObj kvs) = canonicalStringify (VObj (without_proto kvs)) /\
  hashKeyOf query (VObj kvs) = hashKeyOf query (VObj (without_proto kvs)) /\
  hashKeyOf query (clampPagination (VObj kvs))
  = hashKeyOf query (clampPagination (VObj (without_proto kvs))).
Proof.
  assert (Hkey : forall x y, helper x = helper y -> hashKeyOf query x = hashKeyOf query y).
  { intros x y Hxy. unfold hashKeyOf, canonicalStringify.
    rewrite (helper_payload query x y Hxy). reflexivity. }
  split; [|split].
  - unfold canonicalStringify. rewrite helper_without_proto. reflexivity.
  - apply Hkey, helper_without_proto.
  - apply Hkey. unfold clampPagination. rewrite !walk_obj.
    rewrite helper_without_proto. f_equal. f_equal.
    unfold without_proto.
    rewrite (filter_map_comm (fun kx : string * value => (fst kx, walk_prop (fst kx) (snd kx)))).
    reflexivity.
Qed.

(** ** The canonical form tells payloads apart *)

Lemma proto_elems_Forall (xs : list value) :
  fold_right (fun x acc => proto_free x /\ acc) True xs <-> Forall proto_free xs.
Proof.
  induction xs as [|x xs IH]; simpl.
  - split; [constructor | trivial].
  - rewrite IH, Forall_cons. reflexivity.
Qed.

Lemma proto_props_Forall (kvs : list (string * value)) :
  fold_right (fun kx acc => proto_free (snd kx) /\ acc) True kvs <->
  Forall (fun kx => proto_free (snd kx)) kvs.
Proof.
  induction kvs as [|x xs IH]; simpl.
  - split; [constructor | trivial].
  - rewrite IH, Forall_cons. reflexivity.
Qed.

Lemma keys_app (l1 l2 : list (string * value)) : keys (l1 ++ l2) = keys l1 ++ keys l2.
Proof. unfold keys. apply map_app. Qed.

Lemma obj_has_false (kvs : list (string * value)) (k : string) :
  ~ In k (keys kvs) -> obj_has kvs k = false.
Proof.
  intros Hnot. unfold obj_has. destruct (existsb (String.eqb k) (keys kvs)) eqn:E; [|reflexivity].
  apply existsb_exists in E as (k' & Hin & Heq). apply String.eqb_eq in Heq. subst k'.
  contradiction.
Qed.

Lemma obj_insert_index_split (kvs : list (string * value)) (i : N) (k : string) (x : value) :
  exists l1 l2, kvs = l1 ++ l2 /\ obj_insert_index kvs i k x = l1 ++ (k, x) :: l2.
Proof.
  induction kvs as [|[k' y] kvs (l1 & l2 & Hk & IH)]; simpl.
  - exists [], []. split; reflexivity.
  - destruct (array_index k') as [j|].
    + destruct (j <? i)%N.
      * exists ((k', y) :: l1), l2. rewrite IH, Hk. split; reflexivity.
      * exists [], ((k', y) :: kvs). split; reflexivity.
    + exists [], ((k', y) :: kvs). split; reflexivity.
Qed.

(** Assigning a new property other than [__proto__] puts it somewhere
    among the others, which stay as they are. *)
Lemma obj_set_fresh (out : list (string * value)) (k : string) (x : value) :
  k <> "__proto__" -> ~ In k (keys out) ->
  exists l1 l2, out = l1 ++ l2 /\ obj_set out k x = l1 ++ (k, x) :: l2.
Proof.
  intros Hk Hnew. unfold obj_set.
  apply String.eqb_neq in Hk. rewrite Hk, (obj_has_false out k Hnew).
  destruct (array_index k) as [i|]; [apply obj_insert_index_split|].
  exists out, []. rewrite app_nil_r. split; reflexivity.
Qed.

Lemma obj_get_middle (l1 l2 : list (string * value)) (k k' : string) (x : value) :
  ~ In k (keys l1) ->
  obj_get (l1 ++ (k, x) :: l2) k' = if String.eqb k k' then x else obj_get (l1 ++ l2) k'.
Proof.
  induction l1 as [|[k1 x1] l1 IH]; intros Hnot; [reflexivity|].
  cbn [app obj_get]. simpl in Hnot.
  destruct (String.eqb_spec k1 k') as [->|Hne].
  - destruct (String.eqb_spec k k') as [->|_]; [|reflexivity].
    exfalso. apply Hnot. left. reflexivity.
  - apply IH. intros Hin. apply Hnot. right. exact Hin.
Qed.

(** The loop of [helper] over fresh keys: the result has the old and the
    new keys, and holds under each new key the value assigned to it. *)
Lemma fold_obj_set (f : string -> value) (ks : list string) :
  forall out : list (string * value),
    NoDup ks -> ~ In "__proto__" ks -> (forall k, In k ks -> ~ In k (keys out)) ->
    keys (fold_left (fun out k => obj_set out k (f k)) ks out) ≡ₚ keys out ++ ks /\
    (forall k, In k ks ->
       obj_get (fold_left (fun out k => obj_set out k (f k)) ks out) k = f k) /\
    (forall k, ~ In k ks ->
       obj_get (fold_left (fun out k => obj_set out k (f k)) ks out) k = obj_get out k).
Proof.
  induction ks as [|k ks IH]; intros out Hnd Hproto Hfresh; simpl.
  - rewrite app_nil_r. split; [reflexivity|]. split; [intros k []|reflexivity].
  - apply NoDup_cons in Hnd as [Hk Hnd]. rewrite list_elem_of_In in Hk.
    destruct (obj_set_fresh out k (f k)) as (l1 & l2 & Hout & Hset).
    { intros ->. apply Hproto. left. reflexivity. }
    { apply Hfresh. left. reflexivity. }
    assert (Hkeys : keys (obj_set out k (f k)) ≡ₚ k :: keys out).
    { rewrite Hset, Hout, !keys_app. simpl. rewrite <- Permutation_middle. reflexivity. }
    assert (Hl1 : ~ In k (keys l1)).
    { intros Hin. apply (Hfresh k (or_introl eq_refl)).
      rewrite Hout, keys_app. apply in_or_app. left. exact Hin. }
    destruct (IH (obj_set out k (f k)) Hnd) as (Hk1 & Hv1 & Hv2).
    { intros Hin. apply Hproto. right. exact Hin. }
    { intros k' Hk' Hin. apply list_elem_of_In in Hin. rewrite Hkeys in Hin.
      apply elem_of_cons in Hin as [-> | Hin]; [contradiction|].
      apply (Hfresh k' (or_intror Hk')), list_elem_of_In, Hin. }
    split; [|split].
    + rewrite Hk1, Hkeys. simpl. rewrite <- Permutation_middle. reflexivity.
    + intros k' [<- | Hk']; [|apply Hv1, Hk'].
      rewrite (Hv2 k Hk), Hset, (obj_get_middle l1 l2 k k (f k) Hl1), String.eqb_refl.
      reflexivity.
    + intros k' Hk'. rewrite Hv2 by (intros Hin; apply Hk'; right; exact Hin).
      rewrite Hset, (obj_get_middle l1 l2 k k' (f k) Hl1), <- Hout.
      destruct (String.eqb_spec k k') as [->|_]; [|reflexivity].
      exfalso. apply Hk'. left. reflexivity.
Qed.

(** The canonical form of an object: its keys, and under each key the
    canonical form of the value. *)
Lemma helper_obj_content (kvs : list (string * value)) :
  NoDup (keys kvs) -> ~ In "__proto__" (keys kvs) ->
  exists out,
    helper (VObj kvs) = VObj out /\
    keys out ≡ₚ keys kvs /\
    forall k, In k (keys kvs) -> obj_get out k = helper (obj_get kvs k).
Proof.
  intros Hnd Hproto. rewrite helper_obj. eexists. split; [reflexivity|].
  assert (Hsort : sort_keys (keys kvs) ≡ₚ keys kvs) by apply merge_sort_Permutation.
  destruct (fold_obj_set (fun k => helper (obj_get kvs k)) (sort_keys (keys kvs)) [])
    as (Hk & Hv & _).
  - rewrite Hsort. exact Hnd.
  - intros Hin. apply Hproto. apply list_elem_of_In. rewrite <- Hsort.
    apply list_elem_of_In. exact Hin.
  - intros k _ [].
  - split; [rewrite Hk; exact Hsort|].
    intros k Hin. apply Hv. apply list_elem_of_In. rewrite Hsort.
    apply list_elem_of_In. exact Hin.
Qed.

Lemma obj_get_In (kvs : list (string * value)) (k : string) (x : value) :
  NoDup (keys kvs) -> In (k, x) kvs -> obj_get kvs k = x.
Proof.
  induction kvs as [|[k' y] kvs IH]; intros Hnd Hin; [destruct Hin|].
  simpl in Hnd. apply NoDup_cons in Hnd as [Hk Hnd]. cbn [obj_get].
  destruct Hin as [[= -> ->] | Hin]; [rewrite String.eqb_refl; reflexivity|].
  destruct (String.eqb_spec k' k) as [->|_]; [|apply IH; assumption].
  exfalso. apply Hk, list_elem_of_In, in_map_iff. exists (k, x). auto.
Qed.

Lemma In_obj_get (kvs : list (string * value)) (k : string) :
  In k (keys kvs) -> In (k, obj_get kvs k) kvs.
Proof.
  induction kvs as [|[k' y] kvs IH]; intros Hin; [destruct Hin|].
  cbn [obj_get]. destruct (String.eqb_spec k' k) as [->|Hne]; [left; reflexivity|].
  right. apply IH. destruct Hin as [Heq | Hin]; [contradiction | exact Hin].
Qed.

Lemma NoDup_keys (kvs : list (string * value)) : NoDup (keys kvs) -> NoDup kvs.
Proof.
  induction kvs as [|[k x] kvs IH]; intros Hnd; [constructor|].
  simpl in Hnd. apply NoDup_cons in Hnd as [Hk Hnd]. apply NoDup_cons.
  split; [|apply IH, Hnd]. intros Hin. apply Hk.
  apply list_elem_of_In, in_map_iff. exists (k, x). split; [reflexivity|].
  apply list_elem_of_In. exact Hin.
Qed.

Lemma key_perm_props_map (kvs : list (string * value)) (g : string -> value) :
  Forall (fun kx => key_perm (snd kx) (g (fst kx))) kvs ->
  key_perm_props kvs (map (fun kx => (fst kx, g (fst kx))) kvs).
Proof.
  induction 1 as [|[k x] kvs Hx _ IH]; simpl; constructor; assumption.
Qed.

Lemma key_perm_elems_Forall2 (xs ys : list value) :
  Forall2 key_perm xs ys -> key_perm_elems xs ys.
Proof. induction 1; constructor; assumption. Qed.

(** Two values with the same canonical form differ in the order of their
    properties only. *)
Lemma helper_separates (v : value) :
  wf_value v -> proto_free v ->
  forall v', wf_value v' -> proto_free v' -> helper v = helper v' -> key_perm v v'.
Proof.
  induction v as [| |b|n|s|xs IH|kvs IH] using value_ind'; intros Hwf Hpf v' Hwf' Hpf' Heq.
  - destruct v'; cbn [helper] in Heq; try discriminate Heq. constructor.
  - destruct v'; cbn [helper] in Heq; try discriminate Heq. constructor.
  - destruct v'; cbn [helper] in Heq; try discriminate Heq. injection Heq as <-. constructor.
  - destruct v'; cbn [helper] in Heq; try discriminate Heq. injection Heq as <-. constructor.
  - destruct v'; cbn [helper] in Heq; try discriminate Heq. injection Heq as <-. constructor.
  - destruct v' as [| | | | |ys|kvs']; cbn [helper] in Heq; try discriminate Heq.
    injection Heq as Heq.
    simpl in Hwf, Hpf, Hwf', Hpf'.
    rewrite wf_elems_Forall in Hwf, Hwf'. rewrite proto_elems_Forall in Hpf, Hpf'.
    constructor. apply key_perm_elems_Forall2.
    revert ys Hwf' Hpf' Heq.
    induction xs as [|x xs IHxs]; intros [|y ys] Hwf' Hpf' Heq; try discriminate Heq;
      [constructor|].
    simpl in Heq. injection Heq as Hxy Heq.
    apply Forall_cons in IH as [IHx IH]. apply Forall_cons in Hwf as [Hx Hwf].
    apply Forall_cons in Hpf as [Hpx Hpf]. apply Forall_cons in Hwf' as [Hy Hwf'].
    apply Forall_cons in Hpf' as [Hpy Hpf'].
    constructor; [apply IHx; assumption | apply IHxs; assumption].
  - destruct v' as [| | | | |ys|kvs']; try (cbn [helper] in Heq; discriminate Heq).
    destruct Hwf as [Hnd Hwf]. destruct Hpf as [Hproto Hpf].
    destruct Hwf' as [Hnd' Hwf']. destruct Hpf' as [Hproto' Hpf'].
    rewrite wf_props_Forall in Hwf, Hwf'. rewrite proto_props_Forall in Hpf, Hpf'.
    destruct (helper_obj_content kvs Hnd Hproto) as (out & Hout & Hkeys & Hvals).
    destruct (helper_obj_content kvs' Hnd' Hproto') as (out' & Hout' & Hkeys' & Hvals').
    rewrite Hout, Hout' in Heq. injection Heq as <-.
    assert (Hsame : keys kvs ≡ₚ keys kvs') by (rewrite <- Hkeys; exact Hkeys').
    assert (Hin' : forall k, In k (keys kvs) -> In k (keys kvs')).
    { intros k Hk. apply list_elem_of_In. rewrite <- Hsame. apply list_elem_of_In, Hk. }
    apply (kp_obj kvs (map (fun kx => (fst kx, obj_get kvs' (fst kx))) kvs) kvs').
    + apply key_perm_props_map. apply Forall_forall. intros [k x] Hkx. simpl.
      apply list_elem_of_In in Hkx.
      assert (Hk : In k (keys kvs)) by (apply in_map_iff; exists (k, x); auto).
      pose proof (In_obj_get kvs' k (Hin' k Hk)) as Hkx'. apply list_elem_of_In in Hkx'.
      rewrite Forall_forall in IH, Hwf, Hpf, Hwf', Hpf'.
      apply (IH (k, x) ltac:(apply list_elem_of_In; exact Hkx)).
      * apply (Hwf (k, x)), list_elem_of_In, Hkx.
      * apply (Hpf (k, x)), list_elem_of_In, Hkx.
      * apply (Hwf' _ Hkx').
      * apply (Hpf' _ Hkx').
      * simpl. rewrite <- (obj_get_In kvs k x Hnd Hkx), <- (Hvals k Hk).
        apply Hvals', Hin', Hk.
    + apply NoDup_Permutation.
      * apply NoDup_keys.
        rewrite (keys_map_prop (fun k _ => obj_get kvs' k) kvs). exact Hnd.
      * apply NoDup_keys. exact Hnd'.
      * intros [k x]. rewrite !list_elem_of_In. split.
        -- intros Hin. apply in_map_iff in Hin as ([k0 x0] & [= <- <-] & Hin0). simpl.
           apply In_obj_get, Hin'. apply in_map_iff. exists (k0, x0). auto.
        -- intros Hin. apply in_map_iff.
           assert (Hk' : In k (keys kvs')) by (apply in_map_iff; exists (k, x); auto).
           assert (Hk : In k (keys kvs)).
           { apply list_elem_of_In. rewrite Hsame. apply list_elem_of_In, Hk'. }
           exists (k, obj_get kvs k). split; [|apply In_obj_get, Hk].
           simpl. rewrite (obj_get_In kvs' k x Hnd' Hin). reflexivity.
Qed.

(** X23: the canonical form tells payloads apart. Two values whose objects
    have pairwise distinct keys, none of them [__proto__], have the same
    canonical form (the value [canonicalStringify] serializes) exactly when
    they differ at most in the order in which their objects list their
    properties, at any depth: nothing of a payload but that order is lost
    before it is serialized and hashed. *)
Theorem canonical_form_separates `{Platform} (v v' : value) :
  wf_value v -> wf_value v' -> proto_free v -> proto_free v' ->
  (helper v = helper v' <-> key_perm v v') /\
  (key_perm v v' -> canonicalStringify v = canonicalStringify v').
Proof.
  intros Hwf Hwf' Hpf Hpf'.
  assert (Hto : key_perm v v' -> helper v = helper v').
  { intros Hperm. apply (proj1 helper_key_perm v v' Hperm Hwf). }
  split; [split; [apply helper_separates; assumption | exact Hto]|].
  intros Hperm. unfold canonicalStringify. rewrite (Hto Hperm). reflexivity.
Qed.

(** X23, witness: the two variables objects of the examples have the same
    canonical form, so they differ in the order of their properties only. *)
Lemma canonical_form_separates_witness :
  helper Demo.vars_a = helper Demo.vars_b /\ key_perm Demo.vars_a Demo.vars_b.
Proof.
  assert (Heq : helper Demo.vars_a = helper Demo.vars_b) by reflexivity.
  split; [exact Heq|].
  destruct (canonical_form_separates (H := Demo.platform) Demo.vars_a Demo.vars_b)
    as [[Hsep _] _].
  - exact demo_vars_wf.
  - simpl. split; [|auto]. apply NoDup_cons. split; [|apply NoDup_singleton].
    rewrite elem_of_cons, elem_of_nil. intuition discriminate.
  - simpl. split; [|auto]. intuition discriminate.
  - simpl. split; [|auto]. intuition discriminate.
  - exact (Hsep Heq).
Defined.

(** ** The worker at work: runs on the demo platform *)

Section Runs.
Import Demo.

(** The examples of the specification for the TTL policy and the clamp. *)
Example ttl_examples :
  pickTtlSeconds "query GlobalFeed { items { id } }" = 3%Z /\
  pickTtlSeconds "query LotteryById($id: ID!){ lottery(id: $id) { id } }" = 15%Z /\
  pickTtlSeconds "QUERY lotteriesBYcreator { x }" = 20%Z /\
  pickTtlSeconds "query Unknown { x }" = 8%Z.
Proof. repeat split; reflexivity. Qed.

Example clamp_example :
  clampPagination (H := Demo.platform)
    (VObj [("id", VStr "42"); ("first", VStr "9999")])
  = VObj [("id", VStr "42"); ("first", VNum (int 200))].
Proof. vm_compute. reflexivity. Qed.

Example clamp_fraction_and_blank :
  clampPagination (H := Demo.platform)
    (VObj [("first", VNum (Fin (-7 # 2))); ("skip", VStr "  ");
           ("where", VObj [("skip", VNum (Fin (5 # 2)))])])
  = VObj [("first", VNum (int 1)); ("skip", VNum (int 0));
          ("where", VObj [("skip", VNum (int 2))])].
Proof. vm_compute. reflexivity. Qed.

(** A miss, the resumption of its handler, the settling of its promise, and
    the same request again: the second one is served from the cache, and
    the upstream was called once. *)
Example miss_then_hit :
  let s := run_events (H := Demo.platform) boot
             [Arrive Demo.env w100 (Demo.request false "?cb=1");
              Reach 0;
              Settle 0 w100;
              Arrive Demo.env w100 (Demo.request false "?cb=2")] in
  tags s = [(0%nat, Some "MISS"); (1%nat, Some "HIT")] /\
  calls s = [query_call Demo.env (Demo.prepared false)].
Proof. split; vm_compute; reflexivity. Qed.

(** Two requests that both miss the cache before either of them reaches the
    in-flight map: one call, tags MISS and COALESCED_BYPASS. *)
Example coalesced :
  let s := run_events (H := Demo.platform) boot
             [Arrive Demo.env w100 (Demo.request false "");
              Arrive Demo.env w100 (Demo.request true "");
              Reach 0;
              Reach 1;
              Settle 0 w100] in
  tags s = [(0%nat, Some "MISS"); (1%nat, Some "COALESCED_BYPASS")] /\
  calls s = [query_call Demo.env (Demo.prepared false)] /\
  inflight s !! hashKey (Demo.prepared false) = None.
Proof. split; [|split]; vm_compute; reflexivity. Qed.

(** The second of two requests that missed the cache resumes after the
    promise of the first has settled: the upstream is called again. *)
Example late_resumption :
  let s := run_events (H := Demo.platform) boot
             [Arrive Demo.env w100 (Demo.request false "");
              Arrive Demo.env w100 (Demo.request false "");
              Reach 0;
              Settle 0 w100;
              Reach 1;
              Settle 1 w100] in
  tags s = [(0%nat, Some "MISS"); (1%nat, Some "MISS")] /\
  length (calls s) = 2%nat.
Proof. split; vm_compute; reflexivity. Qed.

(** A forced-fresh read at block 100 writes through and records 100; a
    later one at block 90 is returned to its client and leaves the record
    at 100. Each of them sends the query and the probe. *)
Example regression_refused :
  let s1 := run_events (H := Demo.platform) boot
              [Arrive Demo.env w100 (Demo.request true ""); Reach 0; Settle 0 w100] in
  let s2 := run_events (H := Demo.platform) s1
              [Arrive Demo.env w90 (Demo.request true ""); Reach 1; Settle 1 w90] in
  res_body <$> cache s1 !! metaKeyUrlFrom (hashKey (Demo.prepared true))
    = Some (Some "100") /\
  res_body <$> cache s2 !! metaKeyUrlFrom (hashKey (Demo.prepared true))
    = Some (Some "100") /\
  tags s2 = [(0%nat, Some "BYPASS"); (1%nat, Some "BYPASS")] /\
  calls s1 = [query_call Demo.env (Demo.prepared true); meta_call Demo.env].
Proof. split; [|split; [|split]]; vm_compute; reflexivity. Qed.

(** A 200 answer of type [application/json] that carries [errors] is passed
    on and not stored. *)
Example errors_not_stored :
  let s := run_events (H := Demo.platform) boot
             [Arrive Demo.env werr (Demo.request false ""); Reach 0; Settle 0 werr] in
  cache s !! cacheReq (Demo.prepared false) = None /\
  (res_status ∘ snd) <$> replies s = [200%Z].
Proof. split; vm_compute; reflexivity. Qed.

(** An upstream status that the constructor of [Response] refuses turns
    into the internal-error response. *)
Example status_out_of_range :
  let w := wgives 999 "application/json" data_doc in
  let s := run_events (H := Demo.platform) boot
             [Arrive Demo.env w (Demo.request false ""); Reach 0; Settle 0 w] in
  (res_status ∘ snd) <$> replies s = [500%Z] /\
  tags s = [(0%nat, None)].
Proof. split; vm_compute; reflexivity. Qed.

(** An entry that is evicted is fetched again. *)
Example evicted_entry :
  let s := run_events (H := Demo.platform) boot
             [Arrive Demo.env w100 (Demo.request false "");
              Reach 0;
              Settle 0 w100;
              Evict (cacheReq (Demo.prepared false));
              Arrive Demo.env w100 (Demo.request false "");
              Reach 1;
              Settle 1 w100] in
  tags s = [(0%nat, Some "MISS"); (1%nat, Some "MISS")] /\
  length (calls s) = 2%nat.
Proof. split; vm_compute; reflexivity. Qed.

(** [withCors] on a response that varies on the encoding and the origin:
    the origin goes, the rest stays; a response that varies on the origin
    alone loses the header. *)
Example vary_example :
  let r v := {| res_status := 200; res_headers := headers_set "Vary" v ∅;
                res_body := None |} in
  headers_get "Vary" (res_headers (withCors (r "Accept-Encoding, Origin")))
    = Some "Accept-Encoding" /\
  headers_get "Vary" (res_headers (withCors (r "ORIGIN"))) = None.
Proof. split; vm_compute; reflexivity. Qed.

(** A [__proto__] property of the variables is not part of the canonical
    form. *)
Example proto_example :
  helper (VObj [("id", VStr "42"); ("__proto__", VObj [("x", VNum (int 1))])])
  = helper (VObj [("id", VStr "42")]).
Proof. vm_compute. reflexivity. Qed.

End Runs.
